(** * biosensors.usc: the numeric core of [NadarayaRegression.h] and
    [WassersteinRegression.h]

    A shallow embedding of the two C++ headers of [inst/include]:
    kernel (Nadaraya-Watson) regression on functional data and global
    Frechet regression under the Wasserstein metric.

    Conventions of the embedding.
    - A [double] is an exact number: a real ([R]) in the Nadaraya-Watson
      header, whose kernel needs [sqrt] and [exp], and a rational ([Q]) in
      the Wasserstein header, whose arithmetic is field arithmetic and
      comparisons only, so that the model runs.  Rounding, infinities and
      NaN are outside the model.  The bounds on the kernel weights and on
      the predictions of [nadayara_predicion] are stated for any
      exponential within its range (section [Exponential]), so that they
      do not rest on the exponential of the reals being positive, which
      the one of doubles is not.
    - An Armadillo matrix is a record of its two dimensions and its
      column-major memory, as Armadillo stores it.  [arma::vec],
      [arma::rowvec] and [arma::uvec] are lists.
    - [arma::uword] is an unsigned 64-bit integer; the subtractions
      [n-1], [n-2], [count-1], [k-1] of the source wrap around and are
      written with [usub].
    - A C++ exception is the [Throw] branch of the result type [res].
      Armadillo's bounds and size checks are enabled in the default build
      and raise [std::logic_error]. *)

From Stdlib Require Import String.
From Stdlib Require Import List Arith Lia Bool NArith ZArith.
From Stdlib Require Import Reals.
From Stdlib Require Import QArith Qabs Qminmax.
From Stdlib Require Import Psatz.
From Stdlib Require Import Permutation.
Import ListNotations.

Close Scope Q_scope.
Close Scope R_scope.
Close Scope Z_scope.
Close Scope N_scope.
Open Scope nat_scope.

Set Implicit Arguments.

(** ** Exceptions *)

Inductive exn : Type :=
| invalid_argument (what : string)
| logic_error (what : string)
| runtime_error (what : string).

Inductive res (A : Type) : Type :=
| Ok (a : A)
| Throw (e : exn).

Arguments Ok {A} a.
Arguments Throw {A} e.

Definition bind {A B : Type} (c : res A) (k : A -> res B) : res B :=
  match c with
  | Ok a => k a
  | Throw e => Throw e
  end.

Notation "x <- c ;; k" := (bind c (fun x => k))
  (at level 61, c at next level, right associativity).
Notation "' p <- c ;; k" := (bind c (fun x => match x with p => k end))
  (at level 61, p pattern, c at next level, right associativity).

(** [mapM f l] runs [f] on the elements of [l] from left to right and
    stops at the first exception: a [for] loop whose body may throw. *)
Fixpoint mapM {A B : Type} (f : A -> res B) (l : list A) : res (list B) :=
  match l with
  | [] => Ok []
  | a :: l' => b <- f a ;; bs <- mapM f l' ;; Ok (b :: bs)
  end.

(** A loop that carries a state and may throw. *)
Fixpoint foldM {A B : Type} (f : B -> A -> res B) (l : list A) (b : B) : res B :=
  match l with
  | [] => Ok b
  | a :: l' => b' <- f b a ;; foldM f l' b'
  end.

(** ** Armadillo's dense containers *)

Class Zero (A : Type) : Type := zero : A.

#[global] Instance zero_nat : Zero nat := 0%nat.
#[global] Instance zero_R : Zero R := 0%R.
#[global] Instance zero_Q : Zero Q := 0%Q.

Module Arma.

(** [arma::Mat<eT>]: [n_rows], [n_cols] and the column-major memory. *)
Record mat (A : Type) : Type := Mat {
  n_rows : nat;
  n_cols : nat;
  mem : list A
}.

Arguments Mat {A} n_rows n_cols mem.

Definition uword_modulus : N := (2 ^ 64)%N.

(** [a - b] on [arma::uword]. *)
Definition usub (a b : nat) : N :=
  if b <=? a then N.of_nat (a - b)
  else (uword_modulus - N.of_nat (b - a))%N.

Section Dense.
Context {A : Type} {zeroA : Zero A}.

(** Element [(i,j)] read from memory, as Armadillo's [at(i,j)]. *)
Definition get (M : mat A) (i j : nat) : A :=
  nth (i + j * n_rows M) (mem M) zero.

(** The [r] x [c] matrix whose element [(i,j)] is [f i j]. *)
Definition mk (r c : nat) (f : nat -> nat -> A) : mat A :=
  Mat r c (flat_map (fun j => map (fun i => f i j) (seq 0 r)) (seq 0 c)).

(** A matrix written row by row, as in [{{a,b},{c,d}}]. *)
Definition of_rows (l : list (list A)) : mat A :=
  mk (length l) (length (hd [] l)) (fun i j => nth j (nth i l []) zero).

Definition to_rows (M : mat A) : list (list A) :=
  map (fun i => map (fun j => get M i j) (seq 0 (n_cols M))) (seq 0 (n_rows M)).

Definition col_of (v : list A) : mat A := mk (length v) 1 (fun i _ => nth i v zero).
Definition row_of (v : list A) : mat A := mk 1 (length v) (fun _ j => nth j v zero).

Definition n_elem (M : mat A) : nat := n_rows M * n_cols M.

(** [M(i)], linear element access with its bounds check. *)
Definition elem (M : mat A) (i : nat) : res A :=
  if i <? n_elem M then Ok (nth i (mem M) zero)
  else Throw (logic_error "Mat::operator(): index out of bounds").

(** [M.t()]. *)
Definition t (M : mat A) : mat A :=
  mk (n_cols M) (n_rows M) (fun i j => get M j i).

(** [M.rows(first, last)], both indices of type [uword]. *)
Definition rows (M : mat A) (first last : N) : res (mat A) :=
  if (last <? first)%N || (N.of_nat (n_rows M) <=? last)%N
  then Throw (logic_error "Mat::rows(): indices out of bounds or incorrectly used")
  else Ok (mk (N.to_nat last - N.to_nat first + 1) (n_cols M)
              (fun i j => get M (N.to_nat first + i) j)).

(** [M.row(i)] as a 1 x [n_cols] matrix. *)
Definition row (M : mat A) (i : N) : res (mat A) :=
  if (N.of_nat (n_rows M) <=? i)%N
  then Throw (logic_error "Mat::row(): index out of bounds")
  else Ok (mk 1 (n_cols M) (fun _ j => get M (N.to_nat i) j)).

(** [M.row(i)] read as a vector, for a row index inside the loop bounds. *)
Definition row_vec (M : mat A) (i : nat) : list A :=
  map (fun j => get M i j) (seq 0 (n_cols M)).

(** [M.col(j)] read as a vector. *)
Definition col (M : mat A) (j : nat) : res (list A) :=
  if j <? n_cols M then Ok (map (fun i => get M i j) (seq 0 (n_rows M)))
  else Throw (logic_error "Mat::col(): index out of bounds").

(** [M.rows(first, last) = V]: assignment to a block of rows, with the
    size check of a subview assignment. *)
Definition set_rows (M : mat A) (first last : N) (V : mat A) : res (mat A) :=
  if (last <? first)%N || (N.of_nat (n_rows M) <=? last)%N
  then Throw (logic_error "Mat::rows(): indices out of bounds or incorrectly used")
  else
    if negb ((n_rows V =? N.to_nat last - N.to_nat first + 1) && (n_cols V =? n_cols M))
    then Throw (logic_error "copy into submatrix: incompatible matrix dimensions")
    else Ok (mk (n_rows M) (n_cols M)
                (fun i j => if (N.to_nat first <=? i) && (i <=? N.to_nat last)
                            then get V (i - N.to_nat first) j else get M i j)).

(** [M.row(i) = V]. *)
Definition set_row (M : mat A) (i : N) (V : mat A) : res (mat A) :=
  if (N.of_nat (n_rows M) <=? i)%N
  then Throw (logic_error "Mat::row(): index out of bounds")
  else
    if negb ((n_rows V =? 1) && (n_cols V =? n_cols M))
    then Throw (logic_error "copy into submatrix: incompatible matrix dimensions")
    else Ok (mk (n_rows M) (n_cols M)
                (fun k j => if k =? N.to_nat i then get V 0 j else get M k j)).

(** [v.rows(idx)] / [v.elem(idx)] on a vector, [idx] an [arma::uvec]. *)
Definition vec_select (v : list A) (idx : list nat) : res (list A) :=
  mapM (fun i => match nth_error v i with
                 | Some a => Ok a
                 | None => Throw (logic_error "Mat::elem(): index out of bounds")
                 end) idx.

(** [M.rows(idx)], [idx] an [arma::uvec]. *)
Definition select_rows (M : mat A) (idx : list nat) : res (mat A) :=
  if forallb (fun i => i <? n_rows M) idx
  then Ok (mk (length idx) (n_cols M) (fun i j => get M (nth i idx 0) j))
  else Throw (logic_error "Mat::rows(): index out of bounds").

(** [M.cols(idx)], [idx] an [arma::uvec]. *)
Definition select_cols (M : mat A) (idx : list nat) : res (mat A) :=
  if forallb (fun j => j <? n_cols M) idx
  then Ok (mk (n_rows M) (length idx) (fun i j => get M i (nth j idx 0)))
  else Throw (logic_error "Mat::cols(): index out of bounds").

(** Element-wise combination of two matrices of one size. *)
Definition map2 (f : A -> A -> A) (X Y : mat A) : mat A :=
  mk (n_rows X) (n_cols X) (fun i j => f (get X i j) (get Y i j)).

Definition mmap (f : A -> A) (X : mat A) : mat A :=
  mk (n_rows X) (n_cols X) (fun i j => f (get X i j)).

(** A matrix filled by two nested loops whose body can throw; the outer
    loop runs over the rows. *)
Definition fill_loop (r c : nat) (f : nat -> nat -> res A) : res (mat A) :=
  cells <- mapM (fun i => mapM (fun j => f i j) (seq 0 c)) (seq 0 r) ;;
  Ok (mk r c (fun i j => nth j (nth i cells []) zero)).

End Dense.

End Arma.

(** ** NadarayaRegression.h *)

Module Nadaraya.
Import Arma.
Local Open Scope R_scope.

Definition vec : Type := list R.

Definition Rsum (v : vec) : R := fold_right Rplus 0 v.

(** [a % b] on vectors of one length. *)
Fixpoint schur (a b : vec) : vec :=
  match a, b with
  | x :: a', y :: b' => x * y :: schur a' b'
  | _, _ => []
  end.

(** [a - b] on vectors of one length. *)
Fixpoint vsub (a b : vec) : vec :=
  match a, b with
  | x :: a', y :: b' => x - y :: vsub a' b'
  | _, _ => []
  end.

(** [cumsum(M)] of a matrix: the running sum down every column. *)
Definition cumsum (M : mat R) : mat R :=
  mk (n_rows M) (n_cols M)
     (fun i j => Rsum (map (fun k => get M k j) (seq 0 (S i)))).

Definition zeros (r c : nat) : mat R := mk r c (fun _ _ => 0).

Record nadaraya_struct : Type := {
  prediction : mat R;
  residuals : mat R;
  r2 : mat R;
  error : mat R;
  r2_global : mat R
}.

(** Lines 52-62 of [trapecio], on the operands in column orientation. *)
Definition trapecio_columns (X Y : mat R) : res (mat R) :=
  let m := 1%nat in
  let n := n_rows X in
  let C := zeros n m in
  Xhi <- rows X 1 (usub n 1) ;;
  Xlo <- rows X 0 (usub n 2) ;;
  Yhi <- rows Y 1 (usub n 1) ;;
  Ylo <- rows Y 0 (usub n 2) ;;
  let tmp := map2 Rmult (map2 Rminus Xhi Xlo) (map2 Rplus Yhi Ylo) in
  if (n_rows tmp =? 1)%nat
  then C1 <- set_row C 1 (mmap (Rmult 0.5) tmp) ;; row C1 (usub n 1)
  else C1 <- set_rows C 1 (usub n 1) (mmap (Rmult 0.5) (cumsum tmp)) ;; row C1 (usub n 1).

(** [trapecio(X, Y)] (lines 40-64). *)
Definition trapecio (X Y : mat R) : res (mat R) :=
  if negb (n_rows X =? n_rows Y)%nat || negb (n_cols X =? n_cols Y)%nat
  then Throw (invalid_argument "Arguments 'x' and 'y' must be matrices of the same dimension")
  else
    if (n_cols X =? 1)%nat
    then trapecio_columns X Y
    else trapecio_columns (t X) (t Y).

(** The trapezoid rule over [m] points, [x] and [y] read by position:
    the integral that [trapecio] is meant to return. *)
Definition trapezoid_rule (x y : nat -> R) (m : nat) : R :=
  0.5 * Rsum (map (fun k => (x (S k) - x k) * (y (S k) + y k)) (seq 0 (m - 1))).

(** The [k]-th element of a row or column vector. *)
Definition lin (M : mat R) (k : nat) : R := nth k (mem M) 0.

(** The column [((a - b) % (a - b)).t()] of the two distance functions. *)
Definition sqdiff_col (a b : vec) : mat R :=
  col_of (schur (vsub a b) (vsub a b)).

(** The integral distance between two curves of [m] points:
    [sqrt(trapezoid(t, (a - b)^2))]. *)
Definition curve_distance (tt : mat R) (a b : vec) (m : nat) : R :=
  sqrt (trapezoid_rule (lin tt) (lin (sqdiff_col a b)) m).

(** The matrix of the distances between the rows of [X]. *)
Definition distance_matrix (X tt : mat R) : mat R :=
  mk (n_rows X) (n_rows X)
     (fun i j => curve_distance tt (row_vec X i) (row_vec X j) (n_cols X)).

(** [eucdistance1(X, t)] (lines 67-78). *)
Definition eucdistance1 (X tt : mat R) : res (mat R) :=
  let n := n_rows X in
  fill_loop n n (fun i j =>
    I <- trapecio tt (sqdiff_col (row_vec X i) (row_vec X j)) ;;
    v <- elem I 0 ;;
    Ok (sqrt v)).

(** [eucdistance2(X, t, x)] (lines 81-92).  The difference
    [x.row(i) - X.row(j)] of two rows of unequal length is an Armadillo
    size error. *)
Definition eucdistance2 (X tt x : mat R) : res (mat R) :=
  let n := n_rows X in
  let nx := n_rows x in
  fill_loop nx n (fun i j =>
    if negb (n_cols x =? n_cols X)%nat
    then Throw (logic_error "subtraction: incompatible matrix dimensions")
    else
      I <- trapecio tt (sqdiff_col (row_vec x i) (row_vec X j)) ;;
      v <- elem I 0 ;;
      Ok (sqrt v)).

(** [gaussiankernelinicial(x, h)] (lines 96-100). *)
Definition gaussiankernelinicial (x : vec) (h : R) : vec :=
  map (fun xi => 2 / sqrt (2 * PI) * exp (- (xi / h) * (xi / h) * 0.5)) x.

(** [triangular(x, h)] (lines 103-115). *)
Definition triangular (x : vec) (h : R) : vec :=
  map (fun xi => if Rlt_dec (xi / h) 0 then 0
                 else if Rlt_dec 1 (xi / h) then 0
                 else 35 / 16 * (1 - (xi / h) ^ 2) ^ 3) x.

(** The ratio [sum((aux % Y)) / sum(aux)] of lines 217, 239 and 304. *)
Definition nw_denominator (d : vec) (h : R) : R :=
  Rsum (gaussiankernelinicial d h).

Definition nw_ratio (d Y : vec) (h : R) : R :=
  Rsum (schur (gaussiankernelinicial d h) Y) / nw_denominator d h.

(** [mean(Y)] followed by [media(0)]: the mean of a column, which does
    not exist when the column is empty. *)
Definition mean0 (Y : vec) : res R :=
  match Y with
  | [] => Throw (logic_error "Mat::operator(): index out of bounds")
  | _ => Ok (Rsum Y / INR (length Y))
  end.

(** The predictions of one fold for all bandwidths: the matrix
    [prediciones2] of lines 213-220 and 300-309, rows indexed by the
    validation rows and columns by the bandwidths. *)
Definition fold_predictions (distancias2 : mat R) (Y1 hs : vec) : mat R :=
  mk (n_rows distancias2) (length hs)
     (fun i j => nw_ratio (row_vec distancias2 i) Y1 (nth j hs 0)).

(** The body of the loop over the folds of [nadayara_regression]
    (lines 191-227): the column [R2validacionaux] of fold [l]. *)
Definition validation_column (distancias : mat R) (Y hs : vec)
    (indices1 indices2 : mat nat) (l : nat) : res vec :=
  indices1aux <- col indices1 l ;;
  indices2aux <- col indices2 l ;;
  Y1 <- vec_select Y indices1aux ;;
  Y2 <- vec_select Y indices2aux ;;
  distancias2 <- select_rows distancias indices2aux ;;
  distancias2 <- select_cols distancias2 indices1aux ;;
  mediax <- mean0 Y2 ;;
  let prediciones2 := fold_predictions distancias2 Y1 hs in
  Ok (map (fun j =>
         let aux3x := map (fun i => get prediciones2 i j) (seq 0 (n_rows indices2)) in
         let residuosauxx := vsub Y2 aux3x in
         Rsum (schur residuosauxx residuosauxx))
       (seq 0 (length hs))).

(** [nadayara_regression(X, t, Y, hs, indices1, indices2)]
    (lines 157-258).  [Y] and [hs] are single-column matrices: line 162
    assigns [mean(Y)] to an [arma::vec], which Armadillo refuses for more
    than one column, and [hs] is read as [hs(j)] for [j < hs.n_rows].
    They are modelled by their column. *)
Definition nadayara_regression (X tt : mat R) (Y hs : vec)
    (indices1 indices2 : mat nat) : res nadaraya_struct :=
  let n := n_rows X in
  media <- mean0 Y ;;
  if negb (length Y =? n)%nat
  then Throw (logic_error "subtraction: incompatible matrix dimensions")
  else
    let residuos := map (fun y => y - media) Y in
    let nh := length hs in
    let n1p := n_cols indices1 in
    distancias <- eucdistance1 X tt ;;
    columns <- mapM (validation_column distancias Y hs indices1 indices2) (seq 0 n1p) ;;
    let R2validacion := mk nh n1p (fun j l => nth j (nth l columns []) 0) in
    let prediciones :=
      mk n nh (fun i j => nw_ratio (row_vec distancias i) Y (nth j hs 0)) in
    let residuosglobal := mk n nh (fun i j => nth i Y 0 - get prediciones i j) in
    let sse := fun j =>
      let residuosaux := map (fun i => get residuosglobal i j) (seq 0 n) in
      Rsum (schur residuosaux residuosaux) in
    let error := mk nh 1 (fun j _ => sse j) in
    let R2 := mk nh 1 (fun j _ => 1 - sse j / Rsum (schur residuos residuos)) in
    Ok {| prediction := prediciones;
          residuals := residuosglobal;
          r2 := R2;
          error := error;
          r2_global := R2validacion |}.

(** The body of the loop over the folds of [nadayara_predicion]
    (lines 287-310): the value assigned to [prediccionesfinales]. *)
Definition prediction_fold (distancias : mat R) (Y hs : vec)
    (indices1 indices2 : mat nat) (l : nat) : res (mat R) :=
  indices1aux <- col indices1 l ;;
  indices2aux <- col indices2 l ;;
  Y1 <- vec_select Y indices1aux ;;
  distancias2 <- select_rows distancias indices2aux ;;
  distancias2 <- select_cols distancias2 indices1aux ;;
  Ok (fold_predictions distancias2 Y1 hs).

(** The loop of lines 286-312: every fold assigns
    [prediccionesfinales] anew. *)
Fixpoint prediction_loop (distancias : mat R) (Y hs : vec)
    (indices1 indices2 : mat nat) (ls : list nat)
    (prediccionesfinales : mat R) : res (mat R) :=
  match ls with
  | [] => Ok prediccionesfinales
  | l :: ls' =>
      prediciones2 <- prediction_fold distancias Y hs indices1 indices2 l ;;
      prediction_loop distancias Y hs indices1 indices2 ls' prediciones2
  end.

(** [nadayara_predicion(X, t, Y, hs, indices1, indices2)]
    (lines 264-315).  [uninitialised] stands for the contents of the
    [n2x] x [nh] matrix [prediccionesfinales] as allocated at line 280,
    which the source returns when there is no fold. *)
Definition nadayara_predicion (X tt : mat R) (Y hs : vec)
    (indices1 indices2 : mat nat) (uninitialised : mat R) : res (mat R) :=
  let n1p := n_cols indices1 in
  distancias <- eucdistance1 X tt ;;
  prediction_loop distancias Y hs indices1 indices2 (seq 0 n1p) uninitialised.

(** *** The quantities the cross-validation is described by

    Written from the description of the cross-validation, to be compared
    with [validation_column] and [prediction_fold]. *)

Definition kernel_weight (d h : R) : R :=
  2 / sqrt (2 * PI) * exp (- (d / h) * (d / h) * 0.5).

(** Prediction for row [v] from the training rows [train] only. *)
Definition cv_prediction (D : mat R) (Y : vec) (h : R) (train : list nat) (v : nat) : R :=
  Rsum (map (fun k => kernel_weight (get D v k) h * nth k Y 0) train)
  / Rsum (map (fun k => kernel_weight (get D v k) h) train).

(** Sum of squared validation errors of one fold at one bandwidth. *)
Definition cv_sse (D : mat R) (Y : vec) (h : R) (train valid : list nat) : R :=
  Rsum (map (fun v => (nth v Y 0 - cv_prediction D Y h train v)
                      * (nth v Y 0 - cv_prediction D Y h train v)) valid).

(** Column [l] of an index matrix. *)
Definition fold_column (indices : mat nat) (l : nat) : list nat :=
  map (fun i => get indices i l) (seq 0 (n_rows indices)).

(** Shapes and index ranges under which [nadayara_regression] runs to
    completion: a column grid of at least two points matching the curves,
    one outcome per curve, index matrices with as many folds, a validation
    row in every fold, and all indices naming rows of [X]. *)
Definition cv_input_ok (X tt : mat R) (Y : vec) (indices1 indices2 : mat nat) : bool :=
  (n_cols tt =? 1) && (n_rows tt =? n_cols X) && (2 <=? n_cols X)
  && (1 <=? n_rows X) && (length Y =? n_rows X)
  && (n_cols indices2 =? n_cols indices1)
  && ((n_cols indices1 =? 0) || (1 <=? n_rows indices2))
  && forallb (fun i => i <? n_rows X) (mem indices1)
  && forallb (fun i => i <? n_rows X) (mem indices2).

(** The same for [nadayara_predicion], which reads no mean of the
    validation outcomes and so accepts an empty validation fold. *)
Definition prediction_input_ok (X tt : mat R) (Y : vec) (indices1 indices2 : mat nat) : bool :=
  (n_cols tt =? 1) && (n_rows tt =? n_cols X) && (2 <=? n_cols X)
  && (1 <=? n_rows X) && (length Y =? n_rows X)
  && (n_cols indices2 =? n_cols indices1)
  && forallb (fun i => i <? n_rows X) (mem indices1)
  && forallb (fun i => i <? n_rows X) (mem indices2).

(** *** Scenario A of the description: grid [[0,1]], three curves, one
    bandwidth, and two folds given by index matrices. *)

Definition scenario_t : mat R := of_rows [[0]; [1]].
Definition scenario_X : mat R := of_rows [[0; 0]; [1; 1]; [2; 2]].
Definition scenario_Y : vec := [1; 2; 3].
Definition scenario_hs : vec := [1].
Definition scenario_train : mat nat := of_rows [[0; 1]; [1; 2]]%nat.
Definition scenario_valid : mat nat := of_rows [[2; 0]]%nat.

(** A two-by-two input and a row input for [trapecio]. *)
Definition square_x : mat R := of_rows [[0; 1]; [0; 1]].
Definition row_x : mat R := of_rows [[0; 1 / 2; 1]].
Definition row_y : mat R := of_rows [[1; 1; 1]].

(** *** Further quantities and inputs *)

(** [sum(residuos % residuos)] of lines 165 and 246: the sum of the
    squared deviations of the outcomes from their mean. *)
Definition total_sum_of_squares (Y : vec) : R :=
  let media := Rsum Y / INR (length Y) in
  Rsum (schur (map (fun y => y - media) Y) (map (fun y => y - media) Y)).

(** The in-sample outputs of [nadayara_regression] (lines 235-249),
    written from the inputs. *)
Definition in_sample_prediction (X tt : mat R) (Y hs : vec) : mat R :=
  mk (n_rows X) (length hs)
     (fun i j => nw_ratio (row_vec (distance_matrix X tt) i) Y (nth j hs 0)).

Definition in_sample_residuals (X tt : mat R) (Y hs : vec) : mat R :=
  mk (n_rows X) (length hs)
     (fun i j => nth i Y 0 - get (in_sample_prediction X tt Y hs) i j).

Definition in_sample_sse (X tt : mat R) (Y hs : vec) (j : nat) : R :=
  let residuosaux :=
    map (fun i => get (in_sample_residuals X tt Y hs) i j) (seq 0 (n_rows X)) in
  Rsum (schur residuosaux residuosaux).

(** A grid of a single point, and curves sampled on it. *)
Definition one_point_t : mat R := of_rows [[0]].


(** Index matrices naming a row that does not exist (row 3 of 3). *)
Definition overrun_train : mat nat := of_rows [[0; 3]; [1; 2]]%nat.

(** Two folds without a validation row. *)
Definition empty_valid : mat nat := mk 0 2 (fun _ _ => 0%nat).

(** Index matrices without any fold. *)
Definition no_fold : mat nat := mk 2 0 (fun _ _ => 0%nat).

(** Two folds without a training row. *)
Definition no_train : mat nat := mk 0 2 (fun _ _ => 0%nat).

(** *** The kernel and the prediction loop for any exponential

    [exp] at line 98 is the exponential of the C library on doubles: it
    is not negative, it is 1 at 0 and at most 1 below 0, and it returns 0
    for an argument below about -745.  The definitions of this section
    are [gaussiankernelinicial], the ratio of line 304 and the loop of
    [nadayara_predicion] once more, with the exponential [e] as a
    parameter; at [e := exp] they are the definitions above. *)
Section Exponential.

Variable e : R -> R.

(** [gaussiankernelinicial(x, h)] (lines 96-100). *)
Definition gaussiankernelinicial_with (x : vec) (h : R) : vec :=
  map (fun xi => 2 / sqrt (2 * PI) * e (- (xi / h) * (xi / h) * 0.5)) x.

(** The ratio [sum((auxx % Y1)) / sum(auxx)] of line 304. *)
Definition nw_denominator_with (d : vec) (h : R) : R :=
  Rsum (gaussiankernelinicial_with d h).

Definition nw_ratio_with (d Y : vec) (h : R) : R :=
  Rsum (schur (gaussiankernelinicial_with d h) Y) / nw_denominator_with d h.

(** The matrix [prediciones2] of lines 300-309. *)
Definition fold_predictions_with (distancias2 : mat R) (Y1 hs : vec) : mat R :=
  mk (n_rows distancias2) (length hs)
     (fun i j => nw_ratio_with (row_vec distancias2 i) Y1 (nth j hs 0)).

(** The body of the loop over the folds (lines 287-310). *)
Definition prediction_fold_with (distancias : mat R) (Y hs : vec)
    (indices1 indices2 : mat nat) (l : nat) : res (mat R) :=
  indices1aux <- col indices1 l ;;
  indices2aux <- col indices2 l ;;
  Y1 <- vec_select Y indices1aux ;;
  distancias2 <- select_rows distancias indices2aux ;;
  distancias2 <- select_cols distancias2 indices1aux ;;
  Ok (fold_predictions_with distancias2 Y1 hs).

(** The loop of lines 286-312. *)
Fixpoint prediction_loop_with (distancias : mat R) (Y hs : vec)
    (indices1 indices2 : mat nat) (ls : list nat)
    (prediccionesfinales : mat R) : res (mat R) :=
  match ls with
  | [] => Ok prediccionesfinales
  | l :: ls' =>
      prediciones2 <- prediction_fold_with distancias Y hs indices1 indices2 l ;;
      prediction_loop_with distancias Y hs indices1 indices2 ls' prediciones2
  end.

(** [nadayara_predicion(X, t, Y, hs, indices1, indices2)] (lines 264-315). *)
Definition nadayara_predicion_with (X tt : mat R) (Y hs : vec)
    (indices1 indices2 : mat nat) (uninitialised : mat R) : res (mat R) :=
  let n1p := n_cols indices1 in
  distancias <- eucdistance1 X tt ;;
  prediction_loop_with distancias Y hs indices1 indices2 (seq 0 n1p) uninitialised.

End Exponential.

(** An exponential that underflows as the one of doubles does: 0 from
    -745 downwards. *)
Definition flushed_exp (x : R) : R := if Rle_dec x (-745) then 0 else exp x.

End Nadaraya.

(** ** WassersteinRegression.h *)

Module Wasserstein.
Import Arma.
Local Open Scope Q_scope.

Definition vec : Type := list Q.

Definition Qltb (a b : Q) : bool := negb (Qle_bool b a).

Definition Qsum (v : vec) : Q := fold_right Qplus 0 v.

Record regression_struct : Type := {
  xfit : mat Q;
  xpred : mat Q;
  Qfit : mat Q;
  Qpred : mat Q;
  qfit : mat Q;
  qpred : mat Q;
  ffit : mat Q;
  fpred : mat Q;
  QP_used : Z
}.

(** *** Armadillo's arithmetic on matrices and vectors *)

Definition zeros (r c : nat) : mat Q := mk r c (fun _ _ => 0).
Definition ones (r c : nat) : mat Q := mk r c (fun _ _ => 1).
Definition eye (r c : nat) : mat Q := mk r c (fun i j => if (i =? j)%nat then 1 else 0).

Definition scale (a : Q) (M : mat Q) : mat Q := mmap (Qmult a) M.
Definition mneg (M : mat Q) : mat Q := mmap Qopp M.

(** [cumsum(M)]: the running sum down every column. *)
Definition cumsum (M : mat Q) : mat Q :=
  mk (n_rows M) (n_cols M)
     (fun i j => Qsum (map (fun k => get M k j) (seq 0 (S i)))).

(** [A * B] with its size check. *)
Definition mmul (A B : mat Q) : res (mat Q) :=
  if (n_cols A =? n_rows B)%nat
  then Ok (mk (n_rows A) (n_cols B)
              (fun i j => Qsum (map (fun k => get A i k * get B k j) (seq 0 (n_cols A)))))
  else Throw (logic_error "matrix multiplication: incompatible matrix dimensions").

Definition is_empty (M : mat Q) : bool := (n_rows M =? 0)%nat && (n_cols M =? 0)%nat.

(** [join_horiz(A, B)]: an empty operand is ignored, otherwise the
    numbers of rows must agree. *)
Definition join_horiz (A B : mat Q) : res (mat Q) :=
  if negb (n_rows A =? n_rows B)%nat && negb (is_empty A) && negb (is_empty B)
  then Throw (logic_error "join_rows() / join_horiz(): number of rows must be the same")
  else Ok (mk (Nat.max (n_rows A) (n_rows B)) (n_cols A + n_cols B)
              (fun i j => if (j <? n_cols A)%nat then get A i j
                          else get B i (j - n_cols A))).

(** [join_vert(A, B)]. *)
Definition join_vert (A B : mat Q) : res (mat Q) :=
  if negb (n_cols A =? n_cols B)%nat && negb (is_empty A) && negb (is_empty B)
  then Throw (logic_error "join_cols() / join_vert(): number of columns must be the same")
  else Ok (mk (n_rows A + n_rows B) (Nat.max (n_cols A) (n_cols B))
              (fun i j => if (i <? n_rows A)%nat then get A i j
                          else get B (i - n_rows A) j)).

(** A matrix assigned to an [arma::vec] must have one column. *)
Definition as_vec (M : mat Q) : res vec :=
  if (n_cols M =? 1)%nat || is_empty M
  then Ok (map (fun i => get M i 0) (seq 0 (n_rows M)))
  else Throw (logic_error "Mat::init(): requested size is not compatible with column vector layout").

(** [v.subvec(first, last)], both indices of type [uword]. *)
Definition subvec {A : Type} (v : list A) (first last : N) : res (list A) :=
  if (last <? first)%N || (N.of_nat (length v) <=? last)%N
  then Throw (logic_error "Col::subvec(): indices out of bounds or incorrectly used")
  else Ok (firstn (N.to_nat last - N.to_nat first + 1) (skipn (N.to_nat first) v)).

(** [v(i)] with its bounds check. *)
Definition vec_elem (v : vec) (i : N) : res Q :=
  if (N.of_nat (length v) <=? i)%N
  then Throw (logic_error "Mat::operator(): index out of bounds")
  else Ok (nth (N.to_nat i) v 0).

(** [diff(v)]. *)
Fixpoint diff (v : vec) : vec :=
  match v with
  | x :: ((y :: _) as v') => y - x :: diff v'
  | _ => []
  end.

Definition vadd (a b : vec) : vec := List.map (fun p => fst p + snd p) (combine a b).
Definition vscale (a : Q) (v : vec) : vec := List.map (Qmult a) v.

(** [a * b.t()] of two column vectors. *)
Definition outer (a b : vec) : mat Q :=
  mk (length a) (length b) (fun i j => nth i a 0 * nth j b 0).

(** [v(i) = x]. *)
Fixpoint vec_set (v : vec) (i : nat) (x : Q) : vec :=
  match v, i with
  | [], _ => []
  | _ :: v', O => x :: v'
  | y :: v', S i' => y :: vec_set v' i' x
  end.

(** [arma::approx_equal(a, b, "absdiff", tol)] on two row vectors: the
    sizes agree and every pair of elements has [|x - y| <= tol]. *)
Definition approx_equal_absdiff (a b : vec) (tol : Q) : bool :=
  (length a =? length b)%nat
  && forallb (fun p => Qle_bool (Qabs (fst p - snd p)) tol) (combine a b).

(** The tolerance [0.002] of lines 97 and 121. *)
Definition tol : Q := 2 # 1000.

(** *** cumtrapz (lines 56-82) *)

Definition cumtrapz (X Y : mat Q) : res (mat Q) :=
  if negb (n_rows X =? n_rows Y)%nat || negb (n_cols X =? n_cols Y)%nat
  then Throw (invalid_argument "Arguments 'x' and 'y' must be matrices of the same dimension")
  else
    let transposed := (n_rows X =? 1)%nat in
    let X' := if transposed then t X else X in
    let Y' := if transposed then t Y else Y in
    let n := n_rows X' in
    let m := n_cols X' in
    let C := zeros n m in
    Xhi <- rows X' 1 (usub n 1) ;;
    Xlo <- rows X' 0 (usub n 2) ;;
    Yhi <- rows Y' 1 (usub n 1) ;;
    Ylo <- rows Y' 0 (usub n 2) ;;
    let tmp := map2 Qmult (map2 Qminus Xhi Xlo) (map2 Qplus Yhi Ylo) in
    C1 <- (if (n_rows tmp =? 1)%nat
           then set_row C 1 (scale (1 # 2) tmp)
           else set_rows C 1 (usub n 1) (scale (1 # 2) (cumsum tmp))) ;;
    if transposed then Ok (t C1) else Ok C1.

(** *** Row canonicalization (lines 84-154) *)

(** The loop of [is_smaller] over the columns [ks]. *)
Fixpoint is_smaller_from (A : mat Q) (i j : nat) (ks : list nat) : bool :=
  match ks with
  | [] => false
  | k :: ks' =>
      if Qltb (get A j k) (get A i k) then true
      else if Qltb (get A i k) (get A j k) then false
      else is_smaller_from A i j ks'
  end.

Definition is_smaller (A : mat Q) (i j : nat) : bool :=
  is_smaller_from A i j (seq 0 (n_cols A)).

(** The loop of [find_index] over the rows [rs]. *)
Fixpoint find_index_from (C : mat Q) (rowA : vec) (rs : list nat) : nat :=
  match rs with
  | [] => 0%nat
  | i :: rs' =>
      if approx_equal_absdiff rowA (row_vec C i) tol then i
      else find_index_from C rowA rs'
  end.

Definition find_index (C : mat Q) (rowA : vec) : nat :=
  find_index_from C rowA (seq 0 (n_rows C)).

(** One turn of the loop of lines 116-128: [reps] are the rows
    [0 .. count-1] of [B]. *)
Definition first_seen (reps : list vec) (rowA : vec) : list vec :=
  if existsb (fun rowB => approx_equal_absdiff rowA rowB tol) reps
  then reps
  else reps ++ [rowA].

Definition unique_prefix (A : mat Q) : list vec :=
  fold_left first_seen (List.map (row_vec A) (seq 0 (n_rows A))) [].

(** Exchange of [indices(i)] and [indices(j)] (lines 137-139). *)
Fixpoint upd (l : list nat) (i x : nat) : list nat :=
  match l, i with
  | [], _ => []
  | _ :: l', O => x :: l'
  | y :: l', S i' => y :: upd l' i' x
  end.

Definition swap (indices : list nat) (i j : nat) : list nat :=
  let aux := nth i indices 0%nat in
  upd (upd indices i (nth j indices 0%nat)) j aux.

(** The inner loop of lines 133-141 over [js], with its [break]. *)
Fixpoint tie_inner (B : mat Q) (i : nat) (js : list nat) (indices : list nat) : list nat :=
  match js with
  | [] => indices
  | j :: js' =>
      if Qltb (get B (nth i indices 0%nat) 0) (get B (nth j indices 0%nat) 0)
      then indices
      else tie_inner B i js'
             (if is_smaller B (nth i indices 0%nat) (nth j indices 0%nat)
              then swap indices i j else indices)
  end.

(** The loops of lines 132-142.  [indices.n_elem] is [count >= 1] here,
    so [n_elem - 1] does not wrap.  The reads [indices(i)] and
    [B(indices(i), 0)] stay in range, [indices] holding the row numbers of
    [B] in some order. *)
Definition tie_order (B : mat Q) (indices : list nat) : list nat :=
  let n := length indices in
  fold_left (fun ind i => tie_inner B i (seq (i + 1) (n - (i + 1))) ind)
            (seq 0 (n - 1)) indices.

(** A list of indices covers [0 .. n-1] when it has length [n], every
    one of them occurs in it and nothing else does: what [sort_index]
    returns and what the exchanges of [tie_order] keep. *)
Definition covers (n : nat) (l : list nat) : Prop :=
  length l = n /\ (forall p, (p < n)%nat -> exists k, (k < n)%nat /\ nth k l 0%nat = p) /\
  (forall k, (k < n)%nat -> (nth k l 0%nat < n)%nat).

Section Canonical.

(** [arma::sort_index] on a column: the positions [0 .. n-1] of the
    column, ordered by ascending key.  Armadillo leaves the order of equal
    keys open, so the function is a parameter. *)
Variable sort_index : vec -> list nat.

(** [ic_unique_rows(A)] (lines 113-154).  The rows of [B] beyond
    [count] are never read. *)
Definition ic_unique_rows (A : mat Q) : res (mat Q * list nat) :=
  let reps := unique_prefix A in
  let count := length reps in
  let B0 := mk (n_rows A) (n_cols A) (fun i j => nth j (nth i reps []) 0) in
  B <- rows B0 0 (usub count 1) ;;
  col0 <- col B 0 ;;
  let indices := tie_order B (sort_index col0) in
  let C := mk (n_rows B) (n_cols B) (fun i j => get B (nth i indices 0%nat) j) in
  let ic := List.map (fun i => find_index C (row_vec A i)) (seq 0 (n_rows A)) in
  Ok (C, ic).

End Canonical.

(** *** getcC (lines 165-185) *)

Definition getcC (tgrid : vec) : res (vec * mat Q) :=
  let deltaT := diff tgrid in
  let deltaTp := deltaT ++ [0] in
  let deltaTm := 0 :: deltaT in
  let bm := vscale (1 # 2) (vadd deltaTp deltaTm) in
  let Dm := outer bm bm in
  let m := usub (length deltaT) 1 in
  dm <- vec_elem deltaT m ;;
  let c0 := vscale ((1 # 2) * dm) bm in
  let C0 := scale ((1 # 10) * dm) Dm in
  let step := fun (cC : vec * mat Q) (k : nat) =>
    let bk := vscale (1 # 2)
                (vadd (firstn (k + 2) deltaTm) (firstn (k + 2) deltaTp)
                 ++ repeat 0 (N.to_nat m - k)) in
    let w := (1 # 2) * (nth k deltaT 0 + nth (k + 1) deltaT 0) in
    (vadd (fst cC) (vscale w bk), map2 Qplus (snd cC) (scale w (outer bk bk))) in
  Ok (fold_left step (seq 0 (N.to_nat m)) (c0, C0)).

(** *** wasserstein_regression (lines 210-307) *)

(** Lines 215-219: the checks made on the grid. *)
Definition validate_grid (tgrid : vec) (m : nat) : res unit :=
  if negb (length tgrid =? m)%nat
  then Throw (invalid_argument "Length of t should match number of columns in q")
  else
    t0 <- vec_elem tgrid 0 ;;
    tlast <- vec_elem tgrid (usub (length tgrid) 1) ;;
    if negb (Qeq_bool t0 0) || negb (Qeq_bool tlast 1)
    then Throw (invalid_argument "Input t should be an increasing grid beginning at 0 and ending at 1")
    else Ok tt.

(** [mean(M, 0)]: the row of the column means. *)
Definition col_means (M : mat Q) : mat Q :=
  mk (if (n_rows M =? 0)%nat then 0 else 1)%nat (n_cols M)
     (fun _ j => Qsum (List.map (fun i => get M i j) (seq 0 (n_rows M)))
                 / inject_Z (Z.of_nat (n_rows M))).

Definition vec_min (v : vec) : Q :=
  match v with
  | [] => 0
  | x :: v' => fold_left Qmin v' x
  end.

(** [arma::min(M, 0)]: the minimum of every column; empty when [M] has
    no row. *)
Definition min_cols (M : mat Q) : vec :=
  if (n_rows M =? 0)%nat then []
  else List.map (fun j => vec_min (List.map (fun i => get M i j) (seq 0 (n_rows M))))
                (seq 0 (n_cols M)).

(** [arma::find(v < 0)]. *)
Definition find_negative (v : vec) : list nat :=
  filter (fun i => Qltb (nth i v 0) 0) (seq 0 (length v)).

(** [A + B] with its size check. *)
Definition madd (A B : mat Q) : res (mat Q) :=
  if (n_rows A =? n_rows B)%nat && (n_cols A =? n_cols B)%nat
  then Ok (map2 Qplus A B)
  else Throw (logic_error "addition: incompatible matrix dimensions").

(** Lines 248-255: the matrices of the quadratic program that do not
    depend on the row.  [m >= 2] here, the grid having passed
    [validate_grid], so [m - 1] does not wrap. *)
Definition qp_matrices (c : vec) (C : mat Q) (m : nat) (qdmin : Q)
    : res (mat Q * mat Q * mat Q * mat Q) :=
  top <- join_vert (ones 1 1) (col_of c) ;;
  bottom <- join_horiz (col_of c) C ;;
  D <- join_vert (t top) bottom ;;
  V1 <- join_horiz (zeros m 1) (mneg (eye m m)) ;;
  let v1 := mneg (mk 1 m (fun _ _ => qdmin)) in
  left <- join_horiz (eye (m - 1) (m - 1)) (zeros (m - 1) 1) ;;
  right <- join_horiz (zeros (m - 1) 1) (eye (m - 1) (m - 1)) ;;
  V2 <- join_horiz (zeros (m - 1) 1) (map2 Qminus left right) ;;
  Ok (D, V1, v1, V2).

Definition qp_warning : string :=
  "WARNING: An error has occurred during the quadratic optimization...".

Section Regression.

Variable sort_index : vec -> list nat.

(** [arma::solve(A, B)]; it throws when no solution is found. *)
Variable solve : mat Q -> mat Q -> res (mat Q).

(** [quadprog(D, d, V, v)], the quadratic-program solver the engine
    consumes; a failure of the solver is an exception. *)
Variable quadprog : mat Q -> vec -> mat Q -> mat Q -> res vec.

(** Lines 221-235: canonical rows and the two least-squares fits
    evaluated on them.  [sig] of line 222 is never read. *)
Definition ols_fit (xfit q Q0 xpred : mat Q) : res (mat Q * list nat * mat Q * vec) :=
  let n := n_rows q in
  let xbar := col_means xfit in
  xs <- join_vert xpred xfit ;;
  xs <- join_vert xs xbar ;;
  ' (xall, ic) <- ic_unique_rows sort_index xs ;;
  let r := n_rows xall in
  A <- join_horiz (ones n 1) xfit ;;
  AtA <- mmul (t A) A ;;
  AtQ0 <- mmul (t A) Q0 ;;
  sa <- solve AtA AtQ0 ;;
  ahat <- as_vec sa ;;
  Atq <- mmul (t A) q ;;
  bhat <- solve AtA Atq ;;
  X1 <- join_horiz (ones r 1) xall ;;
  qall <- mmul X1 bhat ;;
  Q0m <- mmul X1 (col_of ahat) ;;
  Q0all <- as_vec Q0m ;;
  Ok (xall, ic, qall, Q0all).

(** Lines 261-266: the linear term [d] and the constraints [V], [v] of
    the quadratic program of a row with quantile-at-zero [ax] and quantile
    density [hx]. *)
Definition qp_instance (V1 v1 V2 : mat Q) (c : vec) (C : mat Q) (ax : Q) (hx : vec)
    : res (vec * mat Q * mat Q) :=
  chx <- mmul (row_of c) (col_of hx) ;;
  Chx <- mmul C (col_of hx) ;;
  below <- madd (col_of (vscale ax c)) Chx ;;
  stacked <- join_vert (mmap (Qplus ax) chx) below ;;
  d <- as_vec (mneg stacked) ;;
  let v2 := row_of (vscale (3 # 2) (List.map Qabs (diff hx))) in
  V22 <- join_vert V2 (mneg V2) ;;
  V <- join_vert V1 V22 ;;
  v22 <- join_horiz v2 v2 ;;
  v <- join_horiz v1 v22 ;;
  Ok (d, V, v).

(** The body of the loop of lines 258-276 for the flagged row [row],
    on the state [(qall, Q0all, log)]; [log] is what has been written to
    [std::cout]. *)
Definition qp_row (D V1 v1 V2 : mat Q) (c : vec) (C : mat Q)
    (state : mat Q * vec * list string) (row : nat)
    : res (mat Q * vec * list string) :=
  let '(qall, Q0all, log) := state in
  ax <- vec_elem Q0all (N.of_nat row) ;;
  let hx := row_vec qall row in
  ' (d, V, v) <- qp_instance V1 v1 V2 c C ax hx ;;
  let tmp0 := repeat 0 (length d) in
  let '(tmp, log') :=
    match quadprog D d V (t v) with
    | Ok x => (x, log)
    | Throw _ => (tmp0, log ++ [qp_warning])
    end in
  tail <- subvec tmp 1 (usub (length tmp) 1) ;;
  qall' <- set_row qall (N.of_nat row) (row_of tail) ;;
  head <- vec_elem tmp 0 ;;
  Ok (qall', vec_set Q0all row head, log').

(** Lines 244-276: the projection of the flagged rows [dec]. *)
Definition project (tgrid : vec) (m : nat) (qdmin : Q) (dec : list nat)
    (qall : mat Q) (Q0all : vec) : res (mat Q * vec * list string) :=
  ' (c, C) <- getcC tgrid ;;
  ' (D, V1, v1, V2) <- qp_matrices c C m qdmin ;;
  foldM (qp_row D V1 v1 V2 c C) dec (qall, Q0all, []).

(** Lines 280-286: the quantile functions, row by row; the value [ct] of
    lines 282-284 is never read. *)
Definition quantile_functions (tgrid : vec) (qall : mat Q) (Q0all : vec) : res (mat Q) :=
  foldM (fun Qall j =>
           qrow <- row qall (N.of_nat j) ;;
           ct <- cumtrapz (row_of tgrid) qrow ;;
           q0 <- vec_elem Q0all (N.of_nat j) ;;
           join_vert Qall (mmap (Qplus q0) ct))
        (seq 0 (n_rows qall)) (mk 0 0 (fun _ _ => 0)).

(** [wasserstein_regression(xfit, q, Q0, xpred, t, qdmin)]; the result
    comes with the warnings written to [std::cout].  The loop over the
    flagged rows runs in sequence, each row being written by its own
    turn.  [1 / qall] is taken in the field of rationals, where the
    inverse of 0 is 0. *)
Definition wasserstein_regression (xfit q Q0 xpred : mat Q) (tgrid : vec) (qdmin : Q)
    : res (regression_struct * list string) :=
  let n := n_rows q in
  let m := n_cols q in
  _ <- validate_grid tgrid m ;;
  let k := n_rows xpred in
  ' (xall, ic, qall, Q0all) <- ols_fit xfit q Q0 xpred ;;
  let dec := find_negative (min_cols (t qall)) in
  ' (qall, Q0all, QP_used, log) <-
    (match dec with
     | [] => Ok (qall, Q0all, 0%Z, [])
     | _ => ' (qall', Q0all', log) <- project tgrid m qdmin dec qall Q0all ;;
            Ok (qall', Q0all', 1%Z, log)
     end) ;;
  Qall <- quantile_functions tgrid qall Q0all ;;
  let fall := mmap Qinv qall in
  ifit <- subvec ic (N.of_nat k) (usub (k + n) 1) ;;
  Qfit <- select_rows Qall ifit ;;
  ipred <- subvec ic 0 (usub k 1) ;;
  Qpred <- select_rows Qall ipred ;;
  qfit <- select_rows qall ifit ;;
  qpred <- select_rows qall ipred ;;
  ffit <- select_rows fall ifit ;;
  fpred <- select_rows fall ipred ;;
  Ok ({| xfit := xfit; xpred := xpred;
         Qfit := Qfit; Qpred := Qpred;
         qfit := qfit; qpred := qpred;
         ffit := ffit; fpred := fpred;
         QP_used := QP_used |}, log).

End Regression.

(** *** Instances of the parameters, for running the model *)

(** A stable [sort_index]: insertion of the indices by ascending key. *)
Fixpoint insert_index (v : vec) (i : nat) (sorted : list nat) : list nat :=
  match sorted with
  | [] => [i]
  | j :: sorted' =>
      if Qltb (nth i v 0) (nth j v 0) then i :: sorted
      else j :: insert_index v i sorted'
  end.

Definition stable_sort_index (v : vec) : list nat :=
  fold_left (fun sorted i => insert_index v i sorted) (seq 0 (length v)) [].

(** [solve] on a 2 x 2 system, by Cramer's rule. *)
Definition solve_2x2 (M B : mat Q) : res (mat Q) :=
  if negb ((n_rows M =? 2)%nat && (n_cols M =? 2)%nat && (n_rows B =? 2)%nat)
  then Throw (runtime_error "solve(): solution not found")
  else
    let a := get M 0 0 in
    let b := get M 0 1 in
    let c := get M 1 0 in
    let d := get M 1 1 in
    let det := a * d - b * c in
    if Qeq_bool det 0
    then Throw (runtime_error "solve(): solution not found")
    else Ok (mk 2 (n_cols B)
                (fun i j => if (i =? 0)%nat
                            then (d * get B 0 j - b * get B 1 j) / det
                            else (a * get B 1 j - c * get B 0 j) / det)).

(** A solver that fails on every program. *)
Definition quadprog_fails (D : mat Q) (d : vec) (V v : mat Q) : res vec :=
  Throw (runtime_error "quadprog: constraints are inconsistent, no solution").

(** The entries of a matrix in lowest terms, row by row. *)
Definition entries (M : mat Q) : list (list Q) :=
  List.map (List.map Qred) (to_rows M).

(** *** Inputs for running the canonicalization *)

(** Three rows in a chain: the third lies within the tolerance of both
    others, which are further apart. *)
Definition chain_rows : mat Q := of_rows [[0]; [3 # 1000]; [15 # 10000]].

(** Three rows in a fan: the second and the third lie within the
    tolerance of the first, on either side of it. *)
Definition fan_rows : mat Q := of_rows [[0]; [15 # 10000]; [-15 # 10000]].

(** Two canonical rows and a row that matches neither. *)
Definition two_rows : mat Q := of_rows [[0]; [1]].
Definition far_row : vec := [5].

(** *** Inputs for running the regression

    One covariate and two fit rows, [x = 0] and [x = 1], on the grid
    [[0, 1/2, 1]]. *)

Definition fit_x : mat Q := of_rows [[0]; [1]].
Definition zero_Q0 : mat Q := of_rows [[0]; [0]].
Definition grid3 : vec := [0; 1 # 2; 1].
Definition small_qdmin : Q := 1 # 1000000.

(** Scenario B: quantile densities [1 + x], predicted at [x = 1/2]. *)
Definition rising_q : mat Q := of_rows [[1; 1; 1]; [2; 2; 2]].
Definition pred_half : mat Q := of_rows [[1 # 2]].

(** Scenario C: quantile densities [2 - x], predicted at [x = 3], where
    the least-squares line is at [-1]. *)
Definition falling_q : mat Q := of_rows [[2; 2; 2]; [1; 1; 1]].
Definition pred_far : mat Q := of_rows [[3]].

(** A grid from 0 to 1 that is not increasing, with four columns of
    quantile densities. *)
Definition unsorted_grid : vec := [0; 3 # 4; 1 # 4; 1].
Definition rising_q4 : mat Q := of_rows [[1; 1; 1; 1]; [2; 2; 2; 2]].

Definition no_result : regression_struct :=
  {| xfit := zeros 0 0; xpred := zeros 0 0; Qfit := zeros 0 0; Qpred := zeros 0 0;
     qfit := zeros 0 0; qpred := zeros 0 0; ffit := zeros 0 0; fpred := zeros 0 0;
     QP_used := 0 |}.

(** The intermediate values of scenario C: the least-squares predictions
    on the canonical rows and the quadratic program of the grid. *)
Definition scenario_c_ols : mat Q * vec :=
  Eval vm_compute in
    match ols_fit stable_sort_index solve_2x2 fit_x falling_q zero_Q0 pred_far with
    | Ok (_, _, qall, Q0all) => (qall, Q0all)
    | Throw _ => (zeros 0 0, [])
    end.

Definition scenario_c_cC : vec * mat Q :=
  Eval vm_compute in
    match getcC grid3 with
    | Ok cC => cC
    | Throw _ => ([], zeros 0 0)
    end.

Definition scenario_c_qp : mat Q * mat Q * mat Q * mat Q :=
  Eval vm_compute in
    match qp_matrices (fst scenario_c_cC) (snd scenario_c_cC) 3 small_qdmin with
    | Ok M => M
    | Throw _ => (zeros 0 0, zeros 0 0, zeros 0 0, zeros 0 0)
    end.

(** The result of scenario B. *)
Definition scenario_b_result : regression_struct :=
  Eval vm_compute in
    match wasserstein_regression stable_sort_index solve_2x2 quadprog_fails
            fit_x rising_q zero_Q0 pred_half grid3 small_qdmin with
    | Ok (r, _) => r
    | Throw _ => no_result
    end.

(** *** Further definitions and inputs *)

(** Lines 68-76 of [cumtrapz], on the operands in column orientation. *)
Definition cumtrapz_columns (X Y : mat Q) : res (mat Q) :=
  let n := n_rows X in
  let m := n_cols X in
  let C := zeros n m in
  Xhi <- rows X 1 (usub n 1) ;;
  Xlo <- rows X 0 (usub n 2) ;;
  Yhi <- rows Y 1 (usub n 1) ;;
  Ylo <- rows Y 0 (usub n 2) ;;
  let tmp := map2 Qmult (map2 Qminus Xhi Xlo) (map2 Qplus Yhi Ylo) in
  if (n_rows tmp =? 1)%nat
  then set_row C 1 (scale (1 # 2) tmp)
  else set_rows C 1 (usub n 1) (scale (1 # 2) (cumsum tmp)).

(** The area of the trapezoid between the grid points [k] and [k+1] of
    column [j]. *)
Definition trapezoid_area (X Y : mat Q) (k j : nat) : Q :=
  (1 # 2) * ((get X (S k) j - get X k j) * (get Y (S k) j + get Y k j)).

(** A row grid and a row of values on it. *)
Definition row_grid : mat Q := of_rows [[0; 1 # 2; 1]].
Definition row_values : mat Q := of_rows [[2; 4; 2]].

(** Two columns on a column grid (the same grid in both columns). *)
Definition column_grid : mat Q := of_rows [[0; 0]; [1 # 2; 1 # 2]; [1; 1]].
Definition column_values : mat Q := of_rows [[2; 1]; [4; 1]; [2; 3]].

(** A single point. *)
Definition one_point : mat Q := of_rows [[1]].

(** A matrix with two equal rows. *)
Definition tied_rows : mat Q := of_rows [[1; 2]; [1; 3]; [1; 2]].

(** A solver that returns the same vector for every program. *)
Definition quadprog_returns (x : vec) (D : mat Q) (d : vec) (V v : mat Q) : res vec :=
  Ok x.

(** What the loop of lines 280-286 has built after [j] turns. *)
Definition integrated (tgrid : vec) (qall : mat Q) (Q0all : vec) (j : nat) (Qall : mat Q) : Prop :=
  n_rows Qall = j /\
  ((1 <= j)%nat -> n_cols Qall = length tgrid) /\
  (j = 0%nat -> n_cols Qall = 0%nat) /\
  forall r, (r < j)%nat ->
    get Qall r 0 == nth r Q0all 0 /\
    forall k, (S k < length tgrid)%nat ->
      get Qall r (S k)
      == get Qall r k
         + (1 # 2) * ((nth (S k) tgrid 0 - nth k tgrid 0) * (get qall r (S k) + get qall r k)).

(** No two of the rows kept by the first loop are within the tolerance of
    one another. *)
Definition apart (reps : list vec) : Prop :=
  forall p q, (p < q < length reps)%nat ->
    approx_equal_absdiff (nth q reps []) (nth p reps []) tol = false.

(** A matrix without rows and a matrix without columns. *)
Definition no_rows : mat Q := mk 0 2 (fun _ _ => 0).
Definition no_columns : mat Q := mk 2 0 (fun _ _ => 0).

(** A grid of three points that starts after 0. *)
Definition shifted_grid : vec := [1 # 4; 1 # 2; 1].

End Wasserstein.

(** * Properties *)

(** ** The result monad and loops *)

Lemma mapM_total {A B : Type} (f : A -> res B) (g : A -> B) (l : list A) :
  (forall a, In a l -> f a = Ok (g a)) -> mapM f l = Ok (map g l).
Proof.
  induction l as [|a l IH]; intros H; cbn; [reflexivity|].
  rewrite (H a (or_introl eq_refl)); cbn.
  rewrite IH by (intros; apply H; now right). reflexivity.
Qed.

Lemma nth_map_seq_d {B : Type} (f : nat -> B) (r i s : nat) (d : B) :
  i < r -> nth i (map f (seq s r)) d = f (s + i).
Proof.
  intros Hi. rewrite (nth_indep _ d (f 0)) by (rewrite length_map, length_seq; exact Hi).
  rewrite map_nth, seq_nth by exact Hi. reflexivity.
Qed.

(** ** Matrices *)

Module ArmaFacts.
Import Arma.

Section Dense.
Context {A : Type} {zeroA : Zero A}.

Lemma nth_map_seq (f : nat -> A) (r i s : nat) :
  i < r -> nth i (map f (seq s r)) zero = f (s + i).
Proof. apply nth_map_seq_d. Qed.

Lemma nth_flat_columns (f : nat -> nat -> A) (r c s i j : nat) :
  i < r -> j < c ->
  nth (i + j * r) (flat_map (fun j => map (fun i => f i j) (seq 0 r)) (seq s c)) zero
  = f i (s + j).
Proof.
  intros Hi. revert s j. induction c as [|c IH]; intros s j Hj; [inversion Hj|].
  cbn [seq flat_map]. destruct j as [|j].
  - rewrite Nat.mul_0_l, Nat.add_0_r, app_nth1 by (rewrite length_map, length_seq; exact Hi).
    rewrite nth_map_seq by exact Hi. f_equal. lia.
  - rewrite app_nth2 by (rewrite length_map, length_seq; cbn; lia).
    rewrite length_map, length_seq.
    replace (i + S j * r - r) with (i + j * r) by (cbn; lia).
    rewrite IH by lia. f_equal. lia.
Qed.

Lemma get_mk (f : nat -> nat -> A) (r c i j : nat) :
  i < r -> j < c -> get (mk r c f) i j = f i j.
Proof.
  intros Hi Hj. unfold get, mk. cbn [n_rows mem].
  now rewrite nth_flat_columns.
Qed.

Lemma mk_ext (f g : nat -> nat -> A) (r c : nat) :
  (forall i j, i < r -> j < c -> f i j = g i j) -> mk r c f = mk r c g.
Proof.
  intros H. unfold mk. f_equal.
  assert (G : forall l, (forall j, In j l -> j < c) ->
            flat_map (fun j => map (fun i => f i j) (seq 0 r)) l
            = flat_map (fun j => map (fun i => g i j) (seq 0 r)) l).
  { induction l as [|j l IH]; intros Hl; cbn; [reflexivity|].
    rewrite IH by (intros; apply Hl; now right). f_equal.
    apply map_ext_in. intros i Hi. apply in_seq in Hi.
    apply H; [lia|apply Hl; now left]. }
  apply G. intros j Hj. apply in_seq in Hj. lia.
Qed.

Lemma length_row_vec (M : mat A) (i : nat) : length (row_vec M i) = n_cols M.
Proof. unfold row_vec. now rewrite length_map, length_seq. Qed.

Lemma map_nth_seq {B : Type} (f : A -> B) (l : list A) :
  map (fun i => f (nth i l zero)) (seq 0 (length l)) = map f l.
Proof.
  induction l as [|a l IH]; [reflexivity|].
  cbn [length seq map nth]. f_equal.
  rewrite <- seq_shift, map_map. exact IH.
Qed.

Lemma elem_single (v : A) : elem (mk 1 1 (fun _ _ => v)) 0 = Ok v.
Proof. reflexivity. Qed.

Lemma fill_loop_total (r c : nat) (f : nat -> nat -> res A) (g : nat -> nat -> A) :
  (forall i j, i < r -> j < c -> f i j = Ok (g i j)) ->
  fill_loop r c f = Ok (mk r c g).
Proof.
  intros H. unfold fill_loop.
  rewrite (mapM_total _ (fun i => map (fun j => g i j) (seq 0 c))).
  - cbn [bind]. f_equal. apply mk_ext. intros i j Hi Hj.
    rewrite (nth_indep _ [] (map (fun j => g 0 j) (seq 0 c)))
      by (rewrite length_map, length_seq; exact Hi).
    rewrite (map_nth (fun i => map (fun j => g i j) (seq 0 c))), seq_nth by exact Hi.
    now rewrite nth_map_seq.
  - intros i Hi. apply in_seq in Hi. apply mapM_total.
    intros j Hj. apply in_seq in Hj. apply H; lia.
Qed.

Lemma vec_select_total (v : list A) (idx : list nat) :
  (forall i, In i idx -> i < length v) ->
  vec_select v idx = Ok (map (fun i => nth i v zero) idx).
Proof.
  intros H. unfold vec_select. apply mapM_total. intros i Hi.
  destruct (nth_error v i) as [a|] eqn:E.
  - now rewrite (nth_error_nth _ _ _ E).
  - apply nth_error_None in E. specialize (H i Hi). lia.
Qed.

End Dense.

Lemma usub_le (a b : nat) : b <= a -> usub a b = N.of_nat (a - b).
Proof. intros H. unfold usub. now rewrite (proj2 (Nat.leb_le b a) H). Qed.

Lemma rows_ok {A : Type} {zeroA : Zero A} (M : mat A) (a b : nat) :
  (a <= b)%nat -> (b < n_rows M)%nat ->
  rows M (N.of_nat a) (N.of_nat b)
  = Ok (mk (b - a + 1) (n_cols M) (fun i j => get M (a + i) j)).
Proof.
  intros Hab Hb. unfold rows.
  replace (N.of_nat b <? N.of_nat a)%N with false by (symmetry; apply N.ltb_ge; lia).
  replace (N.of_nat (n_rows M) <=? N.of_nat b)%N with false by (symmetry; apply N.leb_gt; lia).
  cbn [orb]. now rewrite !Nat2N.id.
Qed.

Lemma row_ok {A : Type} {zeroA : Zero A} (M : mat A) (a : nat) :
  (a < n_rows M)%nat ->
  row M (N.of_nat a) = Ok (mk 1 (n_cols M) (fun _ j => get M a j)).
Proof.
  intros Ha. unfold row.
  replace (N.of_nat (n_rows M) <=? N.of_nat a)%N with false by (symmetry; apply N.leb_gt; lia).
  now rewrite Nat2N.id.
Qed.

Lemma set_row_ok {A : Type} {zeroA : Zero A} (M V : mat A) (a : nat) :
  (a < n_rows M)%nat -> n_rows V = 1%nat -> n_cols V = n_cols M ->
  set_row M (N.of_nat a) V
  = Ok (mk (n_rows M) (n_cols M)
           (fun k j => if (k =? a)%nat then get V 0 j else get M k j)).
Proof.
  intros Ha Hr Hc. unfold set_row.
  replace (N.of_nat (n_rows M) <=? N.of_nat a)%N with false by (symmetry; apply N.leb_gt; lia).
  rewrite Hr, Hc, !Nat.eqb_refl. cbn [andb negb]. now rewrite Nat2N.id.
Qed.

Lemma set_rows_ok {A : Type} {zeroA : Zero A} (M V : mat A) (a b : nat) :
  (a <= b)%nat -> (b < n_rows M)%nat ->
  n_rows V = (b - a + 1)%nat -> n_cols V = n_cols M ->
  set_rows M (N.of_nat a) (N.of_nat b) V
  = Ok (mk (n_rows M) (n_cols M)
           (fun i j => if ((a <=? i) && (i <=? b))%nat
                       then get V (i - a) j else get M i j)).
Proof.
  intros Hab Hb Hr Hc. unfold set_rows.
  replace (N.of_nat b <? N.of_nat a)%N with false by (symmetry; apply N.ltb_ge; lia).
  replace (N.of_nat (n_rows M) <=? N.of_nat b)%N with false by (symmetry; apply N.leb_gt; lia).
  cbn [orb]. rewrite !Nat2N.id, Hr, Hc, !Nat.eqb_refl. reflexivity.
Qed.

Lemma col_ok {A : Type} {zeroA : Zero A} (M : mat A) (l : nat) :
  (l < n_cols M)%nat -> col M l = Ok (map (fun i => get M i l) (seq 0 (n_rows M))).
Proof. intros H. unfold col. now rewrite (proj2 (Nat.ltb_lt _ _) H). Qed.

(** Every entry of an index matrix that is read lies below [n], when the
    whole memory does and [n] is positive. *)
Lemma get_below (M : mat nat) (n i j : nat) :
  0 < n -> forallb (fun x => x <? n) (mem M) = true -> get M i j < n.
Proof.
  intros Hn H. unfold get.
  destruct (Nat.lt_ge_cases (i + j * n_rows M) (length (mem M))) as [Hlt|Hge].
  - rewrite forallb_forall in H. apply Nat.ltb_lt, H, nth_In, Hlt.
  - rewrite nth_overflow by exact Hge. exact Hn.
Qed.

End ArmaFacts.

(** ** NadarayaRegression.h *)

Module NadarayaFacts.
Import Arma ArmaFacts Nadaraya.
Local Open Scope R_scope.

Lemma Rsum_map_ext {B : Type} (f g : B -> R) (l : list B) :
  (forall b, In b l -> f b = g b) -> Rsum (map f l) = Rsum (map g l).
Proof. intros H. f_equal. now apply map_ext_in. Qed.

(** On two columns of [m >= 2] points, lines 52-62 return the trapezoid
    rule as a 1 x 1 matrix. *)
Lemma trapecio_columns_rule (X Y : mat R) (m : nat) :
  (2 <= m)%nat -> n_rows X = m -> n_cols X = 1%nat ->
  n_rows Y = m -> n_cols Y = 1%nat ->
  trapecio_columns X Y
  = Ok (mk 1 1 (fun _ _ =>
          trapezoid_rule (fun k => get X k 0) (fun k => get Y k 0) m)).
Proof.
  intros Hm HrX HcX HrY HcY. unfold trapecio_columns, zeros.
  rewrite HrX, !usub_le by lia.
  change 1%N with (N.of_nat 1). change 0%N with (N.of_nat 0).
  rewrite !rows_ok by lia. cbn [bind].
  rewrite HcX, HcY.
  cbn [map2 n_rows n_cols mk zeros].
  destruct (Nat.eqb_spec (m - 1 - 1 + 1) 1) as [E|E].
  - assert (E2 : m = 2%nat) by lia. rewrite E2. clear E.
    rewrite set_row_ok by (cbn; lia). cbn [bind n_rows n_cols mk mmap map2].
    rewrite row_ok by (cbn; lia). cbn [n_rows n_cols mk].
    f_equal. apply mk_ext. intros i j Hi Hj.
    assert (j = 0%nat) by lia. subst j.
    rewrite get_mk by lia. cbn [Nat.eqb Nat.sub].
    unfold mmap, map2. cbn [n_rows n_cols mk Nat.sub Nat.add].
    rewrite !get_mk by lia.
    unfold trapezoid_rule. cbn. lra.
  - rewrite set_rows_ok by (cbn; lia). cbn [bind n_rows n_cols mk mmap map2 cumsum].
    rewrite row_ok by (cbn; lia). cbn [n_rows n_cols mk].
    f_equal. apply mk_ext. intros i j Hi Hj.
    assert (j = 0%nat) by lia. subst j.
    rewrite get_mk by lia.
    replace ((1 <=? m - 1) && (m - 1 <=? m - 1))%nat with true
      by (symmetry; apply andb_true_intro; split; apply Nat.leb_le; lia).
    unfold mmap, cumsum, map2. cbn [n_rows n_cols mk].
    rewrite !get_mk by lia.
    unfold trapezoid_rule. f_equal.
    replace (S (m - 1 - 1)) with (m - 1)%nat by lia.
    apply Rsum_map_ext. intros k Hk. apply in_seq in Hk.
    rewrite !get_mk by lia. cbn [Nat.add]. reflexivity.
Qed.

Lemma trapezoid_rule_ext (x x' y y' : nat -> R) (m : nat) :
  (forall k, (k < m)%nat -> x k = x' k) ->
  (forall k, (k < m)%nat -> y k = y' k) ->
  trapezoid_rule x y m = trapezoid_rule x' y' m.
Proof.
  intros Hx Hy. unfold trapezoid_rule. f_equal.
  apply Rsum_map_ext. intros k Hk. apply in_seq in Hk.
  rewrite (Hx k), (Hx (S k)), (Hy k), (Hy (S k)) by lia. reflexivity.
Qed.

Lemma get_column (M : mat R) (k : nat) : get M k 0 = lin M k.
Proof. unfold get, lin. now rewrite Nat.mul_0_l, Nat.add_0_r. Qed.

Lemma get_row (M : mat R) (k : nat) : n_rows M = 1%nat -> get M 0 k = lin M k.
Proof. intros H. unfold get, lin. rewrite H. f_equal. lia. Qed.

(** [trapecio] on a column or a row of [m >= 2] points. *)
Lemma trapecio_vector_rule (X Y : mat R) (m : nat) :
  (2 <= m)%nat ->
  (n_rows X = m /\ n_cols X = 1%nat) \/ (n_rows X = 1%nat /\ n_cols X = m) ->
  n_rows Y = n_rows X -> n_cols Y = n_cols X ->
  trapecio X Y = Ok (mk 1 1 (fun _ _ => trapezoid_rule (lin X) (lin Y) m)).
Proof.
  intros Hm Hshape HrY HcY. unfold trapecio.
  rewrite HrY, HcY, !Nat.eqb_refl. cbn [negb orb].
  destruct Hshape as [[Hr Hc]|[Hr Hc]].
  - rewrite Hc. cbn [Nat.eqb].
    rewrite (trapecio_columns_rule X Y Hm) by congruence.
    f_equal. apply mk_ext. intros _ _ _ _.
    apply trapezoid_rule_ext; intros; apply get_column.
  - replace (n_cols X =? 1)%nat with false by (symmetry; apply Nat.eqb_neq; lia).
    rewrite (trapecio_columns_rule (t X) (t Y) Hm) by (cbn; congruence).
    f_equal. apply mk_ext. intros _ _ _ _.
    apply trapezoid_rule_ext; intros k Hk; unfold t;
      (rewrite get_mk by lia); apply get_row; congruence.
Qed.

(** *** Distances *)

Lemma length_vsub (a b : vec) : length a = length b -> length (vsub a b) = length a.
Proof.
  revert b; induction a as [|x a IH]; intros [|y b] H; cbn in *; try reflexivity; try discriminate.
  f_equal. apply IH. congruence.
Qed.

Lemma length_schur (a b : vec) : length a = length b -> length (schur a b) = length a.
Proof.
  revert b; induction a as [|x a IH]; intros [|y b] H; cbn in *; try reflexivity; try discriminate.
  f_equal. apply IH. congruence.
Qed.

Lemma sqdiff_sym (a b : vec) :
  schur (vsub a b) (vsub a b) = schur (vsub b a) (vsub b a).
Proof.
  revert b; induction a as [|x a IH]; intros [|y b]; cbn; try reflexivity.
  f_equal; [ring|apply IH].
Qed.

Lemma sqdiff_self (a : vec) (k : nat) : nth k (schur (vsub a a) (vsub a a)) 0 = 0.
Proof.
  revert k; induction a as [|x a IH]; intros [|k]; cbn; try reflexivity; [ring|apply IH].
Qed.

Lemma lin_col_of (v : vec) (k : nat) : lin (col_of v) k = nth k v 0.
Proof.
  unfold lin, col_of, mk. cbn [mem seq flat_map]. rewrite app_nil_r.
  destruct (Nat.lt_ge_cases k (length v)) as [Hlt|Hge].
  - exact (nth_map_seq (fun i => nth i v 0) 0 Hlt).
  - rewrite !nth_overflow; [reflexivity|exact Hge|].
    now rewrite length_map, length_seq.
Qed.

Lemma Rsum_zero {B : Type} (f : B -> R) (l : list B) :
  (forall b, In b l -> f b = 0) -> Rsum (map f l) = 0.
Proof.
  induction l as [|b l IH]; intros H; [reflexivity|].
  change (f b + Rsum (map f l) = 0).
  rewrite (H b (or_introl eq_refl)), IH by (intros; apply H; now right). ring.
Qed.

Lemma trapezoid_rule_zero (x y : nat -> R) (m : nat) :
  (forall k, y k = 0) -> trapezoid_rule x y m = 0.
Proof.
  intros Hy. unfold trapezoid_rule. rewrite Rsum_zero; [ring|].
  intros k _. rewrite !Hy. ring.
Qed.

(** On a column grid of [m >= 2] points matching the curves,
    [eucdistance1] fills the whole matrix. *)
Lemma eucdistance1_total (X tt : mat R) :
  n_cols tt = 1%nat -> n_rows tt = n_cols X -> (2 <= n_cols X)%nat ->
  eucdistance1 X tt
  = Ok (mk (n_rows X) (n_rows X)
           (fun i j => curve_distance tt (row_vec X i) (row_vec X j) (n_cols X))).
Proof.
  intros Hc Hr Hm. unfold eucdistance1. apply fill_loop_total.
  intros i j Hi Hj.
  assert (Hlen : length (schur (vsub (row_vec X i) (row_vec X j))
                               (vsub (row_vec X i) (row_vec X j))) = n_cols X).
  { rewrite length_schur by reflexivity.
    rewrite length_vsub by (now rewrite !length_row_vec).
    apply length_row_vec. }
  rewrite (@trapecio_vector_rule tt _ (n_cols X)); try assumption.
  - cbn [bind]. rewrite elem_single. reflexivity.
  - left. split; assumption.
  - unfold sqdiff_col, col_of. cbn [n_rows mk]. congruence.
  - unfold sqdiff_col, col_of. cbn [n_cols mk]. congruence.
Qed.

(** *** Kernel weights *)

Lemma kernel_weight_pos (d h : R) : 0 < kernel_weight d h.
Proof.
  unfold kernel_weight. apply Rmult_lt_0_compat; [|apply exp_pos].
  apply Rdiv_lt_0_compat; [lra|].
  apply sqrt_lt_R0. pose proof PI_RGT_0. lra.
Qed.

Lemma gaussiankernelinicial_map (d : vec) (h : R) :
  gaussiankernelinicial d h = map (fun x => kernel_weight x h) d.
Proof. reflexivity. Qed.

Lemma Rsum_pos (v : vec) : v <> [] -> Forall (fun w => 0 < w) v -> 0 < Rsum v.
Proof.
  intros Hne Hall. destruct v as [|w v]; [congruence|].
  inversion Hall as [|? ? Hw Hv]; subst. clear Hne Hall.
  assert (0 <= Rsum v).
  { clear Hw. induction Hv as [|x v Hx _ IH]; [cbn; lra|].
    change (0 <= x + Rsum v). lra. }
  change (0 < w + Rsum v). lra.
Qed.

(** The sum of the weights of a non-empty vector of distances is
    positive: the ratios of lines 217, 239 and 304 divide by it. *)
Lemma nw_denominator_pos (d : vec) (h : R) : d <> [] -> 0 < nw_denominator d h.
Proof.
  intros Hne. unfold nw_denominator. rewrite gaussiankernelinicial_map.
  apply Rsum_pos.
  - destruct d; [congruence|discriminate].
  - apply Forall_forall. intros w Hw. apply in_map_iff in Hw.
    destruct Hw as [x [<- _]]. apply kernel_weight_pos.
Qed.

(** *** Folds *)

Lemma schur_map {B : Type} (f g : B -> R) (l : list B) :
  schur (map f l) (map g l) = map (fun b => f b * g b) l.
Proof. induction l as [|b l IH]; cbn; [reflexivity|now rewrite IH]. Qed.

Lemma vsub_map {B : Type} (f g : B -> R) (l : list B) :
  vsub (map f l) (map g l) = map (fun b => f b - g b) l.
Proof. induction l as [|b l IH]; cbn; [reflexivity|now rewrite IH]. Qed.

Lemma fold_column_below (indices : mat nat) (n l i : nat) :
  (0 < n)%nat -> forallb (fun x => x <? n)%nat (mem indices) = true ->
  In i (fold_column indices l) -> (i < n)%nat.
Proof.
  intros Hn H Hi. unfold fold_column in Hi. apply in_map_iff in Hi.
  destruct Hi as [k [<- _]]. now apply get_below.
Qed.

Lemma forallb_below (idx : list nat) (n : nat) :
  (forall i, In i idx -> (i < n)%nat) -> forallb (fun i => i <? n)%nat idx = true.
Proof. intros H. apply forallb_forall. intros i Hi. apply Nat.ltb_lt, H, Hi. Qed.

(** The row of the sliced distance matrix that line 215 (and 302) reads. *)
Lemma sliced_row (D : mat R) (idx1 idx2 : list nat) (i : nat) :
  (forall k, In k idx1 -> (k < n_cols D)%nat) -> (i < length idx2)%nat ->
  row_vec (mk (length idx2) (length idx1)
              (fun r c => get (mk (length idx2) (n_cols D)
                                  (fun r' c' => get D (nth r' idx2 0%nat) c'))
                              r (nth c idx1 0%nat))) i
  = map (fun k => get D (nth i idx2 0%nat) k) idx1.
Proof.
  intros H1 Hi. unfold row_vec. cbn [n_cols mk].
  rewrite <- (map_nth_seq (fun k => get D (nth i idx2 0%nat) k) idx1).
  apply map_ext_in. intros c Hc. apply in_seq in Hc.
  rewrite !get_mk; try lia; [reflexivity|].
  apply H1, nth_In. lia.
Qed.

Lemma nw_ratio_fold (D : mat R) (Y : vec) (h : R) (idx1 : list nat) (v : nat) :
  nw_ratio (map (fun k => get D v k) idx1) (map (fun k => nth k Y 0) idx1) h
  = cv_prediction D Y h idx1 v.
Proof.
  unfold nw_ratio, nw_denominator, cv_prediction.
  rewrite gaussiankernelinicial_map, map_map, schur_map. reflexivity.
Qed.

Section Fold.
Variables (D : mat R) (Y hs : vec) (indices1 indices2 : mat nat) (n l : nat).
Hypothesis Hn : (0 < n)%nat.
Hypothesis HY : length Y = n.
Hypothesis HD : n_rows D = n /\ n_cols D = n.
Hypothesis H1 : forallb (fun x => x <? n)%nat (mem indices1) = true.
Hypothesis H2 : forallb (fun x => x <? n)%nat (mem indices2) = true.
Hypothesis Hl1 : (l < n_cols indices1)%nat.
Hypothesis Hl2 : (l < n_cols indices2)%nat.

Let idx1 := fold_column indices1 l.
Let idx2 := fold_column indices2 l.

Lemma fold_predictions_entry (i j : nat) :
  (i < n_rows indices2)%nat -> (j < length hs)%nat ->
  get (fold_predictions
         (mk (length idx2) (length idx1)
             (fun r c => get (mk (length idx2) (n_cols D)
                                 (fun r' c' => get D (nth r' idx2 0%nat) c'))
                             r (nth c idx1 0%nat)))
         (map (fun k => nth k Y 0) idx1) hs) i j
  = cv_prediction D Y (nth j hs 0) idx1 (nth i idx2 0%nat).
Proof.
  intros Hi Hj.
  assert (Hlen2 : length idx2 = n_rows indices2)
    by (unfold idx2, fold_column; now rewrite length_map, length_seq).
  unfold fold_predictions. cbn [n_rows mk]. rewrite get_mk by lia.
  rewrite sliced_row; [apply nw_ratio_fold| |lia].
  intros k Hk. destruct HD as [_ ->]. exact (@fold_column_below indices1 n l k Hn H1 Hk).
Qed.

Lemma prediction_fold_total :
  prediction_fold D Y hs indices1 indices2 l
  = Ok (mk (n_rows indices2) (length hs)
           (fun i j => cv_prediction D Y (nth j hs 0) idx1 (nth i idx2 0%nat))).
Proof.
  assert (Hlen2 : length idx2 = n_rows indices2)
    by (unfold idx2, fold_column; now rewrite length_map, length_seq).
  unfold prediction_fold.
  rewrite !col_ok by assumption. cbn [bind]. fold (fold_column indices1 l) (fold_column indices2 l).
  fold idx1 idx2.
  rewrite (vec_select_total Y idx1)
    by (intros i Hi; rewrite HY; exact (@fold_column_below indices1 n l i Hn H1 Hi)).
  cbn [bind]. unfold select_rows.
  rewrite forallb_below
    by (intros i Hi; destruct HD as [-> _]; exact (@fold_column_below indices2 n l i Hn H2 Hi)).
  cbn [bind]. unfold select_cols. cbn [n_cols n_rows mk].
  rewrite forallb_below
    by (intros i Hi; destruct HD as [_ ->]; exact (@fold_column_below indices1 n l i Hn H1 Hi)).
  cbn [bind]. f_equal.
  unfold fold_predictions at 1. cbn [n_rows mk]. rewrite <- Hlen2.
  apply mk_ext. intros i j Hi Hj. rewrite Hlen2 in Hi.
  pose proof (fold_predictions_entry Hi Hj) as E.
  unfold fold_predictions in E. cbn [n_rows mk] in E.
  rewrite get_mk in E by lia. exact E.
Qed.

Hypothesis Hvalid : (1 <= n_rows indices2)%nat.

Lemma validation_column_total :
  validation_column D Y hs indices1 indices2 l
  = Ok (map (fun j => cv_sse D Y (nth j hs 0) idx1 idx2) (seq 0 (length hs))).
Proof.
  assert (Hlen2 : length idx2 = n_rows indices2)
    by (unfold idx2, fold_column; now rewrite length_map, length_seq).
  unfold validation_column.
  rewrite !col_ok by assumption. cbn [bind]. fold (fold_column indices1 l) (fold_column indices2 l).
  fold idx1 idx2.
  rewrite (vec_select_total Y idx1)
    by (intros i Hi; rewrite HY; exact (@fold_column_below indices1 n l i Hn H1 Hi)).
  rewrite (vec_select_total Y idx2)
    by (intros i Hi; rewrite HY; exact (@fold_column_below indices2 n l i Hn H2 Hi)).
  cbn [bind]. unfold select_rows.
  rewrite forallb_below
    by (intros i Hi; destruct HD as [-> _]; exact (@fold_column_below indices2 n l i Hn H2 Hi)).
  cbn [bind]. unfold select_cols. cbn [n_cols n_rows mk].
  rewrite forallb_below
    by (intros i Hi; destruct HD as [_ ->]; exact (@fold_column_below indices1 n l i Hn H1 Hi)).
  cbn [bind].
  destruct (mean0 (map (fun i => nth i Y zero) idx2)) as [mediax|e] eqn:Em.
  2:{ unfold mean0 in Em. destruct idx2 as [|? ?]; cbn in Hlen2, Em; [lia|discriminate]. }
  cbn [bind]. f_equal. apply map_ext_in. intros j Hj. apply in_seq in Hj.
  unfold cv_sse.
  match goal with |- context [map ?f (seq 0 (n_rows indices2))] =>
    replace (map f (seq 0 (n_rows indices2)))
      with (map (fun v => cv_prediction D Y (nth j hs 0) idx1 v) idx2)
  end.
  2:{ pose proof (map_nth_seq (fun v => cv_prediction D Y (nth j hs 0) idx1 v) idx2) as E.
      rewrite Hlen2 in E. rewrite <- E.
      apply map_ext_in. intros i Hi. apply in_seq in Hi. symmetry.
      apply fold_predictions_entry; lia. }
  unfold zero, zero_R. rewrite vsub_map, schur_map. reflexivity.
Qed.

End Fold.

Lemma cv_input_ok_spec (X tt : mat R) (Y : vec) (indices1 indices2 : mat nat) :
  cv_input_ok X tt Y indices1 indices2 = true ->
  n_cols tt = 1%nat /\ n_rows tt = n_cols X /\ (2 <= n_cols X)%nat /\
  (1 <= n_rows X)%nat /\ length Y = n_rows X /\
  n_cols indices2 = n_cols indices1 /\
  (n_cols indices1 = 0%nat \/ (1 <= n_rows indices2)%nat) /\
  forallb (fun i => i <? n_rows X)%nat (mem indices1) = true /\
  forallb (fun i => i <? n_rows X)%nat (mem indices2) = true.
Proof.
  unfold cv_input_ok. intros H.
  rewrite !andb_true_iff, orb_true_iff, !Nat.eqb_eq, !Nat.leb_le in H.
  tauto.
Qed.

Lemma prediction_input_ok_spec (X tt : mat R) (Y : vec) (indices1 indices2 : mat nat) :
  prediction_input_ok X tt Y indices1 indices2 = true ->
  n_cols tt = 1%nat /\ n_rows tt = n_cols X /\ (2 <= n_cols X)%nat /\
  (1 <= n_rows X)%nat /\ length Y = n_rows X /\
  n_cols indices2 = n_cols indices1 /\
  forallb (fun i => i <? n_rows X)%nat (mem indices1) = true /\
  forallb (fun i => i <? n_rows X)%nat (mem indices2) = true.
Proof.
  unfold prediction_input_ok. intros H.
  rewrite !andb_true_iff, !Nat.eqb_eq, !Nat.leb_le in H.
  tauto.
Qed.

Lemma lin_t_column (X : mat R) (k : nat) :
  n_cols X = 1%nat -> (k < n_rows X)%nat -> lin (t X) k = lin X k.
Proof.
  intros Hc Hk. rewrite <- (@get_row (t X) k) by exact Hc.
  unfold t. rewrite get_mk by lia. apply get_column.
Qed.

Lemma lin_t_row (X : mat R) (k : nat) :
  n_rows X = 1%nat -> (k < n_cols X)%nat -> lin (t X) k = lin X k.
Proof.
  intros Hr Hk. rewrite <- (get_column (t X) k).
  unfold t. rewrite get_mk by lia. now apply get_row.
Qed.

(** With at least two rows and two columns the assignment into the
    one-column buffer [C] has the wrong size. *)
Lemma trapecio_matrix_throws (X Y : mat R) :
  (2 <= n_rows X)%nat -> (2 <= n_cols X)%nat ->
  n_rows Y = n_rows X -> n_cols Y = n_cols X ->
  trapecio X Y = Throw (logic_error "copy into submatrix: incompatible matrix dimensions").
Proof.
  intros Hr Hc HrY HcY. unfold trapecio.
  rewrite HrY, HcY, !Nat.eqb_refl. cbn [negb orb].
  replace (n_cols X =? 1)%nat with false by (symmetry; apply Nat.eqb_neq; lia).
  unfold trapecio_columns, zeros, t. cbn [n_rows n_cols mk].
  rewrite !usub_le by lia.
  change 1%N with (N.of_nat 1). change 0%N with (N.of_nat 0).
  rewrite !rows_ok by (cbn; lia). cbn [bind map2 n_rows n_cols mk].
  destruct (Nat.eqb_spec (n_cols X - 1 - 1 + 1) 1) as [E|E].
  - unfold set_row. cbn [n_rows n_cols mk mmap map2].
    replace (N.of_nat (n_cols X) <=? N.of_nat 1)%N with false
      by (symmetry; apply N.leb_gt; lia).
    replace (n_rows X =? 1)%nat with false by (symmetry; apply Nat.eqb_neq; lia).
    rewrite andb_false_r. reflexivity.
  - unfold set_rows. cbn [n_rows n_cols mk mmap map2 cumsum].
    replace (N.of_nat (n_cols X - 1) <? N.of_nat 1)%N with false
      by (symmetry; apply N.ltb_ge; lia).
    replace (N.of_nat (n_cols X) <=? N.of_nat (n_cols X - 1))%N with false
      by (symmetry; apply N.leb_gt; lia).
    replace (n_rows X =? 1)%nat with false by (symmetry; apply Nat.eqb_neq; lia).
    cbn [orb]. rewrite andb_false_r. reflexivity.
Qed.

(** C6, as amended: on a pair of equally shaped vectors of [m >= 2]
    points, a single column or a single row, [trapecio] returns the total
    trapezoidal integral as one value, a 1 x 1 matrix, and the row and the
    column orientation of the same vectors give the same value. *)
Theorem trapecio_vector_integral (X Y : mat R) (m : nat) :
  (2 <= m)%nat ->
  (n_rows X = m /\ n_cols X = 1%nat) \/ (n_rows X = 1%nat /\ n_cols X = m) ->
  n_rows Y = n_rows X -> n_cols Y = n_cols X ->
  exists I,
    trapecio X Y = Ok I /\ n_rows I = 1%nat /\ n_cols I = 1%nat /\
    get I 0 0 = trapezoid_rule (lin X) (lin Y) m /\
    trapecio (t X) (t Y) = Ok I.
Proof.
  intros Hm Hshape HrY HcY.
  exists (mk 1 1 (fun _ _ => trapezoid_rule (lin X) (lin Y) m)).
  split; [now apply trapecio_vector_rule|].
  split; [reflexivity|]. split; [reflexivity|].
  split; [now rewrite get_mk by lia|].
  rewrite (@trapecio_vector_rule (t X) (t Y) m Hm).
  - f_equal. apply mk_ext. intros _ _ _ _.
    destruct Hshape as [[Hr Hc]|[Hr Hc]];
      apply trapezoid_rule_ext; intros k Hk;
      solve [ apply lin_t_column; congruence || lia
            | apply lin_t_row; congruence || lia ].
  - cbn [t n_rows n_cols mk]. tauto.
  - cbn [t n_rows n_cols mk]. congruence.
  - cbn [t n_rows n_cols mk]. congruence.
Qed.

Lemma trapecio_vector_integral_witness :
  exists I,
    trapecio row_x row_y = Ok I /\ n_rows I = 1%nat /\ n_cols I = 1%nat /\
    get I 0 0 = trapezoid_rule (lin row_x) (lin row_y) 3 /\
    trapecio (t row_x) (t row_y) = Ok I.
Proof.
  apply (@trapecio_vector_integral row_x row_y 3).
  - lia.
  - right. split; reflexivity.
  - reflexivity.
  - reflexivity.
Defined.

(** C6, as stated, fails: a pair of equally shaped 2 x 2 matrices makes
    [trapecio] throw, and a row of three points gives one value, not one
    per column of the input. *)
Lemma trapecio_matrix_counterexample :
  n_rows square_x = 2%nat /\ n_cols square_x = 2%nat /\
  trapecio square_x square_x
  = Throw (logic_error "copy into submatrix: incompatible matrix dimensions") /\
  n_cols row_x = 3%nat /\
  exists I, trapecio row_x row_y = Ok I /\ n_cols I = 1%nat.
Proof.
  split; [reflexivity|]. split; [reflexivity|].
  split; [apply trapecio_matrix_throws; cbn; lia|].
  split; [reflexivity|].
  eexists. split.
  - apply (@trapecio_vector_rule row_x row_y 3);
      [lia|right; split; reflexivity|reflexivity|reflexivity].
  - reflexivity.
Qed.

(** C8: on a column grid of at least two points matching the curves,
    [eucdistance1] returns the n x n matrix of distances; it is symmetric
    and its diagonal is zero. *)
Theorem eucdistance1_symmetric_zero_diagonal (X tt : mat R) :
  n_cols tt = 1%nat -> n_rows tt = n_cols X -> (2 <= n_cols X)%nat ->
  exists D,
    eucdistance1 X tt = Ok D /\
    n_rows D = n_rows X /\ n_cols D = n_rows X /\
    forall i j, (i < n_rows X)%nat -> (j < n_rows X)%nat ->
      get D i j = get D j i /\ get D i i = 0.
Proof.
  intros Hc Hr Hm. eexists. split; [now apply eucdistance1_total|].
  split; [reflexivity|]. split; [reflexivity|].
  intros i j Hi Hj. rewrite !get_mk by assumption. split.
  - unfold curve_distance, sqdiff_col. now rewrite sqdiff_sym.
  - unfold curve_distance. rewrite trapezoid_rule_zero; [apply sqrt_0|].
    intros k. unfold sqdiff_col. rewrite lin_col_of. apply sqdiff_self.
Qed.

Lemma eucdistance1_symmetric_zero_diagonal_witness :
  exists D,
    eucdistance1 scenario_X scenario_t = Ok D /\
    n_rows D = n_rows scenario_X /\ n_cols D = n_rows scenario_X /\
    forall i j, (i < n_rows scenario_X)%nat -> (j < n_rows scenario_X)%nat ->
      get D i j = get D j i /\ get D i i = 0.
Proof.
  apply (@eucdistance1_symmetric_zero_diagonal scenario_X scenario_t).
  - reflexivity.
  - reflexivity.
  - cbn. lia.
Defined.

(** On well-shaped input [nadayara_regression] runs to completion; its
    in-sample predictions are the kernel ratios of the rows of the distance
    matrix and its [r2_global] holds the fold sums of squared errors. *)
Lemma nadayara_regression_total (X tt : mat R) (Y hs : vec) (indices1 indices2 : mat nat) :
  cv_input_ok X tt Y indices1 indices2 = true ->
  exists res,
    nadayara_regression X tt Y hs indices1 indices2 = Ok res /\
    eucdistance1 X tt = Ok (distance_matrix X tt) /\
    prediction res
    = mk (n_rows X) (length hs)
         (fun i j => nw_ratio (row_vec (distance_matrix X tt) i) Y (nth j hs 0)) /\
    r2_global res
    = mk (length hs) (n_cols indices1)
         (fun j l => cv_sse (distance_matrix X tt) Y (nth j hs 0)
                            (fold_column indices1 l) (fold_column indices2 l)).
Proof.
  intros Hok. apply cv_input_ok_spec in Hok.
  destruct Hok as (Hc & Hr & Hm & Hn & HY & Hp & Hv & H1 & H2).
  unfold nadayara_regression.
  destruct (mean0 Y) as [media|e] eqn:Em.
  2:{ unfold mean0 in Em. destruct Y; cbn in HY; [lia|discriminate]. }
  cbn [bind]. rewrite HY, Nat.eqb_refl. cbn [negb].
  rewrite (eucdistance1_total X tt Hc Hr Hm). fold (distance_matrix X tt). cbn [bind].
  rewrite (mapM_total _
    (fun l => map (fun j => cv_sse (distance_matrix X tt) Y (nth j hs 0)
                                   (fold_column indices1 l) (fold_column indices2 l))
                  (seq 0 (length hs)))).
  2:{ intros l Hl. apply in_seq in Hl.
      apply (@validation_column_total (distance_matrix X tt) Y hs indices1 indices2
               (n_rows X) l); try assumption; try lia.
      split; reflexivity. }
  cbn [bind]. eexists. split; [reflexivity|].
  split; [reflexivity|]. cbn [prediction r2_global].
  split; [reflexivity|].
  apply mk_ext. intros j l Hj Hl.
  rewrite (@nth_map_seq_d vec _ _ _ 0 [] Hl). cbn [Nat.add].
  now rewrite (nth_map_seq_d _ 0 _ Hj).
Qed.

(** C4: on well-shaped input, entry (j, l) of [r2_global] is the sum of
    squared validation errors of fold l at bandwidth j, the predictions
    being kernel-weighted means of the outcomes of the training rows of
    that fold. *)
Theorem r2_global_is_fold_sse (X tt : mat R) (Y hs : vec) (indices1 indices2 : mat nat) :
  cv_input_ok X tt Y indices1 indices2 = true ->
  exists res D,
    nadayara_regression X tt Y hs indices1 indices2 = Ok res /\
    eucdistance1 X tt = Ok D /\
    n_rows (r2_global res) = length hs /\
    n_cols (r2_global res) = n_cols indices1 /\
    forall j l, (j < length hs)%nat -> (l < n_cols indices1)%nat ->
      get (r2_global res) j l
      = cv_sse D Y (nth j hs 0) (fold_column indices1 l) (fold_column indices2 l).
Proof.
  intros Hok.
  destruct (@nadayara_regression_total X tt Y hs indices1 indices2 Hok) as (res & Hres & HD & _ & Hg).
  exists res, (distance_matrix X tt).
  split; [exact Hres|]. split; [exact HD|].
  rewrite Hg. split; [reflexivity|]. split; [reflexivity|].
  intros j l Hj Hl. now rewrite get_mk.
Qed.

Lemma r2_global_is_fold_sse_witness :
  exists res D,
    nadayara_regression scenario_X scenario_t scenario_Y scenario_hs
                        scenario_train scenario_valid = Ok res /\
    eucdistance1 scenario_X scenario_t = Ok D /\
    n_rows (r2_global res) = length scenario_hs /\
    n_cols (r2_global res) = n_cols scenario_train /\
    forall j l, (j < length scenario_hs)%nat -> (l < n_cols scenario_train)%nat ->
      get (r2_global res) j l
      = cv_sse D scenario_Y (nth j scenario_hs 0)
               (fold_column scenario_train l) (fold_column scenario_valid l).
Proof.
  apply (@r2_global_is_fold_sse scenario_X scenario_t scenario_Y scenario_hs
           scenario_train scenario_valid).
  reflexivity.
Defined.

(** The distances that lines 203-204 slice out for one fold: the rows
    named by [idx2], then the columns named by [idx1]. *)
Lemma fold_distances_total (D : mat R) (idx1 idx2 : list nat) :
  (forall k, In k idx2 -> (k < n_rows D)%nat) ->
  (forall k, In k idx1 -> (k < n_cols D)%nat) ->
  (M <- select_rows D idx2 ;; select_cols M idx1)
  = Ok (mk (length idx2) (length idx1)
           (fun r c => get (mk (length idx2) (n_cols D)
                               (fun r' c' => get D (nth r' idx2 0%nat) c'))
                           r (nth c idx1 0%nat))).
Proof.
  intros H2 H1. unfold select_rows. rewrite forallb_below by exact H2.
  cbn [bind]. unfold select_cols. cbn [n_cols n_rows mk].
  rewrite forallb_below by exact H1. reflexivity.
Qed.

Lemma length_fold_column (indices : mat nat) (l : nat) :
  length (fold_column indices l) = n_rows indices.
Proof. unfold fold_column. now rewrite length_map, length_seq. Qed.

(** C9, as amended: every weight of the Gaussian-like kernel is positive
    for a bandwidth [h > 0], so the sum of the weights of a distance
    vector is positive when the vector is not empty, and it is 0 when the
    vector is empty.  On well-shaped input with positive bandwidths every
    in-sample prediction of [nadayara_regression] (line 239) is a ratio
    with a positive denominator; the ratios of the fold loop (line 217)
    divide by the sum of the weights of the distances to the training
    rows of the fold, which is positive when [indices1] has a row and 0
    when it has none. *)
Theorem kernel_denominator_nonzero (X tt : mat R) (Y hs : vec) (indices1 indices2 : mat nat) :
  cv_input_ok X tt Y indices1 indices2 = true ->
  Forall (fun h => 0 < h) hs ->
  (forall d h, 0 < h -> Forall (fun w => 0 < w) (gaussiankernelinicial d h)) /\
  (forall d h, 0 < h -> d <> [] -> 0 < nw_denominator d h) /\
  (forall h, nw_denominator [] h = 0) /\
  exists res D,
    nadayara_regression X tt Y hs indices1 indices2 = Ok res /\
    eucdistance1 X tt = Ok D /\
    (forall i j, (i < n_rows X)%nat -> (j < length hs)%nat ->
       get (prediction res) i j
       = Rsum (schur (gaussiankernelinicial (row_vec D i) (nth j hs 0)) Y)
         / nw_denominator (row_vec D i) (nth j hs 0) /\
       0 < nw_denominator (row_vec D i) (nth j hs 0) /\
       nw_denominator (row_vec D i) (nth j hs 0) <> 0) /\
    (forall l, (l < n_cols indices1)%nat ->
       exists distancias2,
         (M <- select_rows D (fold_column indices2 l) ;;
          select_cols M (fold_column indices1 l)) = Ok distancias2 /\
         n_rows distancias2 = n_rows indices2 /\
         n_cols distancias2 = n_rows indices1 /\
         forall i j, (i < n_rows indices2)%nat -> (j < length hs)%nat ->
           ((1 <= n_rows indices1)%nat ->
            0 < nw_denominator (row_vec distancias2 i) (nth j hs 0)) /\
           (n_rows indices1 = 0%nat ->
            nw_denominator (row_vec distancias2 i) (nth j hs 0) = 0)).
Proof.
  intros Hok Hhs.
  assert (Hpos : forall d h, Forall (fun w => 0 < w) (gaussiankernelinicial d h)).
  { intros d h. rewrite gaussiankernelinicial_map. apply Forall_forall.
    intros w Hw. apply in_map_iff in Hw. destruct Hw as [x [<- _]].
    apply kernel_weight_pos. }
  split; [intros d h _; apply Hpos|].
  split; [intros d h _ Hne; now apply nw_denominator_pos|].
  split; [reflexivity|].
  destruct (@nadayara_regression_total X tt Y hs indices1 indices2 Hok) as (res & Hres & HD & Hp & _).
  apply cv_input_ok_spec in Hok.
  destruct Hok as (_ & _ & _ & Hn & _ & _ & _ & H1 & H2).
  exists res, (distance_matrix X tt).
  split; [exact Hres|]. split; [exact HD|]. split.
  - intros i j Hi Hj.
    assert (Hden : 0 < nw_denominator (row_vec (distance_matrix X tt) i) (nth j hs 0)).
    { apply nw_denominator_pos.
      intros E. apply (f_equal (@length R)) in E.
      rewrite length_row_vec in E. cbn in E. lia. }
    rewrite Hp, get_mk by assumption.
    split; [reflexivity|]. split; [exact Hden|lra].
  - intros l Hl. eexists. split.
    { apply fold_distances_total.
      - intros k Hk. exact (@fold_column_below indices2 (n_rows X) l k Hn H2 Hk).
      - intros k Hk. exact (@fold_column_below indices1 (n_rows X) l k Hn H1 Hk). }
    cbn [n_rows n_cols mk]. rewrite !length_fold_column.
    split; [reflexivity|]. split; [reflexivity|].
    intros i j Hi Hj. split.
    + intros Hrows. apply nw_denominator_pos.
      intros E. apply (f_equal (@length R)) in E.
      rewrite length_row_vec in E. cbn [n_cols mk length] in E. lia.
    + intros Hrows. unfold row_vec. cbn [n_cols mk]. rewrite Hrows. reflexivity.
Qed.

Lemma kernel_denominator_nonzero_witness :
  (forall d h, 0 < h -> Forall (fun w => 0 < w) (gaussiankernelinicial d h)) /\
  (forall d h, 0 < h -> d <> [] -> 0 < nw_denominator d h) /\
  (forall h, nw_denominator [] h = 0) /\
  exists res D,
    nadayara_regression scenario_X scenario_t scenario_Y scenario_hs
                        scenario_train scenario_valid = Ok res /\
    eucdistance1 scenario_X scenario_t = Ok D /\
    (forall i j, (i < n_rows scenario_X)%nat -> (j < length scenario_hs)%nat ->
       get (prediction res) i j
       = Rsum (schur (gaussiankernelinicial (row_vec D i) (nth j scenario_hs 0)) scenario_Y)
         / nw_denominator (row_vec D i) (nth j scenario_hs 0) /\
       0 < nw_denominator (row_vec D i) (nth j scenario_hs 0) /\
       nw_denominator (row_vec D i) (nth j scenario_hs 0) <> 0) /\
    (forall l, (l < n_cols scenario_train)%nat ->
       exists distancias2,
         (M <- select_rows D (fold_column scenario_valid l) ;;
          select_cols M (fold_column scenario_train l)) = Ok distancias2 /\
         n_rows distancias2 = n_rows scenario_valid /\
         n_cols distancias2 = n_rows scenario_train /\
         forall i j, (i < n_rows scenario_valid)%nat -> (j < length scenario_hs)%nat ->
           ((1 <= n_rows scenario_train)%nat ->
            0 < nw_denominator (row_vec distancias2 i) (nth j scenario_hs 0)) /\
           (n_rows scenario_train = 0%nat ->
            nw_denominator (row_vec distancias2 i) (nth j scenario_hs 0) = 0)).
Proof.
  apply (@kernel_denominator_nonzero scenario_X scenario_t scenario_Y scenario_hs
           scenario_train scenario_valid).
  - reflexivity.
  - repeat constructor; lra.
Defined.

(** C9, as stated, fails: a division by zero is reachable.  The index
    matrices [no_train] and [scenario_valid] are well-shaped, two folds
    with one validation row and no training row each; the run completes,
    and in the fold loop the distances from the validation row to the
    training rows form an empty vector, so that line 217 divides by the
    empty sum of weights, 0. *)
Lemma empty_training_fold_counterexample :
  cv_input_ok scenario_X scenario_t scenario_Y no_train scenario_valid = true /\
  Forall (fun h => 0 < h) scenario_hs /\
  exists res D distancias2,
    nadayara_regression scenario_X scenario_t scenario_Y scenario_hs
                        no_train scenario_valid = Ok res /\
    eucdistance1 scenario_X scenario_t = Ok D /\
    (M <- select_rows D (fold_column scenario_valid 0) ;;
     select_cols M (fold_column no_train 0)) = Ok distancias2 /\
    n_rows distancias2 = 1%nat /\
    row_vec distancias2 0 = [] /\
    nw_denominator (row_vec distancias2 0) (nth 0 scenario_hs 0) = 0.
Proof.
  assert (Hok : cv_input_ok scenario_X scenario_t scenario_Y no_train scenario_valid = true)
    by reflexivity.
  split; [exact Hok|]. split; [repeat constructor; lra|].
  destruct (@nadayara_regression_total scenario_X scenario_t scenario_Y scenario_hs
              no_train scenario_valid Hok) as (res & Hres & HD & _).
  exists res, (distance_matrix scenario_X scenario_t). eexists.
  split; [exact Hres|]. split; [exact HD|]. split.
  { apply fold_distances_total.
    - intros k [<-|[]]. cbn. lia.
    - intros k []. }
  split; [reflexivity|]. split; reflexivity.
Qed.

(** *** Prediction only *)

Lemma prediction_loop_last (D : mat R) (Y hs : vec) (indices1 indices2 : mat nat)
    (ls : list nat) (u : mat R) :
  (forall l, In l ls -> exists P, prediction_fold D Y hs indices1 indices2 l = Ok P) ->
  prediction_loop D Y hs indices1 indices2 ls u
  = match ls with
    | [] => Ok u
    | _ => prediction_fold D Y hs indices1 indices2 (last ls 0%nat)
    end.
Proof.
  revert u. induction ls as [|l ls IH]; intros u H; [reflexivity|].
  cbn [prediction_loop].
  destruct (H l (or_introl eq_refl)) as [P HP]. rewrite HP. cbn [bind].
  rewrite IH by (intros; apply H; now right).
  destruct ls as [|l' ls]; [exact (eq_sym HP)|reflexivity].
Qed.

Lemma last_seq (p : nat) : (1 <= p)%nat -> last (seq 0 p) 0%nat = (p - 1)%nat.
Proof.
  intros Hp. destruct p as [|p]; [lia|].
  rewrite seq_S, last_last. cbn. lia.
Qed.

(** C5: on well-shaped input with p >= 1 columns of indices,
    [nadayara_predicion] returns the predictions of column p-1: for each
    row of that column of [indices2] and each bandwidth, the
    kernel-weighted mean of the outcomes of the rows named by that column
    of [indices1].  Neither the other columns nor the initial contents of
    the result buffer appear in it: two runs whose index matrices agree on
    the last column return the same matrix. *)
Theorem nadayara_predicion_last_fold (X tt : mat R) (Y hs : vec)
    (indices1 indices2 : mat nat) (u : mat R) :
  prediction_input_ok X tt Y indices1 indices2 = true ->
  (1 <= n_cols indices1)%nat ->
  let p := n_cols indices1 in
  exists D,
    eucdistance1 X tt = Ok D /\
    nadayara_predicion X tt Y hs indices1 indices2 u
    = Ok (mk (n_rows indices2) (length hs)
             (fun i j => cv_prediction D Y (nth j hs 0) (fold_column indices1 (p - 1))
                                       (nth i (fold_column indices2 (p - 1)) 0%nat))) /\
    forall (indices1' indices2' u' : _),
      prediction_input_ok X tt Y indices1' indices2' = true ->
      n_cols indices1' = p -> n_rows indices2' = n_rows indices2 ->
      fold_column indices1' (p - 1) = fold_column indices1 (p - 1) ->
      fold_column indices2' (p - 1) = fold_column indices2 (p - 1) ->
      nadayara_predicion X tt Y hs indices1' indices2' u'
      = nadayara_predicion X tt Y hs indices1 indices2 u.
Proof.
  intros Hok Hp p.
  assert (G : forall i1 i2 v,
            prediction_input_ok X tt Y i1 i2 = true -> (1 <= n_cols i1)%nat ->
            nadayara_predicion X tt Y hs i1 i2 v
            = Ok (mk (n_rows i2) (length hs)
                     (fun i j => cv_prediction (distance_matrix X tt) Y (nth j hs 0)
                                   (fold_column i1 (n_cols i1 - 1))
                                   (nth i (fold_column i2 (n_cols i1 - 1)) 0%nat)))).
  { intros i1 i2 v Hok' Hp'. apply prediction_input_ok_spec in Hok'.
    destruct Hok' as (Hc & Hr & Hm & Hn & HY & Hpp & H1 & H2).
    unfold nadayara_predicion.
    rewrite (eucdistance1_total X tt Hc Hr Hm). fold (distance_matrix X tt). cbn [bind].
    assert (F : forall l, (l < n_cols i1)%nat ->
              prediction_fold (distance_matrix X tt) Y hs i1 i2 l
              = Ok (mk (n_rows i2) (length hs)
                       (fun i j => cv_prediction (distance_matrix X tt) Y (nth j hs 0)
                                     (fold_column i1 l) (nth i (fold_column i2 l) 0%nat)))).
    { intros l Hl.
      apply (@prediction_fold_total (distance_matrix X tt) Y hs i1 i2 (n_rows X) l);
        try assumption; try lia.
      split; reflexivity. }
    rewrite prediction_loop_last.
    2:{ intros l Hl. apply in_seq in Hl. eexists. apply F. lia. }
    destruct (seq 0 (n_cols i1)) as [|a ls] eqn:Es.
    { apply (f_equal (@length nat)) in Es. rewrite length_seq in Es. cbn in Es. lia. }
    rewrite <- Es, last_seq by assumption. apply F. lia. }
  exists (distance_matrix X tt).
  pose proof Hok as Hok0. apply prediction_input_ok_spec in Hok0.
  destruct Hok0 as (Hc & Hr & Hm & _).
  split; [now apply eucdistance1_total|].
  split; [now apply G|].
  intros i1' i2' u' Hok' Hp' Hrows E1 E2.
  rewrite (G i1' i2' u' Hok') by lia.
  rewrite (G indices1 indices2 u Hok Hp).
  rewrite Hp', Hrows. fold p. rewrite E1, E2. reflexivity.
Qed.

Lemma nadayara_predicion_last_fold_witness :
  exists D,
    eucdistance1 scenario_X scenario_t = Ok D /\
    nadayara_predicion scenario_X scenario_t scenario_Y scenario_hs
                       scenario_train scenario_valid (zeros 1 1)
    = Ok (mk (n_rows scenario_valid) (length scenario_hs)
             (fun i j => cv_prediction D scenario_Y (nth j scenario_hs 0)
                           (fold_column scenario_train (n_cols scenario_train - 1))
                           (nth i (fold_column scenario_valid (n_cols scenario_train - 1)) 0%nat))) /\
    forall (indices1' indices2' u' : _),
      prediction_input_ok scenario_X scenario_t scenario_Y indices1' indices2' = true ->
      n_cols indices1' = n_cols scenario_train ->
      n_rows indices2' = n_rows scenario_valid ->
      fold_column indices1' (n_cols scenario_train - 1)
      = fold_column scenario_train (n_cols scenario_train - 1) ->
      fold_column indices2' (n_cols scenario_train - 1)
      = fold_column scenario_valid (n_cols scenario_train - 1) ->
      nadayara_predicion scenario_X scenario_t scenario_Y scenario_hs indices1' indices2' u'
      = nadayara_predicion scenario_X scenario_t scenario_Y scenario_hs
                           scenario_train scenario_valid (zeros 1 1).
Proof.
  apply (@nadayara_predicion_last_fold scenario_X scenario_t scenario_Y scenario_hs
           scenario_train scenario_valid (zeros 1 1)).
  - reflexivity.
  - cbn. lia.
Defined.

End NadarayaFacts.

(** ** WassersteinRegression.h *)

Module WassersteinFacts.
Import Arma ArmaFacts Wasserstein.
Local Open Scope Q_scope.

(** *** Comparisons *)

Lemma Qltb_lt (a b : Q) : Qltb a b = true <-> a < b.
Proof.
  unfold Qltb. rewrite negb_true_iff. split.
  - intros H. apply Qnot_le_lt. intros Hle. apply Qle_bool_iff in Hle. congruence.
  - intros H. destruct (Qle_bool b a) eqn:E; [|reflexivity].
    apply Qle_bool_iff in E. exfalso. eapply Qlt_not_le; eauto.
Qed.

Lemma approx_equal_refl (a : vec) : approx_equal_absdiff a a tol = true.
Proof.
  unfold approx_equal_absdiff. rewrite Nat.eqb_refl. cbn [andb].
  induction a as [|x a IH]; [reflexivity|].
  cbn [combine forallb fst snd]. rewrite IH, andb_true_r.
  apply Qle_bool_iff, Qabs_Qle_condition. unfold tol. split; lra.
Qed.

Lemma approx_equal_nth (a b : vec) (j : nat) :
  approx_equal_absdiff a b tol = true -> (j < length a)%nat ->
  length a = length b /\ Qabs (nth j a 0 - nth j b 0) <= tol.
Proof.
  unfold approx_equal_absdiff. intros H Hj.
  apply andb_prop in H. destruct H as [Hlen Hall].
  apply Nat.eqb_eq in Hlen. split; [exact Hlen|].
  rewrite forallb_forall in Hall.
  specialize (Hall (nth j a 0, nth j b 0)).
  apply Qle_bool_iff. apply Hall.
  rewrite <- combine_nth by exact Hlen.
  apply nth_In. rewrite length_combine. lia.
Qed.

(** *** The representatives collected by the first loop *)

Lemma first_seen_prefix (reps : list vec) (a : vec) :
  exists more, first_seen reps a = reps ++ more /\
               existsb (fun r => approx_equal_absdiff a r tol) (reps ++ more) = true /\
               (forall r, In r more -> r = a).
Proof.
  unfold first_seen.
  destruct (existsb (fun r => approx_equal_absdiff a r tol) reps) eqn:E.
  - exists []. rewrite app_nil_r. repeat split; [exact E|intros r []].
  - exists [a]. repeat split.
    + rewrite existsb_app. cbn. now rewrite approx_equal_refl, orb_true_r.
    + intros r [<-|[]]. reflexivity.
Qed.

Lemma fold_first_seen (l : list vec) (reps0 : list vec) :
  exists more,
    fold_left first_seen l reps0 = reps0 ++ more /\
    (forall a, In a l ->
       existsb (fun r => approx_equal_absdiff a r tol) (reps0 ++ more) = true) /\
    (forall r, In r more -> In r l).
Proof.
  revert reps0. induction l as [|a l IH]; intros reps0.
  - exists []. rewrite app_nil_r. repeat split; intros ? [].
  - cbn [fold_left].
    destruct (first_seen_prefix reps0 a) as (m1 & E1 & Hex & Hm1).
    destruct (IH (first_seen reps0 a)) as (m2 & E2 & Hall & Hm2).
    exists (m1 ++ m2). rewrite E2, E1, <- app_assoc. split; [reflexivity|]. split.
    + intros b [<-|Hb].
      * rewrite app_assoc, existsb_app, Hex. reflexivity.
      * specialize (Hall b Hb). now rewrite E1, <- app_assoc in Hall.
    + intros r Hr. apply in_app_or in Hr. destruct Hr as [Hr|Hr].
      * left. symmetry. now apply Hm1.
      * right. now apply Hm2.
Qed.

Lemma unique_prefix_spec (A : mat Q) :
  (forall i, (i < n_rows A)%nat ->
     existsb (fun r => approx_equal_absdiff (row_vec A i) r tol) (unique_prefix A) = true) /\
  (forall r, In r (unique_prefix A) -> exists i, (i < n_rows A)%nat /\ r = row_vec A i).
Proof.
  unfold unique_prefix.
  destruct (fold_first_seen (List.map (row_vec A) (seq 0 (n_rows A))) []) as (more & E & Hall & Hin).
  rewrite E. cbn [app] in *. split.
  - intros i Hi. apply Hall. apply in_map. apply in_seq. lia.
  - intros r Hr. apply Hin in Hr. apply in_map_iff in Hr.
    destruct Hr as (i & <- & Hi). apply in_seq in Hi. exists i. split; [lia|reflexivity].
Qed.

Lemma unique_prefix_length (A : mat Q) :
  (length (unique_prefix A) <= n_rows A)%nat /\
  ((1 <= n_rows A)%nat -> (1 <= length (unique_prefix A))%nat).
Proof.
  assert (G : forall l reps0,
            (length (fold_left first_seen l reps0) <= length reps0 + length l)%nat /\
            (length reps0 <= length (fold_left first_seen l reps0))%nat /\
            (l <> [] -> 1 <= length (fold_left first_seen l reps0))%nat).
  { induction l as [|a l IH]; intros reps0; cbn [fold_left length].
    - repeat split; try lia. congruence.
    - destruct (IH (first_seen reps0 a)) as (H1 & H2 & _).
      assert (length reps0 <= length (first_seen reps0 a) <= S (length reps0))%nat.
      { unfold first_seen. destruct (existsb _ reps0) eqn:E; [lia|].
        rewrite length_app. cbn. lia. }
      assert (1 <= length (first_seen reps0 a))%nat.
      { unfold first_seen. destruct (existsb _ reps0) eqn:E.
        - destruct reps0; [discriminate|cbn; lia].
        - rewrite length_app. cbn. lia. }
      repeat split; lia. }
  unfold unique_prefix.
  destruct (G (List.map (row_vec A) (seq 0 (n_rows A))) []) as (H1 & _ & H3).
  rewrite length_map, length_seq in H1. cbn in H1. split; [exact H1|].
  intros Hn. apply H3. destruct (n_rows A); [lia|]. cbn. discriminate.
Qed.

(** *** The order of the representatives *)

Lemma length_upd (l : list nat) (i x : nat) : length (upd l i x) = length l.
Proof. revert i; induction l as [|y l IH]; intros [|i]; cbn; auto. Qed.

Lemma nth_upd (l : list nat) (i k x : nat) :
  (i < length l)%nat ->
  nth k (upd l i x) 0%nat = if (k =? i)%nat then x else nth k l 0%nat.
Proof.
  revert i k; induction l as [|y l IH]; intros [|i] [|k] Hi; cbn in *; try lia; try reflexivity.
  apply IH. lia.
Qed.

Lemma swap_spec (l : list nat) (i j k : nat) :
  (i < length l)%nat -> (j < length l)%nat ->
  nth k (swap l i j) 0%nat
  = if (k =? j)%nat then nth i l 0%nat
    else if (k =? i)%nat then nth j l 0%nat else nth k l 0%nat.
Proof.
  intros Hi Hj. unfold swap.
  rewrite nth_upd by (rewrite length_upd; exact Hj).
  destruct (k =? j)%nat; [reflexivity|]. now rewrite nth_upd.
Qed.

Lemma length_swap (l : list nat) (i j : nat) : length (swap l i j) = length l.
Proof. unfold swap. now rewrite !length_upd. Qed.

Lemma covers_swap (n : nat) (l : list nat) (i j : nat) :
  (i < n)%nat -> (j < n)%nat -> covers n l -> covers n (swap l i j).
Proof.
  intros Hi Hj (Hlen & Hsur & Hrange). split; [now rewrite length_swap|]. split.
  - intros p Hp. destruct (Hsur p Hp) as (k & Hk & Ek).
    destruct (Nat.eq_dec k i) as [->|Hki].
    + exists j. split; [exact Hj|]. rewrite swap_spec by lia.
      now rewrite Nat.eqb_refl.
    + destruct (Nat.eq_dec k j) as [->|Hkj].
      * exists i. split; [exact Hi|]. rewrite swap_spec by lia.
        destruct (Nat.eqb_spec i j) as [->|_]; [exact Ek|].
        now rewrite Nat.eqb_refl.
      * exists k. split; [exact Hk|]. rewrite swap_spec by lia.
        destruct (Nat.eqb_spec k j); [contradiction|].
        destruct (Nat.eqb_spec k i); [contradiction|]. exact Ek.
  - intros k Hk. rewrite swap_spec by lia.
    destruct (k =? j)%nat; [now apply Hrange|].
    destruct (k =? i)%nat; now apply Hrange.
Qed.

Lemma covers_tie_inner (B : mat Q) (n i : nat) (js l : list nat) :
  (i < n)%nat -> (forall j, In j js -> (j < n)%nat) ->
  covers n l -> covers n (tie_inner B i js l).
Proof.
  intros Hi. revert l. induction js as [|j js IH]; intros l Hjs Hc; [exact Hc|].
  cbn [tie_inner]. destruct (Qltb _ _); [exact Hc|].
  apply IH; [intros; apply Hjs; now right|].
  destruct (is_smaller _ _ _); [|exact Hc].
  apply covers_swap; [exact Hi|apply Hjs; now left|exact Hc].
Qed.

Lemma covers_tie_order (B : mat Q) (l : list nat) :
  covers (length l) l -> covers (length l) (tie_order B l).
Proof.
  intros Hc. unfold tie_order.
  set (n := length l) in *.
  assert (G : forall ks acc, (forall i, In i ks -> (i < n - 1)%nat) -> covers n acc ->
            covers n (fold_left (fun ind i => tie_inner B i (seq (i + 1) (n - (i + 1))) ind) ks acc)).
  { induction ks as [|i ks IH]; intros acc His Hacc; [exact Hacc|].
    cbn [fold_left]. apply IH; [intros; apply His; now right|].
    apply covers_tie_inner; [specialize (His i (or_introl eq_refl)); lia| |exact Hacc].
    intros j Hj. apply in_seq in Hj. lia. }
  apply G; [|exact Hc]. intros i Hi. apply in_seq in Hi. lia.
Qed.

Lemma covers_of_permutation (l : list nat) :
  Permutation l (seq 0 (length l)) -> covers (length l) l.
Proof.
  intros Hp. split; [reflexivity|]. split.
  - intros p Hlt.
    assert (Hin : In p l).
    { apply (Permutation_in _ (Permutation_sym Hp)), in_seq. lia. }
    destruct (In_nth l p 0%nat Hin) as (k & Hk & Ek). now exists k.
  - intros k Hk.
    assert (Hin : In (nth k l 0%nat) (seq 0 (length l))).
    { apply (Permutation_in _ Hp), nth_In, Hk. }
    apply in_seq in Hin. lia.
Qed.

(** *** find_index *)

Lemma find_index_from_unmatched (C : mat Q) (a : vec) (rs : list nat) :
  forallb (fun i => negb (approx_equal_absdiff a (row_vec C i) tol)) rs = true ->
  find_index_from C a rs = 0%nat.
Proof.
  induction rs as [|i rs IH]; intros H; [reflexivity|].
  cbn [forallb] in H. apply andb_prop in H. destruct H as [Hi Hrs].
  cbn [find_index_from]. apply negb_true_iff in Hi. rewrite Hi. now apply IH.
Qed.

Lemma find_index_from_matched (C : mat Q) (a : vec) (rs : list nat) :
  (exists i, In i rs /\ approx_equal_absdiff a (row_vec C i) tol = true) ->
  In (find_index_from C a rs) rs /\
  approx_equal_absdiff a (row_vec C (find_index_from C a rs)) tol = true.
Proof.
  induction rs as [|r rs IH]; intros (i & Hi & Hm); [destruct Hi|].
  cbn [find_index_from].
  destruct (approx_equal_absdiff a (row_vec C r) tol) eqn:E.
  - split; [now left|exact E].
  - destruct Hi as [->|Hi]; [congruence|].
    destruct IH as [H1 H2]; [now exists i|]. split; [now right|exact H2].
Qed.

(** *** ic_unique_rows *)

Lemma map_nth_id (r : vec) : List.map (fun j => nth j r 0) (seq 0 (length r)) = r.
Proof.
  pose proof (map_nth_seq (fun x : Q => x) r) as E.
  rewrite map_id in E. exact E.
Qed.

Section CanonicalFacts.

Variable sort_index : vec -> list nat.
Hypothesis sort_index_permutation :
  forall v, Permutation (sort_index v) (seq 0 (length v)).

(** With at least one row and one column, [ic_unique_rows] returns; every
    row is sent to a row of [C] that equals it within the tolerance. *)
Lemma ic_unique_rows_spec (A : mat Q) :
  (1 <= n_rows A)%nat -> (1 <= n_cols A)%nat ->
  exists C ic,
    ic_unique_rows sort_index A = Ok (C, ic) /\
    n_cols C = n_cols A /\ (1 <= n_rows C <= n_rows A)%nat /\
    ic = List.map (fun i => find_index C (row_vec A i)) (seq 0 (n_rows A)) /\
    forall i, (i < n_rows A)%nat ->
      (nth i ic 0 < n_rows C)%nat /\
      approx_equal_absdiff (row_vec A i) (row_vec C (nth i ic 0%nat)) tol = true.
Proof.
  intros Hr Hc.
  destruct (unique_prefix_length A) as [Hle Hge]. specialize (Hge Hr).
  destruct (unique_prefix_spec A) as [Hall Hreps].
  unfold ic_unique_rows.
  set (reps := unique_prefix A) in *.
  set (count := length reps) in *.
  rewrite usub_le by lia.
  change 0%N with (N.of_nat 0).
  rewrite rows_ok by (cbn [n_rows mk]; lia).
  cbn [bind n_cols n_rows mk].
  set (B := mk (count - 1 - 0 + 1) (n_cols A)
               (fun i j => get (mk (n_rows A) (n_cols A)
                                   (fun i0 j0 => nth j0 (nth i0 reps []) 0)) (0 + i) j)).
  assert (HBr : n_rows B = count) by (cbn; lia).
  assert (HBc : n_cols B = n_cols A) by reflexivity.
  rewrite col_ok by (rewrite HBc; lia). cbn [bind].
  set (col0 := List.map (fun i => get B i 0) (seq 0 (n_rows B))).
  set (indices := tie_order B (sort_index col0)).
  assert (Hlen0 : length (sort_index col0) = count).
  { rewrite (Permutation_length (sort_index_permutation col0)), length_seq.
    unfold col0. now rewrite length_map, length_seq. }
  assert (Hcov : covers count indices).
  { unfold indices. rewrite <- Hlen0. apply covers_tie_order, covers_of_permutation.
    rewrite (Permutation_length (sort_index_permutation col0)), length_seq.
    apply sort_index_permutation. }
  destruct Hcov as (Hlen & Hsur & Hrange).
  set (C := mk (n_rows B) (n_cols B) (fun i j => get B (nth i indices 0%nat) j)).
  assert (HrowC : forall k, (k < count)%nat ->
            row_vec C k = nth (nth k indices 0%nat) reps []).
  { intros k Hk. unfold row_vec. cbn [n_cols C mk].
    specialize (Hrange k Hk).
    assert (Hin : In (nth (nth k indices 0%nat) reps []) reps) by (apply nth_In; exact Hrange).
    destruct (Hreps _ Hin) as (i' & _ & Ei').
    assert (Hl : length (nth (nth k indices 0%nat) reps []) = n_cols A)
      by (rewrite Ei'; apply length_row_vec).
    rewrite <- (map_nth_id (nth (nth k indices 0%nat) reps [])).
    rewrite Hl. change (n_cols C) with (n_cols A).
    apply map_ext_in. intros j Hj. apply in_seq in Hj.
    unfold C. rewrite get_mk by (rewrite ?HBr, ?HBc; lia).
    unfold B. rewrite get_mk by lia. rewrite get_mk by lia. reflexivity. }
  exists C, (List.map (fun i => find_index C (row_vec A i)) (seq 0 (n_rows A))).
  split; [reflexivity|]. split; [reflexivity|].
  split; [cbn [n_rows C mk]; lia|]. split; [reflexivity|].
  intros i Hi. rewrite (nth_map_seq_d _ 0 _ Hi). cbn [Nat.add].
  specialize (Hall i Hi). apply existsb_exists in Hall.
  destruct Hall as (rep & Hin & Hm).
  destruct (In_nth reps rep [] Hin) as (p & Hp & Ep).
  destruct (Hsur p Hp) as (k & Hk & Ek).
  destruct (@find_index_from_matched C (row_vec A i) (seq 0 (n_rows C))) as [H1 H2].
  { exists k. split; [apply in_seq; cbn [n_rows C mk]; lia|].
    rewrite HrowC by exact Hk. now rewrite Ek, Ep. }
  fold (find_index C (row_vec A i)) in H1, H2.
  apply in_seq in H1. split; [lia|exact H2].
Qed.

End CanonicalFacts.

Lemma insert_index_perm (v : vec) (i : nat) (sorted : list nat) :
  Permutation (insert_index v i sorted) (i :: sorted).
Proof.
  induction sorted as [|j sorted IH]; cbn [insert_index]; [reflexivity|].
  destruct (Qltb _ _); [reflexivity|].
  rewrite IH. apply perm_swap.
Qed.

Lemma stable_sort_index_permutation (v : vec) :
  Permutation (stable_sort_index v) (seq 0 (length v)).
Proof.
  unfold stable_sort_index.
  assert (G : forall l acc,
            Permutation (fold_left (fun sorted i => insert_index v i sorted) l acc) (l ++ acc)).
  { induction l as [|a l IH]; intros acc; cbn [fold_left app]; [reflexivity|].
    rewrite IH, insert_index_perm. symmetry. apply Permutation_middle. }
  rewrite G, app_nil_r. reflexivity.
Qed.

Lemma nth_row_vec (A : mat Q) (i j : nat) :
  (j < n_cols A)%nat -> nth j (row_vec A i) 0 = get A i j.
Proof. intros Hj. unfold row_vec. now rewrite (nth_map_seq_d _ 0 _ Hj). Qed.

(** C3, as amended: with at least one row and one column, row
    canonicalization sends every covariate row to a representative that
    differs from it by at most 0.002 in every coordinate; so two rows that
    differ by more than 0.004 in some coordinate get distinct
    representatives, and two equal rows get the same one. *)
Theorem ic_unique_rows_within_tolerance (sort_index : vec -> list nat) (A : mat Q) :
  (forall v, Permutation (sort_index v) (seq 0 (length v))) ->
  (1 <= n_rows A)%nat -> (1 <= n_cols A)%nat ->
  exists C ic,
    ic_unique_rows sort_index A = Ok (C, ic) /\
    (forall i j, (i < n_rows A)%nat -> (j < n_cols A)%nat ->
       (nth i ic 0 < n_rows C)%nat /\
       Qabs (get A i j - get C (nth i ic 0%nat) j) <= tol) /\
    (forall i1 i2 j, (i1 < n_rows A)%nat -> (i2 < n_rows A)%nat -> (j < n_cols A)%nat ->
       2 * tol < Qabs (get A i1 j - get A i2 j) ->
       nth i1 ic 0%nat <> nth i2 ic 0%nat) /\
    (forall i1 i2, (i1 < n_rows A)%nat -> (i2 < n_rows A)%nat ->
       row_vec A i1 = row_vec A i2 -> nth i1 ic 0%nat = nth i2 ic 0%nat).
Proof.
  intros Hperm Hr Hc.
  destruct (@ic_unique_rows_spec sort_index Hperm A Hr Hc) as (C & ic & Hrun & HCc & HCr & Hic & Hrows).
  exists C, ic. split; [exact Hrun|].
  assert (Hnear : forall i j, (i < n_rows A)%nat -> (j < n_cols A)%nat ->
            (nth i ic 0 < n_rows C)%nat /\
            Qabs (get A i j - get C (nth i ic 0%nat) j) <= tol).
  { intros i j Hi Hj. destruct (Hrows i Hi) as [Hlt Hm]. split; [exact Hlt|].
    destruct (@approx_equal_nth _ _ j Hm) as [_ Hb];
      [now rewrite length_row_vec|].
    rewrite !nth_row_vec in Hb by (rewrite ?HCc; exact Hj). exact Hb. }
  split; [exact Hnear|]. split.
  - intros i1 i2 j H1 H2 Hj Hfar E.
    destruct (Hnear i1 j H1 Hj) as [_ B1]. destruct (Hnear i2 j H2 Hj) as [_ B2].
    rewrite E in B1.
    apply Qabs_Qle_condition in B1. apply Qabs_Qle_condition in B2.
    apply (Qlt_not_le _ _ Hfar). apply Qabs_Qle_condition. split; lra.
  - intros i1 i2 H1 H2 E. rewrite Hic.
    rewrite (nth_map_seq_d _ 0 _ H1), (nth_map_seq_d _ 0 _ H2). cbn [Nat.add].
    now rewrite E.
Qed.

Lemma ic_unique_rows_within_tolerance_witness :
  exists C ic,
    ic_unique_rows stable_sort_index chain_rows = Ok (C, ic) /\
    (forall i j, (i < n_rows chain_rows)%nat -> (j < n_cols chain_rows)%nat ->
       (nth i ic 0 < n_rows C)%nat /\
       Qabs (get chain_rows i j - get C (nth i ic 0%nat) j) <= tol) /\
    (forall i1 i2 j, (i1 < n_rows chain_rows)%nat -> (i2 < n_rows chain_rows)%nat ->
       (j < n_cols chain_rows)%nat ->
       2 * tol < Qabs (get chain_rows i1 j - get chain_rows i2 j) ->
       nth i1 ic 0%nat <> nth i2 ic 0%nat) /\
    (forall i1 i2, (i1 < n_rows chain_rows)%nat -> (i2 < n_rows chain_rows)%nat ->
       row_vec chain_rows i1 = row_vec chain_rows i2 -> nth i1 ic 0%nat = nth i2 ic 0%nat).
Proof.
  apply (@ic_unique_rows_within_tolerance stable_sort_index chain_rows).
  - exact stable_sort_index_permutation.
  - cbn. lia.
  - cbn. lia.
Defined.

(** C3, as stated, fails in both halves.  In [chain_rows] the second and
    the third row differ by 0.0015, less than the tolerance, and get
    distinct representatives; in [fan_rows] the second and the third row
    differ by 0.003, more than the tolerance, and get the same
    representative. *)
Lemma canonicalization_counterexample :
  (exists C ic,
     ic_unique_rows stable_sort_index chain_rows = Ok (C, ic) /\
     Qabs (get chain_rows 1 0 - get chain_rows 2 0) < tol /\
     nth 1 ic 0%nat <> nth 2 ic 0%nat) /\
  (exists C ic,
     ic_unique_rows stable_sort_index fan_rows = Ok (C, ic) /\
     tol < Qabs (get fan_rows 1 0 - get fan_rows 2 0) /\
     nth 1 ic 0%nat = nth 2 ic 0%nat).
Proof.
  split.
  - eexists. eexists. split; [vm_compute; reflexivity|].
    split; [reflexivity|]. cbn. discriminate.
  - eexists. eexists. split; [vm_compute; reflexivity|].
    split; reflexivity.
Qed.

(** C10: when a row matches no row of [C] within the tolerance,
    [find_index] returns 0, the position of the first canonical row, and
    raises nothing. *)
Theorem find_index_unmatched_returns_zero (C : mat Q) (rowA : vec) :
  (forall i, (i < n_rows C)%nat ->
     approx_equal_absdiff rowA (row_vec C i) tol = false) ->
  find_index C rowA = 0%nat.
Proof.
  intros H. unfold find_index. apply find_index_from_unmatched.
  apply forallb_forall. intros i Hi. apply in_seq in Hi.
  rewrite H by lia. reflexivity.
Qed.

Lemma find_index_unmatched_returns_zero_witness :
  find_index two_rows far_row = 0%nat.
Proof.
  apply (@find_index_unmatched_returns_zero two_rows far_row).
  intros i Hi. destruct i as [|[|i]]; [reflexivity|reflexivity|].
  cbn in Hi. lia.
Defined.

(** *** The positivity check *)

Lemma fold_min_lt (v : vec) (x c : Q) :
  fold_left Qmin v x < c <-> x < c \/ exists y, In y v /\ y < c.
Proof.
  revert x. induction v as [|a v IH]; intros x; cbn [fold_left].
  - split; [now left|]. intros [H|(y & [] & _)]. exact H.
  - rewrite IH, Q.min_lt_iff. split.
    + intros [[H|H]|(y & Hy & H)].
      * now left.
      * right. exists a. split; [now left|exact H].
      * right. exists y. split; [now right|exact H].
    + intros [H|(y & [<-|Hy] & H)].
      * left. now left.
      * left. now right.
      * right. now exists y.
Qed.

Lemma vec_min_lt (v : vec) (c : Q) :
  v <> [] -> (vec_min v < c <-> exists y, In y v /\ y < c).
Proof.
  intros Hne. destruct v as [|x v]; [congruence|]. cbn [vec_min].
  rewrite fold_min_lt. split.
  - intros [H|(y & Hy & H)]; [exists x|exists y]; split; auto; now (left + right).
  - intros (y & [<-|Hy] & H); [now left|right; now exists y].
Qed.

Lemma In_find_negative (v : vec) (i : nat) :
  In i (find_negative v) <-> (i < length v)%nat /\ nth i v 0 < 0.
Proof.
  unfold find_negative. rewrite filter_In, in_seq, Qltb_lt.
  split; intros [H1 H2]; (split; [lia|exact H2]).
Qed.

(** The rows flagged at line 239 are the rows with a negative entry. *)
Lemma flagged_rows (M : mat Q) (i : nat) :
  In i (find_negative (min_cols (t M)))
  <-> (i < n_rows M)%nat /\ exists j, (j < n_cols M)%nat /\ get M i j < 0.
Proof.
  rewrite In_find_negative. unfold min_cols. cbn [t n_rows n_cols mk].
  destruct (Nat.eqb_spec (n_cols M) 0) as [E|E].
  - cbn [length]. split; [intros [H _]; inversion H|].
    intros (_ & j & Hj & _). lia.
  - rewrite length_map, length_seq. split.
    + intros [Hi Hneg]. split; [exact Hi|].
      rewrite (nth_map_seq_d _ 0 _ Hi) in Hneg. cbn [Nat.add] in Hneg.
      apply vec_min_lt in Hneg.
      * destruct Hneg as (y & Hy & Hlt). apply in_map_iff in Hy.
        destruct Hy as (j & <- & Hj). apply in_seq in Hj.
        exists j. split; [lia|]. unfold t in Hlt. now rewrite get_mk in Hlt by lia.
      * intros E0. apply (f_equal (@length Q)) in E0.
        rewrite length_map, length_seq in E0. cbn in E0. lia.
    + intros (Hi & j & Hj & Hlt). split; [exact Hi|].
      rewrite (nth_map_seq_d _ 0 _ Hi). cbn [Nat.add].
      apply vec_min_lt.
      * intros E0. apply (f_equal (@length Q)) in E0.
        rewrite length_map, length_seq in E0. cbn in E0. lia.
      * exists (get M i j). split; [|exact Hlt].
        apply in_map_iff. exists j. split; [unfold t; now rewrite get_mk by lia|].
        apply in_seq. lia.
Qed.

(** *** The checks on the grid *)

Lemma validate_grid_spec (tgrid : vec) (m : nat) :
  validate_grid tgrid m = Ok tt
  <-> length tgrid = m /\ (1 <= m)%nat /\
      nth 0 tgrid 0 == 0 /\ nth (m - 1) tgrid 0 == 1.
Proof.
  unfold validate_grid, vec_elem.
  destruct (Nat.eqb_spec (length tgrid) m) as [E|E]; cbn [negb].
  2:{ split; [discriminate|]. intros [H _]. contradiction. }
  destruct (N.leb_spec (N.of_nat (length tgrid)) 0) as [H0|H0]; cbn [bind].
  { split; [discriminate|]. intros (_ & Hm & _). lia. }
  rewrite usub_le by lia.
  destruct (N.leb_spec (N.of_nat (length tgrid)) (N.of_nat (length tgrid - 1))) as [H1|H1];
    [lia|]. cbn [bind].
  rewrite Nat2N.id, E. change (N.to_nat 0) with 0%nat.
  destruct (Qeq_bool (nth 0 tgrid 0) 0) eqn:E0;
    destruct (Qeq_bool (nth (m - 1) tgrid 0) 1) eqn:E1; cbn [negb orb].
  - apply Qeq_bool_iff in E0, E1. split; [intros _|reflexivity].
    repeat split; try assumption. lia.
  - split; [discriminate|]. intros (_ & _ & _ & H). apply Qeq_bool_iff in H. congruence.
  - split; [discriminate|]. intros (_ & _ & H & _). apply Qeq_bool_iff in H. congruence.
  - split; [discriminate|]. intros (_ & _ & H & _). apply Qeq_bool_iff in H. congruence.
Qed.

(** *** The flag QP_used *)

Lemma select_rows_inv {A : Type} {zeroA : Zero A} (M R : mat A) (idx : list nat) :
  select_rows M idx = Ok R ->
  R = mk (length idx) (n_cols M) (fun i j => get M (nth i idx 0%nat) j).
Proof.
  unfold select_rows. destruct (forallb _ idx); [|discriminate].
  intros H. injection H as <-. reflexivity.
Qed.

(** C7: whenever the engine returns, [QP_used] is 1 exactly when some
    canonical row of the least-squares prediction [qall] of the quantile
    densities has a negative entry, and it is 0 otherwise; when it is 0
    the returned quantile densities [qfit] and [qpred] are the rows of
    [qall] that the index vector [ic] names for the fit and the prediction
    covariates. *)
Theorem QP_used_iff_negative_prediction
    (sort_index : vec -> list nat) (solve : mat Q -> mat Q -> res (mat Q))
    (quadprog : mat Q -> vec -> mat Q -> mat Q -> res vec)
    (xfit q Q0 xpred : mat Q) (tgrid : vec) (qdmin : Q)
    (result : regression_struct) (log : list string) :
  wasserstein_regression sort_index solve quadprog xfit q Q0 xpred tgrid qdmin
  = Ok (result, log) ->
  exists xall ic qall Q0all,
    ols_fit sort_index solve xfit q Q0 xpred = Ok (xall, ic, qall, Q0all) /\
    (QP_used result = 1%Z
     <-> exists i j, (i < n_rows qall)%nat /\ (j < n_cols qall)%nat /\ get qall i j < 0) /\
    (QP_used result = 0%Z \/ QP_used result = 1%Z) /\
    (QP_used result = 0%Z ->
     exists ifit ipred,
       subvec ic (N.of_nat (n_rows xpred)) (usub (n_rows xpred + n_rows q) 1) = Ok ifit /\
       subvec ic 0 (usub (n_rows xpred) 1) = Ok ipred /\
       select_rows qall ifit = Ok (qfit result) /\
       select_rows qall ipred = Ok (qpred result)).
Proof.
  intros H. unfold wasserstein_regression in H.
  destruct (validate_grid tgrid (n_cols q)) as [[]|] eqn:Ev; cbn [bind] in H; [|discriminate].
  destruct (ols_fit sort_index solve xfit q Q0 xpred) as [[[[xall ic] qall] Q0all]|] eqn:Eo;
    cbn [bind] in H; [|discriminate].
  exists xall, ic, qall, Q0all. split; [reflexivity|].
  destruct (find_negative (min_cols (t qall))) as [|d0 dec] eqn:Edec.
  - cbn [bind] in H.
    destruct (quantile_functions tgrid qall Q0all) as [Qall|] eqn:EQ;
      cbn [bind] in H; [|discriminate].
    destruct (subvec ic (N.of_nat (n_rows xpred)) (usub (n_rows xpred + n_rows q) 1))
      as [ifit|] eqn:Efit; cbn [bind] in H; [|discriminate].
    destruct (select_rows Qall ifit) as [Qf|] eqn:E1; cbn [bind] in H; [|discriminate].
    destruct (subvec ic 0 (usub (n_rows xpred) 1)) as [ipred|] eqn:Epred;
      cbn [bind] in H; [|discriminate].
    destruct (select_rows Qall ipred) as [Qp|] eqn:E2; cbn [bind] in H; [|discriminate].
    destruct (select_rows qall ifit) as [qf|] eqn:E3; cbn [bind] in H; [|discriminate].
    destruct (select_rows qall ipred) as [qp|] eqn:E4; cbn [bind] in H; [|discriminate].
    destruct (select_rows (mmap Qinv qall) ifit) as [ff|] eqn:E5; cbn [bind] in H; [|discriminate].
    destruct (select_rows (mmap Qinv qall) ipred) as [fp|] eqn:E6; cbn [bind] in H; [|discriminate].
    injection H as <- <-. cbn [QP_used qfit qpred].
    split; [|split; [now left|]].
    + split; [discriminate|]. intros (i & j & Hi & Hj & Hneg). exfalso.
      assert (Hin : In i (find_negative (min_cols (t qall)))).
      { apply flagged_rows. split; [exact Hi|]. now exists j. }
      rewrite Edec in Hin. destruct Hin.
    + intros _. exists ifit, ipred. repeat split; first [assumption|reflexivity].
  - destruct (project quadprog tgrid (n_cols q) qdmin (d0 :: dec) qall Q0all)
      as [[[qall' Q0all'] log']|] eqn:Ep; cbn [bind] in H; [|discriminate].
    destruct (quantile_functions tgrid qall' Q0all') as [Qall|] eqn:EQ;
      cbn [bind] in H; [|discriminate].
    destruct (subvec ic (N.of_nat (n_rows xpred)) (usub (n_rows xpred + n_rows q) 1))
      as [ifit|] eqn:Efit; cbn [bind] in H; [|discriminate].
    destruct (select_rows Qall ifit) as [Qf|] eqn:E1; cbn [bind] in H; [|discriminate].
    destruct (subvec ic 0 (usub (n_rows xpred) 1)) as [ipred|] eqn:Epred;
      cbn [bind] in H; [|discriminate].
    destruct (select_rows Qall ipred) as [Qp|] eqn:E2; cbn [bind] in H; [|discriminate].
    destruct (select_rows qall' ifit) as [qf|] eqn:E3; cbn [bind] in H; [|discriminate].
    destruct (select_rows qall' ipred) as [qp|] eqn:E4; cbn [bind] in H; [|discriminate].
    destruct (select_rows (mmap Qinv qall') ifit) as [ff|] eqn:E5; cbn [bind] in H; [|discriminate].
    destruct (select_rows (mmap Qinv qall') ipred) as [fp|] eqn:E6; cbn [bind] in H; [|discriminate].
    injection H as <- <-. cbn [QP_used qfit qpred].
    split; [|split; [now right|discriminate]].
    split; [intros _|reflexivity].
    assert (Hin : In d0 (find_negative (min_cols (t qall)))) by (rewrite Edec; now left).
    apply flagged_rows in Hin. destruct Hin as (Hi & j & Hj & Hneg).
    now exists d0, j.
Qed.

Lemma QP_used_iff_negative_prediction_witness :
  exists xall ic qall Q0all,
    ols_fit stable_sort_index solve_2x2 fit_x rising_q zero_Q0 pred_half
    = Ok (xall, ic, qall, Q0all) /\
    (QP_used scenario_b_result = 1%Z
     <-> exists i j, (i < n_rows qall)%nat /\ (j < n_cols qall)%nat /\ get qall i j < 0) /\
    (QP_used scenario_b_result = 0%Z \/ QP_used scenario_b_result = 1%Z) /\
    (QP_used scenario_b_result = 0%Z ->
     exists ifit ipred,
       subvec ic (N.of_nat (n_rows pred_half)) (usub (n_rows pred_half + n_rows rising_q) 1)
       = Ok ifit /\
       subvec ic 0 (usub (n_rows pred_half) 1) = Ok ipred /\
       select_rows qall ifit = Ok (qfit scenario_b_result) /\
       select_rows qall ipred = Ok (qpred scenario_b_result)).
Proof.
  apply (@QP_used_iff_negative_prediction stable_sort_index solve_2x2 quadprog_fails
           fit_x rising_q zero_Q0 pred_half grid3 small_qdmin scenario_b_result []).
  vm_compute. reflexivity.
Defined.

(** Scenario B runs to completion without projection and returns the
    least-squares quantile densities [1 + x]. *)
Lemma scenario_b_runs :
  wasserstein_regression stable_sort_index solve_2x2 quadprog_fails
    fit_x rising_q zero_Q0 pred_half grid3 small_qdmin
  = Ok (scenario_b_result, []) /\
  QP_used scenario_b_result = 0%Z /\
  entries (qfit scenario_b_result) = [[1; 1; 1]; [2; 2; 2]] /\
  entries (qpred scenario_b_result) = [[3 # 2; 3 # 2; 3 # 2]] /\
  entries (Qpred scenario_b_result) = [[0; 3 # 4; 3 # 2]].
Proof. repeat split; vm_compute; reflexivity. Qed.

(** *** A failing solver *)

Lemma qp_instance_length (V1 v1 V2 : mat Q) (c : vec) (C : mat Q) (ax : Q) (hx : vec)
    (d : vec) (V v : mat Q) :
  qp_instance V1 v1 V2 c C ax hx = Ok (d, V, v) ->
  length c = length hx /\ length d = S (length c).
Proof.
  unfold qp_instance. intros H.
  destruct (mmul (row_of c) (col_of hx)) as [chx|] eqn:E1; cbn [bind] in H; [|discriminate].
  destruct (mmul C (col_of hx)) as [Chx|] eqn:E2; cbn [bind] in H; [|discriminate].
  destruct (madd (col_of (vscale ax c)) Chx) as [below|] eqn:E3; cbn [bind] in H; [|discriminate].
  destruct (join_vert (mmap (Qplus ax) chx) below) as [stacked|] eqn:E4;
    cbn [bind] in H; [|discriminate].
  destruct (as_vec (mneg stacked)) as [d'|] eqn:E5; cbn [bind] in H; [|discriminate].
  destruct (join_vert V2 (mneg V2)) as [V22|]; cbn [bind] in H; [|discriminate].
  destruct (join_vert V1 V22) as [V'|]; cbn [bind] in H; [|discriminate].
  destruct (join_horiz _ _) as [v22|]; cbn [bind] in H; [|discriminate].
  destruct (join_horiz v1 v22) as [v'|]; cbn [bind] in H; [|discriminate].
  injection H as <- _ _.
  unfold mmul in E1. cbn [row_of col_of n_rows n_cols mk] in E1.
  destruct (Nat.eqb_spec (length c) (length hx)) as [Ec|]; [|discriminate].
  injection E1 as <-. split; [exact Ec|].
  unfold madd in E3. destruct (_ && _); [|discriminate]. injection E3 as <-.
  unfold join_vert in E4. destruct (_ && _ && _); [discriminate|]. injection E4 as <-.
  unfold as_vec in E5. destruct (_ || _); [|discriminate]. injection E5 as <-.
  cbn [length]. rewrite length_map, length_seq. unfold vscale. now rewrite length_map.
Qed.

Lemma subvec_tail_zeros (k : nat) :
  subvec (repeat 0 (S (S k))) 1 (usub (length (repeat 0 (S (S k)))) 1)
  = Ok (repeat 0 (S k)).
Proof.
  unfold subvec. rewrite repeat_length, usub_le by lia.
  replace (N.of_nat (S (S k) - 1) <? 1)%N with false by (symmetry; apply N.ltb_ge; lia).
  replace (N.of_nat (S (S k)) <=? N.of_nat (S (S k) - 1))%N with false
    by (symmetry; apply N.leb_gt; lia).
  cbn [orb]. rewrite Nat2N.id. change (N.to_nat 1) with 1%nat.
  cbn [skipn repeat]. f_equal.
  replace (S (S k) - 1 - 1 + 1)%nat with (length (repeat 0 (S k)))
    by (rewrite repeat_length; lia).
  change (0 :: repeat 0 k) with (repeat 0 (S k)).
  apply firstn_all.
Qed.

Lemma nth_vec_set (v : vec) (row i : nat) (x : Q) :
  (row < length v)%nat ->
  nth i (vec_set v row x) 0 = if (i =? row)%nat then x else nth i v 0.
Proof.
  revert row i; induction v as [|y v IH]; intros [|row] [|i] H; cbn in *;
    try lia; try reflexivity.
  apply IH. lia.
Qed.

(** C1, as amended: when the solver throws on the program of a flagged
    row, the body of the loop writes the warning and returns normally, so
    the loop goes on with the next row and no other row is touched; the
    row itself is not left at the least-squares fit: its quantile density
    and its quantile-at-zero are overwritten with the zeros of the buffer
    [tmp]. *)
Theorem failed_solve_writes_zero_row
    (quadprog : mat Q -> vec -> mat Q -> mat Q -> res vec)
    (D V1 v1 V2 : mat Q) (c : vec) (C : mat Q)
    (qall : mat Q) (Q0all : vec) (log : list string) (row : nat)
    (d : vec) (V v : mat Q) (e : exn) :
  (row < n_rows qall)%nat -> (row < length Q0all)%nat -> (1 <= n_cols qall)%nat ->
  qp_instance V1 v1 V2 c C (nth row Q0all 0) (row_vec qall row) = Ok (d, V, v) ->
  quadprog D d V (t v) = Throw e ->
  exists qall',
    qp_row quadprog D V1 v1 V2 c C (qall, Q0all, log) row
    = Ok (qall', vec_set Q0all row 0, log ++ [qp_warning]) /\
    n_rows qall' = n_rows qall /\ n_cols qall' = n_cols qall /\
    (forall j, (j < n_cols qall)%nat -> get qall' row j = 0) /\
    nth row (vec_set Q0all row 0) 0 = 0 /\
    (forall i j, (i < n_rows qall)%nat -> (j < n_cols qall)%nat -> i <> row ->
       get qall' i j = get qall i j) /\
    (forall i, i <> row -> nth i (vec_set Q0all row 0) 0 = nth i Q0all 0).
Proof.
  intros Hrow HQ0 Hm Hinst Hfail.
  destruct (qp_instance_length _ _ _ _ _ _ _ Hinst) as [Hc Hd].
  rewrite length_row_vec in Hc.
  unfold qp_row, vec_elem.
  replace (N.of_nat (length Q0all) <=? N.of_nat row)%N with false
    by (symmetry; apply N.leb_gt; lia).
  cbn [bind]. rewrite Nat2N.id, Hinst. cbn [bind]. rewrite Hfail.
  rewrite Hd, Hc.
  destruct (n_cols qall) as [|k] eqn:Ek; [lia|].
  rewrite subvec_tail_zeros. cbn [bind].
  rewrite set_row_ok; [|exact Hrow|reflexivity|cbn; rewrite repeat_length; now rewrite Ek].
  cbn [bind]. rewrite repeat_length.
  replace (N.of_nat (S (S k)) <=? 0)%N with false by (symmetry; apply N.leb_gt; lia).
  cbn [bind]. change (nth (N.to_nat 0) (repeat 0 (S (S k))) 0) with 0%Q.
  eexists. split; [reflexivity|].
  split; [reflexivity|]. split; [cbn; now rewrite Ek|].
  split; [|split; [|split]].
  - intros j Hj. rewrite get_mk by lia. rewrite Nat.eqb_refl.
    unfold row_of. rewrite get_mk by (rewrite ?repeat_length; lia).
    apply nth_repeat.
  - rewrite nth_vec_set by exact HQ0. now rewrite Nat.eqb_refl.
  - intros i j Hi Hj Hne. rewrite get_mk by lia.
    destruct (Nat.eqb_spec i row); [contradiction|reflexivity].
  - intros i Hne. rewrite nth_vec_set by exact HQ0.
    destruct (Nat.eqb_spec i row); [contradiction|reflexivity].
Qed.

Lemma failed_solve_writes_zero_row_witness :
  let '(D, V1, v1, V2) := scenario_c_qp in
  let '(c, C) := scenario_c_cC in
  let '(qall, Q0all) := scenario_c_ols in
  exists qall',
    qp_row quadprog_fails D V1 v1 V2 c C (qall, Q0all, []) 3
    = Ok (qall', vec_set Q0all 3 0, [] ++ [qp_warning]) /\
    n_rows qall' = n_rows qall /\ n_cols qall' = n_cols qall /\
    (forall j, (j < n_cols qall)%nat -> get qall' 3 j = 0) /\
    nth 3 (vec_set Q0all 3 0) 0 = 0 /\
    (forall i j, (i < n_rows qall)%nat -> (j < n_cols qall)%nat -> i <> 3%nat ->
       get qall' i j = get qall i j) /\
    (forall i, i <> 3%nat -> nth i (vec_set Q0all 3 0) 0 = nth i Q0all 0).
Proof.
  cbv beta iota delta [scenario_c_qp scenario_c_cC scenario_c_ols].
  eapply (@failed_solve_writes_zero_row quadprog_fails).
  - cbn. lia.
  - cbn. lia.
  - cbn. lia.
  - vm_compute. reflexivity.
  - reflexivity.
Defined.

(** C1, as stated, fails.  In scenario C the least-squares prediction of
    the quantile density at [x = 3] is [-1] at every grid point, so the row
    is flagged; with a solver that throws, the warning is written and the
    run goes on, but the row returned is the zero row, not the
    least-squares row: the zero-initialised buffer [tmp] of line 268 is
    copied into [qall] and [Q0all] at lines 274-275. *)
Lemma failed_projection_counterexample :
  exists xall ic qall Q0all result,
    ols_fit stable_sort_index solve_2x2 fit_x falling_q zero_Q0 pred_far
    = Ok (xall, ic, qall, Q0all) /\
    List.map (List.map Qred) (to_rows qall)
    = [[2; 2; 2]; [3 # 2; 3 # 2; 3 # 2]; [1; 1; 1]; [-1; -1; -1]] /\
    ic = [3; 0; 2; 1]%nat /\
    wasserstein_regression stable_sort_index solve_2x2 quadprog_fails
      fit_x falling_q zero_Q0 pred_far grid3 small_qdmin
    = Ok (result, [qp_warning]) /\
    QP_used result = 1%Z /\
    entries (qpred result) = [[0; 0; 0]] /\
    entries (qpred result) <> [[-1; -1; -1]] /\
    entries (Qpred result) = [[0; 0; 0]] /\
    entries (qfit result) = [[2; 2; 2]; [1; 1; 1]].
Proof.
  do 5 eexists.
  split; [vm_compute; reflexivity|].
  split; [vm_compute; reflexivity|].
  split; [reflexivity|].
  split; [vm_compute; reflexivity|].
  repeat split; try (vm_compute; reflexivity).
  vm_compute. discriminate.
Qed.

(** *** A grid that is not increasing *)

(** C2 fails on the code: [unsorted_grid] starts at 0, ends at 1, has as
    many points as [rising_q4] has columns and is not increasing; the
    checks of lines 215-219 accept it and the fit is carried out. *)
Theorem unsorted_grid_is_accepted :
  nth 2 unsorted_grid 0 < nth 1 unsorted_grid 0 /\
  validate_grid unsorted_grid (n_cols rising_q4) = Ok tt /\
  exists result,
    wasserstein_regression stable_sort_index solve_2x2 quadprog_fails
      fit_x rising_q4 zero_Q0 pred_half unsorted_grid small_qdmin
    = Ok (result, []) /\
    entries (qpred result) = [[3 # 2; 3 # 2; 3 # 2; 3 # 2]] /\
    entries (Qpred result) = [[0; 9 # 8; 3 # 8; 3 # 2]].
Proof.
  split; [reflexivity|]. split; [reflexivity|].
  eexists. split; [vm_compute; reflexivity|].
  split; vm_compute; reflexivity.
Qed.

End WassersteinFacts.

(** ** NadarayaRegression.h: further properties *)

Module NadarayaExtras.
Import Arma ArmaFacts Nadaraya NadarayaFacts.
Local Open Scope R_scope.

(** *** trapecio *)

Lemma trapecio_columns_short (X Y : mat R) :
  (n_rows X < 2)%nat ->
  trapecio_columns X Y
  = Throw (logic_error "Mat::rows(): indices out of bounds or incorrectly used").
Proof.
  intros H. unfold trapecio_columns.
  destruct (n_rows X) as [|[|n]] eqn:E; [| |lia];
    unfold rows; rewrite E; reflexivity.
Qed.

(** X1: [trapecio] has two failures.  Operands of different shapes are
    refused with [std::invalid_argument]; operands of one shape with fewer
    than two points in column orientation (a single point, or no point at
    all) make the row range [1 .. n-1] invalid, an Armadillo range error,
    instead of giving the integral 0. *)
Theorem trapecio_failures (X Y : mat R) :
  (n_rows X <> n_rows Y \/ n_cols X <> n_cols Y ->
   trapecio X Y
   = Throw (invalid_argument "Arguments 'x' and 'y' must be matrices of the same dimension")) /\
  (n_rows X = n_rows Y -> n_cols X = n_cols Y ->
   ((if n_cols X =? 1 then n_rows X else n_cols X) < 2)%nat ->
   trapecio X Y
   = Throw (logic_error "Mat::rows(): indices out of bounds or incorrectly used")).
Proof.
  split.
  - intros H. unfold trapecio.
    destruct (Nat.eqb_spec (n_rows X) (n_rows Y)); [|reflexivity].
    destruct (Nat.eqb_spec (n_cols X) (n_cols Y)); [|reflexivity].
    destruct H; contradiction.
  - intros Hr Hc Hn. unfold trapecio.
    rewrite Hr, Hc, !Nat.eqb_refl. cbn [negb orb]. rewrite <- Hc.
    destruct (n_cols X =? 1)%nat; apply trapecio_columns_short; [exact Hn|].
    exact Hn.
Qed.

Lemma trapecio_failures_witness :
  trapecio one_point_t scenario_t
  = Throw (invalid_argument "Arguments 'x' and 'y' must be matrices of the same dimension") /\
  trapecio one_point_t one_point_t
  = Throw (logic_error "Mat::rows(): indices out of bounds or incorrectly used").
Proof.
  split.
  - apply (proj1 (trapecio_failures one_point_t scenario_t)). left. cbn. lia.
  - apply (proj2 (trapecio_failures one_point_t one_point_t)).
    + reflexivity.
    + reflexivity.
    + cbn. lia.
Defined.

Lemma Rsum_app (a b : vec) : Rsum (a ++ b) = Rsum a + Rsum b.
Proof.
  induction a as [|x a IH]; [change (Rsum b = 0 + Rsum b); ring|].
  change (x + Rsum (a ++ b) = x + Rsum a + Rsum b). rewrite IH. ring.
Qed.

Lemma trapezoid_rule_constant (x y : nat -> R) (m : nat) (c : R) :
  (1 <= m)%nat -> (forall k, (k < m)%nat -> y k = c) ->
  trapezoid_rule x y m = c * (x (m - 1)%nat - x 0%nat).
Proof.
  intros Hm Hy. unfold trapezoid_rule.
  destruct m as [|m]; [lia|]. replace (S m - 1)%nat with m by lia.
  assert (G : forall n, (n <= m)%nat ->
            Rsum (map (fun k => (x (S k) - x k) * (y (S k) + y k)) (seq 0 n))
            = 2 * c * (x n - x 0%nat)).
  { induction n as [|n IH]; intros Hn; [cbn; ring|].
    rewrite seq_S, map_app, Rsum_app, IH by lia.
    cbn [map Nat.add Rsum fold_right].
    rewrite (Hy (S n)), (Hy n) by lia. ring. }
  rewrite G by lia. nra.
Qed.

(** X2: [trapecio] integrates a constant exactly.  On a column or a row
    of [m >= 2] grid points, whatever their order and spacing, the
    integral of the constant [c] is [c] times the distance from the first
    grid point to the last. *)
Theorem trapecio_constant (X Y : mat R) (m : nat) (c : R) :
  (2 <= m)%nat ->
  (n_rows X = m /\ n_cols X = 1%nat) \/ (n_rows X = 1%nat /\ n_cols X = m) ->
  n_rows Y = n_rows X -> n_cols Y = n_cols X ->
  (forall k, (k < m)%nat -> lin Y k = c) ->
  trapecio X Y = Ok (mk 1 1 (fun _ _ => c * (lin X (m - 1) - lin X 0))).
Proof.
  intros Hm Hshape Hr Hc Hy.
  rewrite (@trapecio_vector_rule X Y m) by assumption.
  f_equal. apply mk_ext. intros _ _ _ _.
  apply trapezoid_rule_constant; [lia|exact Hy].
Qed.

Lemma trapecio_constant_witness :
  trapecio row_x row_y = Ok (mk 1 1 (fun _ _ => 1 * (lin row_x (3 - 1) - lin row_x 0))).
Proof.
  apply (@trapecio_constant row_x row_y 3 1).
  - lia.
  - right. split; reflexivity.
  - reflexivity.
  - reflexivity.
  - intros k Hk. destruct k as [|[|[|k]]]; [reflexivity|reflexivity|reflexivity|lia].
Defined.

(** *** Distances *)








(** X4: [eucdistance2] does not compare curves of different lengths: as
    soon as there is a query curve and a training curve, a query sample
    whose number of columns differs from that of the training sample is an
    error. *)
Theorem eucdistance2_length_mismatch (X tt x : mat R) :
  n_cols x <> n_cols X -> (1 <= n_rows x)%nat -> (1 <= n_rows X)%nat ->
  eucdistance2 X tt x
  = Throw (logic_error "subtraction: incompatible matrix dimensions").
Proof.
  intros Hx Hnx Hn. unfold eucdistance2, fill_loop.
  replace (n_cols x =? n_cols X)%nat with false by (symmetry; now apply Nat.eqb_neq).
  cbn [negb].
  destruct (n_rows x) as [|nx]; [lia|]. destruct (n_rows X) as [|n]; [lia|].
  reflexivity.
Qed.

Lemma eucdistance2_length_mismatch_witness :
  eucdistance2 scenario_X scenario_t one_point_t
  = Throw (logic_error "subtraction: incompatible matrix dimensions").
Proof.
  apply (@eucdistance2_length_mismatch scenario_X scenario_t one_point_t).
  - cbn. lia.
  - cbn. lia.
  - cbn. lia.
Defined.

(** *** Kernels *)

Lemma nth_map_default {B : Type} (f : B -> R) (l : list B) (d : B) (k : nat) :
  (k < length l)%nat -> nth k (map f l) 0 = f (nth k l d).
Proof.
  intros Hk. rewrite (nth_indep _ 0 (f d)) by (now rewrite length_map).
  apply map_nth.
Qed.

Lemma kernel_constant_pos : 0 < 2 / sqrt (2 * PI).
Proof.
  apply Rdiv_lt_0_compat; [lra|]. apply sqrt_lt_R0. pose proof PI_RGT_0. lra.
Qed.

Lemma exp_le_1 (y : R) : y <= 0 -> exp y <= 1.
Proof.
  intros [Hy|Hy]; [left; rewrite <- exp_0; now apply exp_increasing|].
  rewrite Hy, exp_0. lra.
Qed.

Lemma flushed_exp_nonneg (y : R) : 0 <= flushed_exp y.
Proof. unfold flushed_exp. destruct (Rle_dec y (-745)); [lra|left; apply exp_pos]. Qed.

Lemma flushed_exp_le_1 (y : R) : y <= 0 -> flushed_exp y <= 1.
Proof. intros Hy. unfold flushed_exp. destruct (Rle_dec y (-745)); [lra|now apply exp_le_1]. Qed.

Lemma flushed_exp_0 : flushed_exp 0 = 1.
Proof. unfold flushed_exp. destruct (Rle_dec 0 (-745)); [lra|apply exp_0]. Qed.

(** With [flushed_exp] a distance of 39 bandwidths gets the weight 0. *)
Lemma flushed_exp_underflow : gaussiankernelinicial_with flushed_exp [39] 1 = [0].
Proof.
  unfold gaussiankernelinicial_with, flushed_exp. cbn [map].
  destruct (Rle_dec (- (39 / 1) * (39 / 1) * 0.5) (-745)) as [_|H]; [f_equal; ring|].
  exfalso. apply H. lra.
Qed.

(** At [e := exp] the definitions with an exponential as parameter are
    the ones the other theorems are about. *)
Lemma gaussiankernelinicial_with_exp (x : vec) (h : R) :
  gaussiankernelinicial_with exp x h = gaussiankernelinicial x h.
Proof. reflexivity. Qed.

Lemma nadayara_predicion_with_exp (X tt : mat R) (Y hs : vec)
    (indices1 indices2 : mat nat) (u : mat R) :
  nadayara_predicion_with exp X tt Y hs indices1 indices2 u
  = nadayara_predicion X tt Y hs indices1 indices2 u.
Proof.
  unfold nadayara_predicion_with, nadayara_predicion.
  destruct (eucdistance1 X tt) as [D|]; [|reflexivity]. cbn [bind].
  generalize (seq 0 (n_cols indices1)). intros ls. revert u.
  induction ls as [|l ls IH]; intros u; [reflexivity|].
  cbn [prediction_loop_with prediction_loop].
  change (prediction_fold_with exp D Y hs indices1 indices2 l)
    with (prediction_fold D Y hs indices1 indices2 l).
  destruct (prediction_fold D Y hs indices1 indices2 l); [|reflexivity].
  cbn [bind]. apply IH.
Qed.

(** X5: whatever the exponential returns within its range (not
    negative, 1 at 0, at most 1 below 0: so for one that underflows to 0
    as well), for a bandwidth [h <> 0] [gaussiankernelinicial] returns one
    weight per distance; every weight lies between 0 and [2/sqrt(2 pi)],
    the weight of the distance 0, and the weights of [-x] are those of
    [x]. *)
Theorem gaussiankernelinicial_bounds (e : R -> R) (x : vec) (h : R) :
  (forall y, 0 <= e y) -> (forall y, y <= 0 -> e y <= 1) -> e 0 = 1 -> h <> 0 ->
  length (gaussiankernelinicial_with e x h) = length x /\
  (forall k, (k < length x)%nat ->
     0 <= nth k (gaussiankernelinicial_with e x h) 0 <= 2 / sqrt (2 * PI) /\
     (nth k x 0 = 0 -> nth k (gaussiankernelinicial_with e x h) 0 = 2 / sqrt (2 * PI))) /\
  gaussiankernelinicial_with e (map Ropp x) h = gaussiankernelinicial_with e x h.
Proof.
  intros He0 He1 Hez Hh. pose proof kernel_constant_pos as Hc.
  unfold gaussiankernelinicial_with.
  split; [apply length_map|]. split.
  - intros k Hk.
    rewrite (nth_map_default
               (fun xi => 2 / sqrt (2 * PI) * e (- (xi / h) * (xi / h) * 0.5)) x 0 Hk).
    set (xk := nth k x 0).
    assert (Hy : - (xk / h) * (xk / h) * 0.5 <= 0) by nra.
    pose proof (He0 (- (xk / h) * (xk / h) * 0.5)) as B0.
    pose proof (He1 _ Hy) as B1.
    split; [split; nra|].
    intros E. rewrite E.
    replace (- (0 / h) * (0 / h) * 0.5) with 0 by (unfold Rdiv; ring).
    rewrite Hez. ring.
  - rewrite map_map. apply map_ext. intros d. do 2 f_equal. unfold Rdiv. ring.
Qed.

Lemma gaussiankernelinicial_bounds_witness :
  length (gaussiankernelinicial_with flushed_exp scenario_Y 1) = length scenario_Y /\
  (forall k, (k < length scenario_Y)%nat ->
     0 <= nth k (gaussiankernelinicial_with flushed_exp scenario_Y 1) 0 <= 2 / sqrt (2 * PI) /\
     (nth k scenario_Y 0 = 0 ->
      nth k (gaussiankernelinicial_with flushed_exp scenario_Y 1) 0 = 2 / sqrt (2 * PI))) /\
  gaussiankernelinicial_with flushed_exp (map Ropp scenario_Y) 1
  = gaussiankernelinicial_with flushed_exp scenario_Y 1.
Proof.
  apply (@gaussiankernelinicial_bounds flushed_exp scenario_Y 1).
  - exact flushed_exp_nonneg.
  - exact flushed_exp_le_1.
  - exact flushed_exp_0.
  - lra.
Defined.

(** X6: for a bandwidth [h > 0], [triangular] returns one weight per
    entry; every weight lies between 0 and 35/16, it is 0 for an entry
    below 0 or above [h], and 35/16 for the entry 0. *)
Theorem triangular_bounds (x : vec) (h : R) :
  0 < h ->
  length (triangular x h) = length x /\
  forall k, (k < length x)%nat ->
    0 <= nth k (triangular x h) 0 <= 35 / 16 /\
    (nth k x 0 < 0 \/ h < nth k x 0 -> nth k (triangular x h) 0 = 0) /\
    (nth k x 0 = 0 -> nth k (triangular x h) 0 = 35 / 16).
Proof.
  intros Hh. split; [unfold triangular; apply length_map|].
  intros k Hk. unfold triangular.
  rewrite (nth_map_default _ x 0 Hk).
  set (xk := nth k x 0).
  assert (Hx : xk = xk / h * h) by (field; lra).
  set (u := xk / h) in *.
  destruct (Rlt_dec u 0) as [Hlt|Hge].
  { split; [lra|]. split; [reflexivity|]. intros E. nra. }
  destruct (Rlt_dec 1 u) as [Hgt|Hle].
  { split; [lra|]. split; [reflexivity|]. intros E. nra. }
  assert (Ha : 0 <= 1 - u ^ 2 <= 1) by (simpl; nra).
  set (a := 1 - u ^ 2) in *.
  assert (Ha3 : 0 <= a ^ 3 <= 1).
  { split; [apply pow_le; lra|].
    rewrite <- (pow1 3). apply pow_incr. lra. }
  split; [lra|]. split.
  - intros [E|E]; nra.
  - intros E. assert (Hu : u = 0) by nra.
    unfold a. rewrite Hu. simpl. lra.
Qed.

Lemma triangular_bounds_witness :
  length (triangular scenario_Y 2) = length scenario_Y /\
  forall k, (k < length scenario_Y)%nat ->
    0 <= nth k (triangular scenario_Y 2) 0 <= 35 / 16 /\
    (nth k scenario_Y 0 < 0 \/ 2 < nth k scenario_Y 0 ->
     nth k (triangular scenario_Y 2) 0 = 0) /\
    (nth k scenario_Y 0 = 0 -> nth k (triangular scenario_Y 2) 0 = 35 / 16).
Proof.
  apply (@triangular_bounds scenario_Y 2). lra.
Defined.

(** *** Predictions are weighted means *)





(** *** The in-sample outputs of nadayara_regression *)

(** The in-sample fields of the result, written from the inputs. *)
Lemma nadayara_regression_fields (X tt : mat R) (Y hs : vec) (indices1 indices2 : mat nat) :
  cv_input_ok X tt Y indices1 indices2 = true ->
  exists res,
    nadayara_regression X tt Y hs indices1 indices2 = Ok res /\
    prediction res = in_sample_prediction X tt Y hs /\
    residuals res = in_sample_residuals X tt Y hs /\
    error res = mk (length hs) 1 (fun j _ => in_sample_sse X tt Y hs j) /\
    r2 res = mk (length hs) 1
                (fun j _ => 1 - in_sample_sse X tt Y hs j / total_sum_of_squares Y).
Proof.
  intros Hok. pose proof Hok as Hok'. apply cv_input_ok_spec in Hok.
  destruct Hok as (Hc & Hr & Hm & Hn & HY & Hp & Hv & H1 & H2).
  destruct (@nadayara_regression_total X tt Y hs indices1 indices2 Hok')
    as (res & Hres & _ & _ & _).
  exists res. split; [exact Hres|].
  unfold nadayara_regression in Hres.
  destruct (mean0 Y) as [media|e] eqn:Em; [|discriminate].
  cbn [bind] in Hres. rewrite HY, Nat.eqb_refl in Hres. cbn [negb] in Hres.
  rewrite (eucdistance1_total X tt Hc Hr Hm) in Hres.
  fold (distance_matrix X tt) in Hres. cbn [bind] in Hres.
  destruct (mapM _ _) as [columns|]; [|discriminate].
  cbn [bind] in Hres. injection Hres as <-. cbn [prediction residuals error r2].
  assert (Emedia : media = Rsum Y / INR (length Y)).
  { unfold mean0 in Em. destruct Y; [discriminate|]. now injection Em as <-. }
  subst media. repeat split; reflexivity.
Qed.




(** X9: the in-sample outputs of [nadayara_regression] do not depend on
    the folds: two runs on the same curves, grid, outcomes and bandwidths
    with different well-shaped index matrices return the same
    [prediction], [residuals], [r2] and [error]. *)
Theorem nadayara_regression_in_sample_ignores_folds
    (X tt : mat R) (Y hs : vec) (indices1 indices2 indices1' indices2' : mat nat) :
  cv_input_ok X tt Y indices1 indices2 = true ->
  cv_input_ok X tt Y indices1' indices2' = true ->
  exists res res',
    nadayara_regression X tt Y hs indices1 indices2 = Ok res /\
    nadayara_regression X tt Y hs indices1' indices2' = Ok res' /\
    prediction res = prediction res' /\ residuals res = residuals res' /\
    r2 res = r2 res' /\ error res = error res'.
Proof.
  intros Hok Hok'.
  destruct (@nadayara_regression_fields X tt Y hs indices1 indices2 Hok)
    as (res & Hres & Hp & Hr & He & H2).
  destruct (@nadayara_regression_fields X tt Y hs indices1' indices2' Hok')
    as (res' & Hres' & Hp' & Hr' & He' & H2').
  exists res, res'. repeat split; congruence.
Qed.

Lemma nadayara_regression_in_sample_ignores_folds_witness :
  exists res res',
    nadayara_regression scenario_X scenario_t scenario_Y scenario_hs
                        scenario_train scenario_valid = Ok res /\
    nadayara_regression scenario_X scenario_t scenario_Y scenario_hs
                        no_fold no_fold = Ok res' /\
    prediction res = prediction res' /\ residuals res = residuals res' /\
    r2 res = r2 res' /\ error res = error res'.
Proof.
  apply (@nadayara_regression_in_sample_ignores_folds scenario_X scenario_t scenario_Y
           scenario_hs scenario_train scenario_valid no_fold no_fold).
  - reflexivity.
  - reflexivity.
Defined.

(** *** Indices out of range *)

Lemma mapM_throw {A B : Type} (f : A -> res B) (l : list A) (a : A) :
  In a l -> (exists e, f a = Throw e) -> exists e, mapM f l = Throw e.
Proof.
  induction l as [|x l IH]; intros Hin Hf; [destruct Hin|].
  cbn [mapM]. destruct (f x) as [b|e] eqn:Ex; cbn [bind]; [|now exists e].
  destruct Hin as [->|Hin]; [destruct Hf as [e He]; congruence|].
  destruct (IH Hin Hf) as [e He]. rewrite He. cbn [bind]. now exists e.
Qed.

Lemma vec_select_overrun (v : vec) (idx : list nat) (i : nat) :
  In i idx -> (length v <= i)%nat -> exists e, vec_select v idx = Throw e.
Proof.
  intros Hin Hi. unfold vec_select. apply (mapM_throw _ _ i Hin).
  rewrite (proj2 (nth_error_None v i) Hi). eexists. reflexivity.
Qed.

Lemma In_fold_column (indices : mat nat) (i l : nat) :
  (i < n_rows indices)%nat -> In (get indices i l) (fold_column indices l).
Proof.
  intros Hi. unfold fold_column. apply in_map_iff. exists i.
  split; [reflexivity|]. apply in_seq. lia.
Qed.

Lemma validation_column_overrun (D : mat R) (Y hs : vec) (indices1 indices2 : mat nat)
    (i l : nat) :
  (l < n_cols indices1)%nat ->
  ((i < n_rows indices1)%nat /\ (length Y <= get indices1 i l)%nat) \/
  ((l < n_cols indices2)%nat /\ (i < n_rows indices2)%nat /\
   (length Y <= get indices2 i l)%nat) ->
  exists e, validation_column D Y hs indices1 indices2 l = Throw e.
Proof.
  intros Hl H. unfold validation_column.
  rewrite (col_ok indices1 Hl). cbn [bind].
  fold (fold_column indices1 l).
  destruct (col indices2 l) as [idx2|e] eqn:E2; cbn [bind]; [|now exists e].
  destruct H as [[Hi Hover]|(Hl2 & Hi & Hover)].
  - destruct (@vec_select_overrun Y (fold_column indices1 l) _
                (In_fold_column indices1 l Hi) Hover) as [e He].
    unfold vec in *. rewrite He. cbn [bind]. now exists e.
  - rewrite (col_ok indices2 Hl2) in E2. injection E2 as <-.
    fold (fold_column indices2 l).
    destruct (vec_select Y (fold_column indices1 l)) as [Y1|e]; cbn [bind]; [|now exists e].
    destruct (@vec_select_overrun Y (fold_column indices2 l) _
                (In_fold_column indices2 l Hi) Hover) as [e He].
    unfold vec in *. rewrite He. cbn [bind]. now exists e.
Qed.

(** X10: [nadayara_regression] never clips or wraps an index.  If some
    fold column of [indices1] or [indices2] holds an index that is not
    below the number of outcomes (indices count from 0, so the number of
    rows itself is out of range), the call throws, whatever the other
    inputs are. *)
Theorem nadayara_regression_index_out_of_range
    (X tt : mat R) (Y hs : vec) (indices1 indices2 : mat nat) (i l : nat) :
  (l < n_cols indices1)%nat ->
  ((i < n_rows indices1)%nat /\ (length Y <= get indices1 i l)%nat) \/
  ((l < n_cols indices2)%nat /\ (i < n_rows indices2)%nat /\
   (length Y <= get indices2 i l)%nat) ->
  exists e, nadayara_regression X tt Y hs indices1 indices2 = Throw e.
Proof.
  intros Hl H. unfold nadayara_regression.
  destruct (mean0 Y) as [media|e]; cbn [bind]; [|now exists e].
  destruct (negb (length Y =? n_rows X)%nat); [eexists; reflexivity|].
  destruct (eucdistance1 X tt) as [D|e]; cbn [bind]; [|now exists e].
  destruct (@mapM_throw _ _ (validation_column D Y hs indices1 indices2)
              (seq 0 (n_cols indices1)) l) as [e He].
  - apply in_seq. lia.
  - now apply validation_column_overrun with (i := i).
  - rewrite He. cbn [bind]. now exists e.
Qed.

Lemma nadayara_regression_index_out_of_range_witness :
  exists e, nadayara_regression scenario_X scenario_t scenario_Y scenario_hs
                                overrun_train scenario_valid = Throw e.
Proof.
  apply (@nadayara_regression_index_out_of_range scenario_X scenario_t scenario_Y
           scenario_hs overrun_train scenario_valid 0 1).
  - cbn. lia.
  - left. split; [cbn; lia|]. cbn. lia.
Defined.

(** *** nadayara_predicion *)







(** X12: without any fold column the loop of [nadayara_predicion] never
    runs, and on a well-shaped grid and sample the matrix returned is
    [prediccionesfinales] exactly as it was allocated: whatever the
    uninitialised buffer holds. *)
Theorem nadayara_predicion_without_folds (X tt : mat R) (Y hs : vec)
    (indices1 indices2 : mat nat) (u : mat R) :
  n_cols tt = 1%nat -> n_rows tt = n_cols X -> (2 <= n_cols X)%nat ->
  n_cols indices1 = 0%nat ->
  nadayara_predicion X tt Y hs indices1 indices2 u = Ok u.
Proof.
  intros Hc Hr Hm Hp. unfold nadayara_predicion.
  rewrite (eucdistance1_total X tt Hc Hr Hm), Hp. reflexivity.
Qed.

Lemma nadayara_predicion_without_folds_witness :
  nadayara_predicion scenario_X scenario_t scenario_Y scenario_hs
                     no_fold no_fold (zeros 2 1) = Ok (zeros 2 1).
Proof.
  apply (@nadayara_predicion_without_folds scenario_X scenario_t scenario_Y scenario_hs
           no_fold no_fold (zeros 2 1)).
  - reflexivity.
  - reflexivity.
  - cbn. lia.
  - reflexivity.
Defined.

(** X13: [nadayara_regression] needs a validation row in every fold.
    With at least one fold column and an [indices2] without rows, the mean
    of the validation outcomes of line 207 is empty and reading its first
    element at line 209 throws, whatever the other inputs are. *)
Theorem nadayara_regression_empty_validation_fold
    (X tt : mat R) (Y hs : vec) (indices1 indices2 : mat nat) :
  (1 <= n_cols indices1)%nat -> n_rows indices2 = 0%nat ->
  exists e, nadayara_regression X tt Y hs indices1 indices2 = Throw e.
Proof.
  intros Hp H0. unfold nadayara_regression.
  destruct (mean0 Y) as [media|e]; cbn [bind]; [|now exists e].
  destruct (negb (length Y =? n_rows X)%nat); [eexists; reflexivity|].
  destruct (eucdistance1 X tt) as [D|e]; cbn [bind]; [|now exists e].
  destruct (@mapM_throw _ _ (validation_column D Y hs indices1 indices2)
              (seq 0 (n_cols indices1)) 0%nat) as [e He].
  - apply in_seq. lia.
  - unfold validation_column.
    destruct (col indices1 0) as [idx1|e]; cbn [bind]; [|now exists e].
    destruct (col indices2 0) as [idx2|e] eqn:E2; cbn [bind]; [|now exists e].
    assert (idx2 = []).
    { unfold col in E2. destruct (0 <? n_cols indices2)%nat; [|discriminate].
      rewrite H0 in E2. now injection E2 as <-. }
    subst idx2.
    destruct (vec_select Y idx1) as [Y1|e]; cbn [bind]; [|now exists e].
    unfold select_rows. cbn [forallb bind].
    destruct (select_cols _ idx1) as [D2|e]; cbn [bind]; [|now exists e].
    eexists. reflexivity.
  - rewrite He. cbn [bind]. now exists e.
Qed.

Lemma nadayara_regression_empty_validation_fold_witness :
  exists e, nadayara_regression scenario_X scenario_t scenario_Y scenario_hs
                                scenario_train empty_valid = Throw e.
Proof.
  apply (@nadayara_regression_empty_validation_fold scenario_X scenario_t scenario_Y
           scenario_hs scenario_train empty_valid).
  - cbn. lia.
  - reflexivity.
Defined.

End NadarayaExtras.

(** ** WassersteinRegression.h: further properties *)

Module WassersteinExtras.
Import Arma ArmaFacts Wasserstein WassersteinFacts.
Local Open Scope Q_scope.

(** *** cumtrapz *)

Lemma cumtrapz_unfold (X Y : mat Q) :
  n_rows X = n_rows Y -> n_cols X = n_cols Y ->
  cumtrapz X Y
  = (C1 <- cumtrapz_columns (if (n_rows X =? 1)%nat then t X else X)
                            (if (n_rows X =? 1)%nat then t Y else Y) ;;
     if (n_rows X =? 1)%nat then Ok (t C1) else Ok C1).
Proof.
  intros Hr Hc. unfold cumtrapz, cumtrapz_columns.
  rewrite Hr, Hc, !Nat.eqb_refl. cbn [negb orb]. rewrite <- Hr.
  destruct (rows _ 1 _) as [Xhi|]; cbn [bind]; [|reflexivity].
  destruct (rows _ 0 _) as [Xlo|]; cbn [bind]; [|reflexivity].
  destruct (rows _ 1 _) as [Yhi|]; cbn [bind]; [|reflexivity].
  destruct (rows _ 0 _) as [Ylo|]; cbn [bind]; reflexivity.
Qed.

Lemma cumtrapz_columns_short (X Y : mat Q) :
  (n_rows X < 2)%nat ->
  cumtrapz_columns X Y
  = Throw (logic_error "Mat::rows(): indices out of bounds or incorrectly used").
Proof.
  intros H. unfold cumtrapz_columns.
  destruct (n_rows X) as [|[|n]] eqn:E; [| |lia];
    unfold rows; rewrite E; reflexivity.
Qed.

Lemma Qsum_app (a b : vec) : Qsum (a ++ b) == Qsum a + Qsum b.
Proof.
  induction a as [|x a IH]; [change (Qsum b == 0 + Qsum b); ring|].
  change (x + Qsum (a ++ b) == x + Qsum a + Qsum b). rewrite IH. ring.
Qed.

Lemma Qsum_seq_S (f : nat -> Q) (n : nat) :
  Qsum (map f (seq 0 (S n))) == Qsum (map f (seq 0 n)) + f n.
Proof.
  rewrite seq_S, map_app, Qsum_app. cbn [map Nat.add Qsum fold_right]. ring.
Qed.

Lemma Qsum_scale (a : Q) (f : nat -> Q) (l : list nat) :
  a * Qsum (map f l) == Qsum (map (fun k => a * f k) l).
Proof.
  induction l as [|k l IH]; [change (a * 0 == 0); ring|].
  change (a * (f k + Qsum (map f l)) == a * f k + Qsum (map (fun k => a * f k) l)).
  rewrite <- IH. ring.
Qed.

Lemma get_scale (a : Q) (M : mat Q) (i j : nat) :
  (i < n_rows M)%nat -> (j < n_cols M)%nat -> get (scale a M) i j = a * get M i j.
Proof. intros Hi Hj. unfold scale, mmap. now rewrite get_mk. Qed.

Lemma get_cumsum (M : mat Q) (i j : nat) :
  (i < n_rows M)%nat -> (j < n_cols M)%nat ->
  get (cumsum M) i j = Qsum (map (fun k => get M k j) (seq 0 (S i))).
Proof. intros Hi Hj. unfold cumsum. now rewrite get_mk. Qed.

(** On operands of one shape with at least two rows, lines 68-76 fill
    every column with the running sums of the trapezoid areas. *)
Lemma cumtrapz_columns_ok (X Y : mat Q) :
  (2 <= n_rows X)%nat -> n_rows Y = n_rows X -> n_cols Y = n_cols X ->
  exists C,
    cumtrapz_columns X Y = Ok C /\
    n_rows C = n_rows X /\ n_cols C = n_cols X /\
    (forall j, (j < n_cols X)%nat -> get C 0 j = 0) /\
    (forall i j, (S i < n_rows X)%nat -> (j < n_cols X)%nat ->
       get C (S i) j == get C i j + trapezoid_area X Y i j).
Proof.
  intros Hn HrY HcY. unfold cumtrapz_columns, zeros.
  rewrite !usub_le by lia.
  change 1%N with (N.of_nat 1). change 0%N with (N.of_nat 0).
  rewrite !rows_ok by lia. cbn [bind]. rewrite HcY.
  set (n := n_rows X) in *. set (c := n_cols X) in *.
  match goal with |- context [map2 Qmult ?A ?B] => set (T := map2 Qmult A B) end.
  assert (HTr : n_rows T = (n - 1)%nat) by (cbn; lia).
  assert (HTc : n_cols T = c) by reflexivity.
  assert (HT : forall i j, (i < n - 1)%nat -> (j < c)%nat ->
            (1 # 2) * get T i j = trapezoid_area X Y i j).
  { intros i j Hi Hj. unfold T, map2. cbn [n_rows n_cols mk].
    rewrite !get_mk by lia. reflexivity. }
  clearbody T. rewrite HTr.
  destruct (Nat.eqb_spec (n - 1) 1) as [E|E].
  - rewrite set_row_ok by (cbn [n_rows n_cols mk scale mmap]; lia).
    cbn [bind n_rows n_cols mk].
    eexists. split; [reflexivity|]. split; [reflexivity|]. split; [reflexivity|]. split.
    + intros j Hj. rewrite get_mk by lia. cbn [Nat.eqb]. now rewrite get_mk by lia.
    + intros i j Hi Hj. assert (i = 0%nat) by lia. subst i.
      rewrite !get_mk by lia. cbn [Nat.eqb].
      rewrite get_scale, HT by lia. ring.
  - rewrite set_rows_ok by (cbn [n_rows n_cols mk scale mmap cumsum]; lia).
    cbn [bind n_rows n_cols mk].
    eexists. split; [reflexivity|]. split; [reflexivity|]. split; [reflexivity|].
    assert (Hcum : forall i j, (i < n - 1)%nat -> (j < c)%nat ->
              get (scale (1 # 2) (cumsum T)) i j
              == Qsum (map (fun k => trapezoid_area X Y k j) (seq 0 (S i)))).
    { intros i j Hi Hj.
      rewrite get_scale by (cbn [n_rows n_cols cumsum mk]; lia).
      rewrite get_cumsum by lia. rewrite Qsum_scale.
      rewrite (map_ext_in _ (fun k => trapezoid_area X Y k j)); [reflexivity|].
      intros k Hk. apply in_seq in Hk. apply HT; lia. }
    split.
    + intros j Hj. rewrite get_mk by lia. cbn [Nat.leb andb]. now rewrite get_mk by lia.
    + intros i j Hi Hj. rewrite (get_mk _ (i:=S i)) by lia.
      replace ((1 <=? S i) && (S i <=? n - 1))%nat with true
        by (symmetry; apply andb_true_intro; split; apply Nat.leb_le; lia).
      replace (S i - 1)%nat with i by lia.
      rewrite Hcum by lia. rewrite Qsum_seq_S.
      rewrite (get_mk _ (i:=i)) by lia.
      destruct i as [|i].
      * cbn [Nat.leb andb seq map Qsum fold_right]. rewrite get_mk by lia. ring.
      * replace ((1 <=? S i) && (S i <=? n - 1))%nat with true
          by (symmetry; apply andb_true_intro; split; apply Nat.leb_le; lia).
        replace (S i - 1)%nat with i by lia.
        rewrite Hcum by lia. reflexivity.
Qed.

(** [cumtrapz] on a row of [m >= 2] points. *)
Lemma cumtrapz_row_ok (X Y : mat Q) (m : nat) :
  n_rows X = 1%nat -> n_cols X = m -> (2 <= m)%nat ->
  n_rows Y = 1%nat -> n_cols Y = m ->
  exists R,
    cumtrapz X Y = Ok R /\ n_rows R = 1%nat /\ n_cols R = m /\
    get R 0 0 = 0 /\
    forall k, (S k < m)%nat ->
      get R 0 (S k) == get R 0 k + trapezoid_area (t X) (t Y) k 0.
Proof.
  intros HrX HcX Hm HrY HcY.
  rewrite cumtrapz_unfold by congruence. rewrite HrX. cbn [Nat.eqb].
  destruct (@cumtrapz_columns_ok (t X) (t Y)) as (C & HC & Cr & Cc & C0 & Cs).
  { cbn [t n_rows mk]. lia. }
  { cbn [t n_rows mk]. congruence. }
  { cbn [t n_cols mk]. congruence. }
  cbn [t n_rows n_cols mk] in Cr, Cc, C0, Cs.
  rewrite HC. cbn [bind]. eexists. split; [reflexivity|].
  cbn [t n_rows n_cols mk]. split; [congruence|]. split; [congruence|].
  split.
  - unfold t at 1. rewrite get_mk by lia. apply C0. lia.
  - intros k Hk. unfold t at 1 2. rewrite !get_mk by lia. apply Cs; lia.
Qed.

Lemma trapezoid_area_row (X Y : mat Q) (k : nat) :
  n_rows X = 1%nat -> n_rows Y = 1%nat -> (S k < n_cols X)%nat -> n_cols Y = n_cols X ->
  trapezoid_area (t X) (t Y) k 0
  = (1 # 2) * ((get X 0 (S k) - get X 0 k) * (get Y 0 (S k) + get Y 0 k)).
Proof.
  intros HrX HrY Hk Hc. unfold trapezoid_area, t. now rewrite !get_mk by lia.
Qed.

(** X14: on a row grid [x] of [m >= 2] points and a row [y] of values on
    it, [cumtrapz] returns a row of [m] running integrals: the first is 0
    and each next one adds the area of one trapezoid,
    [(x(k+1) - x(k)) (y(k+1) + y(k)) / 2].  So on a grid that does not
    decrease and values that are not negative the running integral is not
    negative and does not decrease. *)
Theorem cumtrapz_row_running_integral (X Y : mat Q) (m : nat) :
  n_rows X = 1%nat -> n_cols X = m -> (2 <= m)%nat ->
  n_rows Y = 1%nat -> n_cols Y = m ->
  exists R,
    cumtrapz X Y = Ok R /\ n_rows R = 1%nat /\ n_cols R = m /\
    get R 0 0 = 0 /\
    (forall k, (S k < m)%nat ->
       get R 0 (S k)
       == get R 0 k + (1 # 2) * ((get X 0 (S k) - get X 0 k) * (get Y 0 (S k) + get Y 0 k))) /\
    ((forall k, (S k < m)%nat -> get X 0 k <= get X 0 (S k)) ->
     (forall k, (k < m)%nat -> 0 <= get Y 0 k) ->
     forall k, (S k < m)%nat -> 0 <= get R 0 k /\ get R 0 k <= get R 0 (S k)).
Proof.
  intros HrX HcX Hm HrY HcY.
  destruct (@cumtrapz_row_ok X Y m HrX HcX Hm HrY HcY) as (R & HR & Rr & Rc & R0 & Rs).
  exists R. split; [exact HR|]. split; [exact Rr|]. split; [exact Rc|].
  split; [exact R0|].
  assert (Hstep : forall k, (S k < m)%nat ->
            get R 0 (S k)
            == get R 0 k
               + (1 # 2) * ((get X 0 (S k) - get X 0 k) * (get Y 0 (S k) + get Y 0 k))).
  { intros k Hk. rewrite (Rs k Hk).
    rewrite trapezoid_area_row by congruence. reflexivity. }
  split; [exact Hstep|].
  intros Hx Hy.
  assert (Hup : forall k, (S k < m)%nat -> get R 0 k <= get R 0 (S k)).
  { intros k Hk. rewrite (Hstep k Hk).
    pose proof (Hx k Hk). pose proof (Hy k ltac:(lia)). pose proof (Hy (S k) Hk).
    assert (0 <= (get X 0 (S k) - get X 0 k) * (get Y 0 (S k) + get Y 0 k))
      by (apply Qmult_le_0_compat; lra).
    lra. }
  assert (Hpos : forall k, (k < m)%nat -> 0 <= get R 0 k).
  { induction k as [|k IH]; intros Hk; [rewrite R0; lra|].
    pose proof (Hup k Hk). pose proof (IH ltac:(lia)). lra. }
  intros k Hk. split; [apply Hpos; lia|now apply Hup].
Qed.

Lemma cumtrapz_row_running_integral_witness :
  exists R,
    cumtrapz row_grid row_values = Ok R /\ n_rows R = 1%nat /\ n_cols R = 3%nat /\
    get R 0 0 = 0 /\
    (forall k, (S k < 3)%nat ->
       get R 0 (S k)
       == get R 0 k
          + (1 # 2) * ((get row_grid 0 (S k) - get row_grid 0 k)
                       * (get row_values 0 (S k) + get row_values 0 k))) /\
    ((forall k, (S k < 3)%nat -> get row_grid 0 k <= get row_grid 0 (S k)) ->
     (forall k, (k < 3)%nat -> 0 <= get row_values 0 k) ->
     forall k, (S k < 3)%nat -> 0 <= get R 0 k /\ get R 0 k <= get R 0 (S k)).
Proof.
  apply (@cumtrapz_row_running_integral row_grid row_values 3).
  - reflexivity.
  - reflexivity.
  - lia.
  - reflexivity.
  - reflexivity.
Defined.

(** X15: on operands of one shape with at least two rows, [cumtrapz]
    works down every column on its own: the result has the shape of the
    operands, its first row is 0 and each next row adds, column by column,
    the area of one trapezoid. *)
Theorem cumtrapz_columns_running_integral (X Y : mat Q) :
  (2 <= n_rows X)%nat -> n_rows Y = n_rows X -> n_cols Y = n_cols X ->
  exists C,
    cumtrapz X Y = Ok C /\ n_rows C = n_rows X /\ n_cols C = n_cols X /\
    (forall j, (j < n_cols X)%nat -> get C 0 j = 0) /\
    (forall i j, (S i < n_rows X)%nat -> (j < n_cols X)%nat ->
       get C (S i) j
       == get C i j + (1 # 2) * ((get X (S i) j - get X i j) * (get Y (S i) j + get Y i j))).
Proof.
  intros Hn HrY HcY.
  rewrite cumtrapz_unfold by congruence.
  replace (n_rows X =? 1)%nat with false by (symmetry; apply Nat.eqb_neq; lia).
  destruct (@cumtrapz_columns_ok X Y Hn HrY HcY) as (C & HC & Cr & Cc & C0 & Cs).
  rewrite HC. cbn [bind]. exists C. repeat split; assumption.
Qed.

Lemma cumtrapz_columns_running_integral_witness :
  exists C,
    cumtrapz column_grid column_values = Ok C /\
    n_rows C = n_rows column_grid /\ n_cols C = n_cols column_grid /\
    (forall j, (j < n_cols column_grid)%nat -> get C 0 j = 0) /\
    (forall i j, (S i < n_rows column_grid)%nat -> (j < n_cols column_grid)%nat ->
       get C (S i) j
       == get C i j
          + (1 # 2) * ((get column_grid (S i) j - get column_grid i j)
                       * (get column_values (S i) j + get column_values i j))).
Proof.
  apply (@cumtrapz_columns_running_integral column_grid column_values).
  - cbn. lia.
  - reflexivity.
  - reflexivity.
Defined.

(** X16: [cumtrapz] has two failures.  Operands of different shapes are
    refused with [std::invalid_argument]; operands of one shape with no
    row, or with a single row of fewer than two points, make the row range
    [1 .. n-1] invalid, an Armadillo range error. *)
Theorem cumtrapz_failures (X Y : mat Q) :
  (n_rows X <> n_rows Y \/ n_cols X <> n_cols Y ->
   cumtrapz X Y
   = Throw (invalid_argument "Arguments 'x' and 'y' must be matrices of the same dimension")) /\
  (n_rows X = n_rows Y -> n_cols X = n_cols Y ->
   n_rows X = 0%nat \/ (n_rows X = 1%nat /\ (n_cols X < 2)%nat) ->
   cumtrapz X Y
   = Throw (logic_error "Mat::rows(): indices out of bounds or incorrectly used")).
Proof.
  split.
  - intros H. unfold cumtrapz.
    destruct (Nat.eqb_spec (n_rows X) (n_rows Y)); [|reflexivity].
    destruct (Nat.eqb_spec (n_cols X) (n_cols Y)); [|reflexivity].
    destruct H; contradiction.
  - intros Hr Hc H. rewrite cumtrapz_unfold by assumption.
    rewrite cumtrapz_columns_short; [reflexivity|].
    destruct H as [H|[H1 H2]]; rewrite H || rewrite H1; cbn [Nat.eqb]; [lia|].
    cbn [t n_rows mk]. exact H2.
Qed.

Lemma cumtrapz_failures_witness :
  cumtrapz row_grid one_point
  = Throw (invalid_argument "Arguments 'x' and 'y' must be matrices of the same dimension") /\
  cumtrapz one_point one_point
  = Throw (logic_error "Mat::rows(): indices out of bounds or incorrectly used").
Proof.
  split.
  - apply (proj1 (cumtrapz_failures row_grid one_point)). right. cbn. lia.
  - apply (proj2 (cumtrapz_failures one_point one_point)).
    + reflexivity.
    + reflexivity.
    + right. split; [reflexivity|cbn; lia].
Defined.

(** A loop over [s .. s+len-1] whose body keeps an invariant indexed by
    the loop counter. *)
Lemma foldM_seq_invariant {B : Type} (f : B -> nat -> res B) (I : nat -> B -> Prop) :
  forall len s b,
    I s b ->
    (forall j b0, (s <= j < s + len)%nat -> I j b0 -> exists b1, f b0 j = Ok b1 /\ I (S j) b1) ->
    exists b', foldM f (seq s len) b = Ok b' /\ I (s + len)%nat b'.
Proof.
  induction len as [|len IH]; intros s b Hb Hstep.
  - exists b. rewrite Nat.add_0_r. now split.
  - cbn [seq foldM]. destruct (Hstep s b ltac:(lia) Hb) as (b1 & E1 & H1).
    rewrite E1. cbn [bind].
    destruct (IH (S s) b1 H1) as (b' & E' & H').
    { intros j b0 Hj. apply Hstep. lia. }
    exists b'. split; [exact E'|]. now replace (s + S len)%nat with (S s + len)%nat by lia.
Qed.

Lemma vec_elem_ok (v : vec) (i : nat) :
  (i < length v)%nat -> vec_elem v (N.of_nat i) = Ok (nth i v 0).
Proof.
  intros Hi. unfold vec_elem.
  replace (N.of_nat (length v) <=? N.of_nat i)%N with false by (symmetry; apply N.leb_gt; lia).
  now rewrite Nat2N.id.
Qed.

Lemma quantile_functions_ok (tgrid : vec) (qall : mat Q) (Q0all : vec) :
  (2 <= length tgrid)%nat -> n_cols qall = length tgrid -> (n_rows qall <= length Q0all)%nat ->
  exists Qall,
    quantile_functions tgrid qall Q0all = Ok Qall /\
    integrated tgrid qall Q0all (n_rows qall) Qall.
Proof.
  intros Hm Hc HQ0. unfold quantile_functions.
  apply (@foldM_seq_invariant _ _ (integrated tgrid qall Q0all) (n_rows qall) 0%nat).
  - repeat split; cbn [n_rows n_cols mk]; try lia.
  - intros j acc Hj (Ar & Ac1 & Ac0 & Arows).
    rewrite row_ok by lia. cbn [bind].
    set (qrow := mk 1 (n_cols qall) (fun _ c => get qall j c)).
    destruct (@cumtrapz_row_ok (row_of tgrid) qrow (length tgrid))
      as (ct & Hct & ctr & ctc & ct0 & cts);
      [reflexivity|reflexivity|exact Hm|reflexivity|exact Hc|].
    rewrite Hct. cbn [bind]. rewrite vec_elem_ok by lia. cbn [bind].
    unfold join_vert.
    assert (Hjoin : negb (Nat.eqb (n_cols acc) (n_cols (mmap (Qplus (nth j Q0all 0)) ct)))
                    && negb (is_empty acc)
                    && negb (is_empty (mmap (Qplus (nth j Q0all 0)) ct)) = false).
    { cbn [mmap n_cols mk]. destruct j as [|j].
      - unfold is_empty at 1. rewrite Ar, (Ac0 eq_refl). cbn.
        now rewrite andb_false_r.
      - rewrite (Ac1 ltac:(lia)), ctc, Nat.eqb_refl. reflexivity. }
    rewrite Hjoin. eexists. split; [reflexivity|].
    cbn [mmap n_rows n_cols mk].
    assert (Hmax : Nat.max (n_cols acc) (n_cols ct) = length tgrid).
    { destruct j as [|j]; [rewrite (Ac0 eq_refl)|rewrite (Ac1 ltac:(lia))]; lia. }
    unfold integrated, mmap. cbn [n_rows n_cols mk].
    split; [lia|]. split; [intros _; exact Hmax|]. split; [lia|].
    intros r Hr.
    assert (Hget : forall c, (c < length tgrid)%nat ->
              get (mk (n_rows acc + n_rows ct) (Nat.max (n_cols acc) (n_cols ct))
                      (fun i c0 => if (i <? n_rows acc)%nat then get acc i c0
                                   else get (mk (n_rows ct) (n_cols ct)
                                               (fun i0 j0 => nth j Q0all 0 + get ct i0 j0))
                                            (i - n_rows acc) c0)) r c
              = if (r <? j)%nat then get acc r c else nth j Q0all 0 + get ct 0 c).
    { intros c Hcl. rewrite get_mk by lia. rewrite Ar.
      destruct (Nat.ltb_spec r j); [reflexivity|].
      replace (r - j)%nat with 0%nat by lia. now rewrite get_mk by lia. }
    split.
    + rewrite Hget by lia. destruct (Nat.ltb_spec r j) as [Hlt|Hge].
      * apply (Arows r Hlt).
      * replace r with j by lia. rewrite ct0. ring.
    + intros k Hk. rewrite !Hget by lia. destruct (Nat.ltb_spec r j) as [Hlt|Hge].
      * apply (Arows r Hlt). exact Hk.
      * replace r with j by lia. rewrite (cts k Hk).
        rewrite trapezoid_area_row; [|reflexivity|reflexivity|exact Hk|exact Hc].
        unfold row_of, qrow. rewrite !get_mk by lia.
        change (@zero Q _) with 0. ring.
Qed.

(** X17: the loop of lines 280-286 returns one quantile function per row
    of [qall]: on a grid of at least two points it starts at [Q0all(r)]
    and grows between two grid points by the area of the trapezoid under
    the quantile density of the row.  So a quantile density that is not
    negative on a grid that does not decrease gives a quantile function
    that does not decrease. *)
Theorem quantile_functions_integrate_density (tgrid : vec) (qall : mat Q) (Q0all : vec) :
  (2 <= length tgrid)%nat -> n_cols qall = length tgrid -> (n_rows qall <= length Q0all)%nat ->
  exists Qall,
    quantile_functions tgrid qall Q0all = Ok Qall /\
    n_rows Qall = n_rows qall /\
    ((1 <= n_rows qall)%nat -> n_cols Qall = length tgrid) /\
    forall r, (r < n_rows qall)%nat ->
      get Qall r 0 == nth r Q0all 0 /\
      (forall k, (S k < length tgrid)%nat ->
         get Qall r (S k)
         == get Qall r k
            + (1 # 2) * ((nth (S k) tgrid 0 - nth k tgrid 0) * (get qall r (S k) + get qall r k))) /\
      ((forall k, (S k < length tgrid)%nat -> nth k tgrid 0 <= nth (S k) tgrid 0) ->
       (forall k, (k < length tgrid)%nat -> 0 <= get qall r k) ->
       forall k, (S k < length tgrid)%nat -> get Qall r k <= get Qall r (S k)).
Proof.
  intros Hm Hc HQ0.
  destruct (@quantile_functions_ok tgrid qall Q0all Hm Hc HQ0)
    as (Qall & HQ & Qr & Qc & _ & Qrows).
  exists Qall. split; [exact HQ|]. split; [exact Qr|]. split; [exact Qc|].
  intros r Hr. destruct (Qrows r Hr) as [H0 Hs]. split; [exact H0|]. split; [exact Hs|].
  intros Ht Hq k Hk. rewrite (Hs k Hk).
  pose proof (Ht k Hk). pose proof (Hq k ltac:(lia)). pose proof (Hq (S k) Hk).
  assert (0 <= (nth (S k) tgrid 0 - nth k tgrid 0) * (get qall r (S k) + get qall r k))
    by (apply Qmult_le_0_compat; lra).
  lra.
Qed.

Lemma quantile_functions_integrate_density_witness :
  exists Qall,
    quantile_functions grid3 rising_q [1; 2] = Ok Qall /\
    n_rows Qall = n_rows rising_q /\
    ((1 <= n_rows rising_q)%nat -> n_cols Qall = length grid3) /\
    forall r, (r < n_rows rising_q)%nat ->
      get Qall r 0 == nth r [1; 2] 0 /\
      (forall k, (S k < length grid3)%nat ->
         get Qall r (S k)
         == get Qall r k
            + (1 # 2) * ((nth (S k) grid3 0 - nth k grid3 0)
                         * (get rising_q r (S k) + get rising_q r k))) /\
      ((forall k, (S k < length grid3)%nat -> nth k grid3 0 <= nth (S k) grid3 0) ->
       (forall k, (k < length grid3)%nat -> 0 <= get rising_q r k) ->
       forall k, (S k < length grid3)%nat -> get Qall r k <= get Qall r (S k)).
Proof.
  apply (@quantile_functions_integrate_density grid3 rising_q [1; 2]).
  - cbn. lia.
  - reflexivity.
  - cbn. lia.
Defined.

Lemma is_smaller_from_spec (A : mat Q) (i j : nat) :
  forall len s,
    is_smaller_from A i j (seq s len) = true <->
    exists k, (s <= k < s + len)%nat /\
              (forall k', (s <= k' < k)%nat -> get A i k' == get A j k') /\
              get A j k < get A i k.
Proof.
  induction len as [|len IH]; intros s; cbn [seq is_smaller_from].
  - split; [discriminate|]. intros (k & Hk & _). lia.
  - destruct (Qltb (get A j s) (get A i s)) eqn:E1.
    + apply Qltb_lt in E1. split; [intros _|reflexivity].
      exists s. split; [lia|]. split; [intros k' Hk'; lia|exact E1].
    + assert (N1 : ~ get A j s < get A i s) by (rewrite <- Qltb_lt; congruence).
      destruct (Qltb (get A i s) (get A j s)) eqn:E2.
      * apply Qltb_lt in E2. split; [discriminate|].
        intros (k & Hk & Heq & Hlt). exfalso.
        destruct (Nat.eq_dec k s) as [->|Hne]; [lra|].
        pose proof (Heq s ltac:(lia)). lra.
      * assert (N2 : ~ get A i s < get A j s) by (rewrite <- Qltb_lt; congruence).
        assert (Es : get A i s == get A j s) by lra.
        rewrite IH. split.
        -- intros (k & Hk & Heq & Hlt). exists k. split; [lia|]. split; [|exact Hlt].
           intros k' Hk'. destruct (Nat.eq_dec k' s) as [->|Hne]; [exact Es|apply Heq; lia].
        -- intros (k & Hk & Heq & Hlt).
           destruct (Nat.eq_dec k s) as [->|Hne]; [lra|].
           exists k. split; [lia|]. split; [|exact Hlt]. intros k' Hk'. apply Heq. lia.
Qed.

(** X18: [is_smaller(A, i, j)] is true exactly when row [i] comes after
    row [j] in the lexicographic order: the rows agree up to some column
    where row [i] holds the greater value.  So no row is smaller than
    itself and of two rows at most one is smaller than the other. *)
Theorem is_smaller_lexicographic (A : mat Q) (i j : nat) :
  (i < n_rows A)%nat -> (j < n_rows A)%nat ->
  (is_smaller A i j = true <->
   exists k, (k < n_cols A)%nat /\
             (forall k', (k' < k)%nat -> get A i k' == get A j k') /\
             get A j k < get A i k) /\
  is_smaller A i i = false /\
  (is_smaller A i j = true -> is_smaller A j i = false).
Proof.
  intros _ _.
  assert (Hspec : forall a b,
            is_smaller A a b = true <->
            exists k, (k < n_cols A)%nat /\
                      (forall k', (k' < k)%nat -> get A a k' == get A b k') /\
                      get A b k < get A a k).
  { intros a b. unfold is_smaller. rewrite is_smaller_from_spec. split.
    - intros (k & Hk & Heq & Hlt). exists k. split; [lia|]. split; [|exact Hlt].
      intros k' Hk'. apply Heq. lia.
    - intros (k & Hk & Heq & Hlt). exists k. split; [lia|]. split; [|exact Hlt].
      intros k' Hk'. apply Heq. lia. }
  split; [apply Hspec|]. split.
  - destruct (is_smaller A i i) eqn:E; [|reflexivity].
    apply Hspec in E. destruct E as (k & _ & _ & Hlt). lra.
  - intros Hij. destruct (is_smaller A j i) eqn:E; [|reflexivity].
    apply Hspec in Hij. apply Hspec in E.
    destruct Hij as (k & _ & Heq & Hlt). destruct E as (k2 & _ & Heq2 & Hlt2).
    exfalso. destruct (Nat.lt_trichotomy k k2) as [H|[H|H]].
    + pose proof (Heq2 k H). lra.
    + subst k2. lra.
    + pose proof (Heq k2 H). lra.
Qed.

Lemma is_smaller_lexicographic_witness :
  (is_smaller tied_rows 1 0 = true <->
   exists k, (k < n_cols tied_rows)%nat /\
             (forall k', (k' < k)%nat -> get tied_rows 1 k' == get tied_rows 0 k') /\
             get tied_rows 0 k < get tied_rows 1 k) /\
  is_smaller tied_rows 1 1 = false /\
  (is_smaller tied_rows 1 0 = true -> is_smaller tied_rows 0 1 = false).
Proof.
  apply (@is_smaller_lexicographic tied_rows 1 0).
  - cbn. lia.
  - cbn. lia.
Defined.

Lemma find_index_from_first (C : mat Q) (a : vec) :
  forall len s i,
    (s <= i < s + len)%nat -> approx_equal_absdiff a (row_vec C i) tol = true ->
    (s <= find_index_from C a (seq s len) <= i)%nat /\
    approx_equal_absdiff a (row_vec C (find_index_from C a (seq s len))) tol = true /\
    forall i', (s <= i' < find_index_from C a (seq s len))%nat ->
      approx_equal_absdiff a (row_vec C i') tol = false.
Proof.
  induction len as [|len IH]; intros s i Hi Hm; [lia|].
  cbn [seq find_index_from].
  destruct (approx_equal_absdiff a (row_vec C s) tol) eqn:E.
  - split; [lia|]. split; [exact E|]. intros i' Hi'. lia.
  - assert (Hne : i <> s) by (intros ->; congruence).
    destruct (IH (S s) i ltac:(lia) Hm) as (H1 & H2 & H3).
    split; [lia|]. split; [exact H2|].
    intros i' Hi'. destruct (Nat.eq_dec i' s) as [->|Hne']; [exact E|apply H3; lia].
Qed.

(** X19: when some row of [C] equals [rowA] within the tolerance,
    [find_index] returns the first such row: the row it names matches and
    no row before it does. *)
Theorem find_index_first_match (C : mat Q) (rowA : vec) (i : nat) :
  (i < n_rows C)%nat -> approx_equal_absdiff rowA (row_vec C i) tol = true ->
  (find_index C rowA <= i)%nat /\
  approx_equal_absdiff rowA (row_vec C (find_index C rowA)) tol = true /\
  forall i', (i' < find_index C rowA)%nat ->
    approx_equal_absdiff rowA (row_vec C i') tol = false.
Proof.
  intros Hi Hm. unfold find_index.
  destruct (@find_index_from_first C rowA (n_rows C) 0%nat i ltac:(lia) Hm) as (H1 & H2 & H3).
  split; [lia|]. split; [exact H2|]. intros i' Hi'. apply H3. lia.
Qed.

Lemma find_index_first_match_witness :
  (find_index two_rows [1%Q] <= 1)%nat /\
  approx_equal_absdiff [1] (row_vec two_rows (find_index two_rows [1])) tol = true /\
  forall i', (i' < find_index two_rows [1%Q])%nat ->
    approx_equal_absdiff [1] (row_vec two_rows i') tol = false.
Proof.
  apply (@find_index_first_match two_rows [1] 1).
  - cbn. lia.
  - reflexivity.
Defined.

(** *** Row canonicalization *)

Lemma approx_equal_sym (a b : vec) :
  approx_equal_absdiff a b tol = approx_equal_absdiff b a tol.
Proof.
  unfold approx_equal_absdiff. rewrite (Nat.eqb_sym (length a) (length b)). f_equal.
  revert b. induction a as [|x a IH]; intros [|y b]; cbn [combine forallb fst snd]; try reflexivity.
  rewrite IH. f_equal.
  assert (E : Qabs (x - y) == Qabs (y - x)).
  { rewrite <- (Qabs_opp (x - y)). apply Qabs_wd. ring. }
  destruct (Qle_bool (Qabs (x - y)) tol) eqn:E1, (Qle_bool (Qabs (y - x)) tol) eqn:E2;
    try reflexivity; exfalso.
  - apply Qle_bool_iff in E1. rewrite E in E1. apply Qle_bool_iff in E1. congruence.
  - apply Qle_bool_iff in E2. rewrite <- E in E2. apply Qle_bool_iff in E2. congruence.
Qed.

Lemma first_seen_apart (reps : list vec) (a : vec) :
  apart reps -> apart (first_seen reps a).
Proof.
  intros H. unfold first_seen.
  destruct (existsb (fun r => approx_equal_absdiff a r tol) reps) eqn:E; [exact H|].
  intros p q Hpq. rewrite length_app in Hpq. cbn [length] in Hpq.
  destruct (Nat.eq_dec q (length reps)) as [->|Hne].
  - rewrite nth_middle. rewrite app_nth1 by lia.
    destruct (approx_equal_absdiff a (nth p reps []) tol) eqn:E2; [|reflexivity].
    assert (existsb (fun r => approx_equal_absdiff a r tol) reps = true).
    { apply existsb_exists. exists (nth p reps []). split; [apply nth_In; lia|exact E2]. }
    congruence.
  - rewrite !app_nth1 by lia. apply H. lia.
Qed.

Lemma unique_prefix_apart (A : mat Q) : apart (unique_prefix A).
Proof.
  unfold unique_prefix.
  assert (G : forall l reps0, apart reps0 -> apart (fold_left first_seen l reps0)).
  { induction l as [|a l IH]; intros reps0 H; cbn [fold_left]; [exact H|].
    apply IH, first_seen_apart, H. }
  apply G. intros p q Hpq. cbn [length] in Hpq. lia.
Qed.

Lemma covers_injective (n : nat) (l : list nat) (k k' : nat) :
  covers n l -> (k < n)%nat -> (k' < n)%nat -> nth k l 0%nat = nth k' l 0%nat -> k = k'.
Proof.
  intros (Hlen & Hsur & _) Hk Hk' E.
  assert (Hnd : NoDup l).
  { apply (@NoDup_incl_NoDup _ (seq 0 n) l (seq_NoDup n 0)).
    - rewrite length_seq. lia.
    - intros p Hp. apply in_seq in Hp. destruct (Hsur p ltac:(lia)) as (j & Hj & <-).
      apply nth_In. lia. }
  apply (proj1 (NoDup_nth l 0%nat) Hnd); [lia|lia|exact E].
Qed.

(** The rows of the matrix [C] returned by [ic_unique_rows] are the kept
    rows in the order of the exchanged indices. *)
Lemma ic_unique_rows_rows (sort_index : vec -> list nat) (A : mat Q) :
  (forall v, Permutation (sort_index v) (seq 0 (length v))) ->
  (1 <= n_rows A)%nat -> (1 <= n_cols A)%nat ->
  exists C ic indices,
    ic_unique_rows sort_index A = Ok (C, ic) /\
    n_rows C = length (unique_prefix A) /\
    n_cols C = n_cols A /\
    covers (length (unique_prefix A)) indices /\
    ic = List.map (fun i => find_index C (row_vec A i)) (seq 0 (n_rows A)) /\
    forall k, (k < length (unique_prefix A))%nat ->
      row_vec C k = nth (nth k indices 0%nat) (unique_prefix A) [].
Proof.
  intros sort_index_permutation Hr Hc.
  destruct (unique_prefix_length A) as [Hle Hge]. specialize (Hge Hr).
  destruct (unique_prefix_spec A) as [Hall Hreps].
  unfold ic_unique_rows.
  set (reps := unique_prefix A) in *.
  set (count := length reps) in *.
  rewrite usub_le by lia.
  change 0%N with (N.of_nat 0).
  rewrite rows_ok by (cbn [n_rows mk]; lia).
  cbn [bind n_cols n_rows mk].
  set (B := mk (count - 1 - 0 + 1) (n_cols A)
               (fun i j => get (mk (n_rows A) (n_cols A)
                                   (fun i0 j0 => nth j0 (nth i0 reps []) 0)) (0 + i) j)).
  assert (HBr : n_rows B = count) by (cbn; lia).
  assert (HBc : n_cols B = n_cols A) by reflexivity.
  rewrite col_ok by (rewrite HBc; lia). cbn [bind].
  set (col0 := List.map (fun i => get B i 0) (seq 0 (n_rows B))).
  set (indices := tie_order B (sort_index col0)).
  assert (Hlen0 : length (sort_index col0) = count).
  { rewrite (Permutation_length (sort_index_permutation col0)), length_seq.
    unfold col0. now rewrite length_map, length_seq. }
  assert (Hcov : covers count indices).
  { unfold indices. rewrite <- Hlen0. apply covers_tie_order, covers_of_permutation.
    rewrite (Permutation_length (sort_index_permutation col0)), length_seq.
    apply sort_index_permutation. }
  set (C := mk (n_rows B) (n_cols B) (fun i j => get B (nth i indices 0%nat) j)).
  exists C, (List.map (fun i => find_index C (row_vec A i)) (seq 0 (n_rows A))), indices.
  split; [reflexivity|]. split; [exact HBr|]. split; [reflexivity|].
  split; [exact Hcov|]. split; [reflexivity|].
  destruct Hcov as (Hlen & Hsur & Hrange).
  intros k Hk. unfold row_vec. cbn [n_cols C mk].
  specialize (Hrange k Hk).
  assert (Hin : In (nth (nth k indices 0%nat) reps []) reps) by (apply nth_In; exact Hrange).
  destruct (Hreps _ Hin) as (i' & _ & Ei').
  assert (Hl : length (nth (nth k indices 0%nat) reps []) = n_cols A)
    by (rewrite Ei'; apply length_row_vec).
  rewrite <- (map_nth_id (nth (nth k indices 0%nat) reps [])).
  rewrite Hl. change (n_cols C) with (n_cols A).
  apply map_ext_in. intros j Hj. apply in_seq in Hj.
  unfold C. rewrite get_mk by (rewrite ?HBr, ?HBc; lia).
  unfold B. rewrite get_mk by lia. rewrite get_mk by lia. reflexivity.
Qed.

(** X20: the matrix of representatives returned by [ic_unique_rows] is
    made of rows of the input, no two of them within the tolerance of one
    another, so that [find_index] sends every representative to its own
    row number. *)
Theorem ic_unique_rows_representatives (sort_index : vec -> list nat) (A : mat Q) :
  (forall v, Permutation (sort_index v) (seq 0 (length v))) ->
  (1 <= n_rows A)%nat -> (1 <= n_cols A)%nat ->
  exists C ic,
    ic_unique_rows sort_index A = Ok (C, ic) /\
    (forall k, (k < n_rows C)%nat -> exists i, (i < n_rows A)%nat /\ row_vec C k = row_vec A i) /\
    (forall k k', (k < n_rows C)%nat -> (k' < n_rows C)%nat -> k <> k' ->
       approx_equal_absdiff (row_vec C k) (row_vec C k') tol = false) /\
    (forall k, (k < n_rows C)%nat -> find_index C (row_vec C k) = k).
Proof.
  intros Hperm Hr Hc.
  destruct (@ic_unique_rows_rows sort_index A Hperm Hr Hc)
    as (C & ic & indices & Hrun & HCr & HCc & Hcov & Hic & Hrows).
  exists C, ic. split; [exact Hrun|].
  assert (Hfrom : forall k, (k < n_rows C)%nat ->
            exists i, (i < n_rows A)%nat /\ row_vec C k = row_vec A i).
  { intros k Hk. rewrite HCr in Hk. rewrite (Hrows k Hk).
    apply (proj2 (unique_prefix_spec A)). apply nth_In.
    apply (proj2 (proj2 Hcov)). exact Hk. }
  assert (Hapart : forall k k', (k < n_rows C)%nat -> (k' < n_rows C)%nat -> k <> k' ->
            approx_equal_absdiff (row_vec C k) (row_vec C k') tol = false).
  { intros k k' Hk Hk' Hne. rewrite HCr in Hk, Hk'.
    rewrite (Hrows k Hk), (Hrows k' Hk').
    pose proof (proj2 (proj2 Hcov) k Hk) as Rk.
    pose proof (proj2 (proj2 Hcov) k' Hk') as Rk'.
    assert (Hd : nth k indices 0%nat <> nth k' indices 0%nat).
    { intros E. apply Hne. eapply covers_injective; eauto. }
    destruct (Nat.lt_trichotomy (nth k indices 0%nat) (nth k' indices 0%nat)) as [H|[H|H]];
      [|contradiction|].
    - rewrite approx_equal_sym. apply unique_prefix_apart. lia.
    - apply unique_prefix_apart. lia. }
  split; [exact Hfrom|]. split; [exact Hapart|].
  intros k Hk.
  destruct (@find_index_from_first C (row_vec C k) (n_rows C) 0%nat k ltac:(lia)
              (approx_equal_refl _)) as (H1 & H2 & _).
  fold (find_index C (row_vec C k)) in H1, H2.
  destruct (Nat.eq_dec (find_index C (row_vec C k)) k) as [E|Hne]; [exact E|].
  rewrite (Hapart k (find_index C (row_vec C k)) Hk ltac:(lia) ltac:(lia)) in H2.
  discriminate.
Qed.

Lemma ic_unique_rows_representatives_witness :
  exists C ic,
    ic_unique_rows stable_sort_index tied_rows = Ok (C, ic) /\
    (forall k, (k < n_rows C)%nat ->
       exists i, (i < n_rows tied_rows)%nat /\ row_vec C k = row_vec tied_rows i) /\
    (forall k k', (k < n_rows C)%nat -> (k' < n_rows C)%nat -> k <> k' ->
       approx_equal_absdiff (row_vec C k) (row_vec C k') tol = false) /\
    (forall k, (k < n_rows C)%nat -> find_index C (row_vec C k) = k).
Proof.
  apply (@ic_unique_rows_representatives stable_sort_index tied_rows).
  - exact stable_sort_index_permutation.
  - cbn. lia.
  - cbn. lia.
Defined.

(** X21: [ic_unique_rows] fails on a matrix without rows, where
    [count - 1] wraps around and the row range [0 .. count-1] is refused,
    and on a matrix with rows but no column, which has no column 0 to
    sort on. *)
Theorem ic_unique_rows_failures (sort_index : vec -> list nat) (A : mat Q) :
  (n_rows A = 0%nat ->
   ic_unique_rows sort_index A
   = Throw (logic_error "Mat::rows(): indices out of bounds or incorrectly used")) /\
  ((1 <= n_rows A)%nat -> n_cols A = 0%nat ->
   ic_unique_rows sort_index A = Throw (logic_error "Mat::col(): index out of bounds")).
Proof.
  split.
  - intros H0. unfold ic_unique_rows, unique_prefix. rewrite H0. reflexivity.
  - intros Hr Hc.
    destruct (unique_prefix_length A) as [Hle Hge]. specialize (Hge Hr).
    unfold ic_unique_rows.
    rewrite usub_le by lia. change 0%N with (N.of_nat 0).
    rewrite rows_ok by (cbn [n_rows mk]; lia).
    cbn [bind]. unfold col. cbn [n_cols mk]. rewrite Hc. reflexivity.
Qed.

Lemma ic_unique_rows_failures_witness :
  ic_unique_rows stable_sort_index no_rows
  = Throw (logic_error "Mat::rows(): indices out of bounds or incorrectly used") /\
  ic_unique_rows stable_sort_index no_columns
  = Throw (logic_error "Mat::col(): index out of bounds").
Proof.
  split.
  - apply (proj1 (ic_unique_rows_failures stable_sort_index no_rows)). reflexivity.
  - apply (proj2 (ic_unique_rows_failures stable_sort_index no_columns)).
    + cbn. lia.
    + reflexivity.
Defined.

(** *** getcC *)

Lemma length_diff (v : vec) : length (diff v) = (length v - 1)%nat.
Proof.
  induction v as [|x [|y v] IH]; try reflexivity.
  change (diff (x :: y :: v)) with (y - x :: diff (y :: v)).
  cbn [length] in *. lia.
Qed.

Lemma length_vadd (a b : vec) : length (vadd a b) = Nat.min (length a) (length b).
Proof. unfold vadd. now rewrite length_map, length_combine. Qed.

Lemma length_vscale (x : Q) (v : vec) : length (vscale x v) = length v.
Proof. unfold vscale. apply length_map. Qed.

Lemma fold_left_invariant {A B : Type} (f : B -> A -> B) (P : B -> Prop) (l : list A) (b : B) :
  P b -> (forall a b0, In a l -> P b0 -> P (f b0 a)) -> P (fold_left f l b).
Proof.
  revert b. induction l as [|a l IH]; intros b Hb Hstep; cbn [fold_left]; [exact Hb|].
  apply IH.
  - apply Hstep; [now left|exact Hb].
  - intros a' b0 Hin. apply Hstep. now right.
Qed.

Lemma getcC_ok (tgrid : vec) :
  (2 <= length tgrid)%nat ->
  exists c C,
    getcC tgrid = Ok (c, C) /\
    length c = length tgrid /\ n_rows C = length tgrid /\ n_cols C = length tgrid /\
    forall i j, (i < length tgrid)%nat -> (j < length tgrid)%nat -> get C i j == get C j i.
Proof.
  intros Hm. unfold getcC.
  pose proof (length_diff tgrid) as Hd.
  set (deltaT := diff tgrid) in *.
  rewrite usub_le by lia. rewrite vec_elem_ok by lia. cbn [bind].
  rewrite Nat2N.id.
  set (bm := vscale (1 # 2) (vadd (deltaT ++ [0]) (0 :: deltaT))).
  assert (Hbm : length bm = length tgrid).
  { unfold bm. rewrite length_vscale, length_vadd, length_app. cbn [length]. lia. }
  set (dm := nth (length deltaT - 1) deltaT 0).
  match goal with
  | |- exists c C, Ok (fold_left ?f ?l ?b) = _ /\ _ =>
      set (step := f); set (start := b);
      assert (Hinv : (fun cC : vec * mat Q =>
                        length (fst cC) = length tgrid /\
                        n_rows (snd cC) = length tgrid /\ n_cols (snd cC) = length tgrid /\
                        forall i j, (i < length tgrid)%nat -> (j < length tgrid)%nat ->
                          get (snd cC) i j == get (snd cC) j i)
                     (fold_left step l start))
  end.
  { apply fold_left_invariant.
    - unfold start. cbn [fst snd]. rewrite length_vscale.
      unfold scale, mmap, outer. cbn [n_rows n_cols mk].
      split; [exact Hbm|]. split; [exact Hbm|]. split; [exact Hbm|].
      intros i j Hi Hj. rewrite !get_mk by lia. ring.
    - intros k [c C] Hk (Hc & HCr & HCc & Hsym). apply in_seq in Hk.
      unfold step. cbn [fst snd] in *.
      match goal with
      | |- context [outer ?b ?b] => set (bk := b)
      end.
      assert (Hbk : length bk = length tgrid).
      { unfold bk. rewrite length_vscale, length_app, length_vadd, !length_firstn, repeat_length.
        rewrite length_app. cbn [length]. lia. }
      rewrite length_vadd, length_vscale, Hbk, Hc.
      unfold map2, scale, mmap, outer. cbn [n_rows n_cols mk].
      split; [lia|]. split; [exact HCr|]. split; [exact HCc|].
      intros i j Hi Hj. rewrite !get_mk by lia. rewrite (Hsym i j Hi Hj). ring. }
  destruct (fold_left step _ start) as [c C]. cbn [fst snd] in Hinv.
  exists c, C. split; [reflexivity|]. exact Hinv.
Qed.

(** X22: on a grid of [m >= 2] points [getcC] returns a vector [c] of
    length [m] and a symmetric [m x m] matrix [C]; on a shorter grid the
    read [deltaT(m)] is out of bounds. *)
Theorem getcC_shape_and_symmetry (tgrid : vec) :
  ((2 <= length tgrid)%nat ->
   exists c C,
     getcC tgrid = Ok (c, C) /\
     length c = length tgrid /\ n_rows C = length tgrid /\ n_cols C = length tgrid /\
     forall i j, (i < length tgrid)%nat -> (j < length tgrid)%nat -> get C i j == get C j i) /\
  ((length tgrid < 2)%nat ->
   getcC tgrid = Throw (logic_error "Mat::operator(): index out of bounds")).
Proof.
  split; [apply getcC_ok|].
  intros Hm. unfold getcC.
  pose proof (length_diff tgrid) as Hd.
  destruct (diff tgrid) as [|x d]; [reflexivity|]. cbn [length] in Hd. lia.
Qed.

Lemma getcC_shape_and_symmetry_witness :
  (exists c C,
     getcC grid3 = Ok (c, C) /\
     length c = length grid3 /\ n_rows C = length grid3 /\ n_cols C = length grid3 /\
     forall i j, (i < length grid3)%nat -> (j < length grid3)%nat -> get C i j == get C j i) /\
  getcC far_row = Throw (logic_error "Mat::operator(): index out of bounds").
Proof.
  split.
  - apply (proj1 (getcC_shape_and_symmetry grid3)). cbn. lia.
  - apply (proj2 (getcC_shape_and_symmetry far_row)). cbn. lia.
Defined.

(** *** The projection of a flagged row *)

Lemma subvec_ok {A : Type} (v : list A) (a b : nat) :
  (a <= b)%nat -> (b < length v)%nat ->
  subvec v (N.of_nat a) (N.of_nat b) = Ok (firstn (b - a + 1) (skipn a v)).
Proof.
  intros Hab Hb. unfold subvec.
  replace (N.of_nat b <? N.of_nat a)%N with false by (symmetry; apply N.ltb_ge; lia).
  replace (N.of_nat (length v) <=? N.of_nat b)%N with false by (symmetry; apply N.leb_gt; lia).
  cbn [orb]. now rewrite !Nat2N.id.
Qed.

Lemma subvec_tail (x : vec) :
  (2 <= length x)%nat -> subvec x 1 (usub (length x) 1) = Ok (tl x).
Proof.
  intros Hx. rewrite usub_le by lia. change 1%N with (N.of_nat 1).
  rewrite subvec_ok by lia. destruct x as [|x0 x]; [cbn in Hx; lia|].
  cbn [skipn tl length]. f_equal. apply firstn_all2. cbn [length]. lia.
Qed.

(** X23: when the solver returns a solution [x] of the program of a
    flagged row, with one entry more than the grid has points, the body of
    the loop writes [x(1 .. m)] into the row of [qall] and [x(0)] into the
    entry of [Q0all]; it writes no warning and touches no other row. *)
Theorem solved_row_is_written
    (quadprog : mat Q -> vec -> mat Q -> mat Q -> res vec)
    (D V1 v1 V2 : mat Q) (c : vec) (C : mat Q)
    (qall : mat Q) (Q0all : vec) (log : list string) (row : nat)
    (d : vec) (V v : mat Q) (x : vec) :
  (row < n_rows qall)%nat -> (row < length Q0all)%nat -> (1 <= n_cols qall)%nat ->
  qp_instance V1 v1 V2 c C (nth row Q0all 0) (row_vec qall row) = Ok (d, V, v) ->
  quadprog D d V (t v) = Ok x -> length x = S (n_cols qall) ->
  exists qall',
    qp_row quadprog D V1 v1 V2 c C (qall, Q0all, log) row
    = Ok (qall', vec_set Q0all row (nth 0 x 0), log) /\
    n_rows qall' = n_rows qall /\ n_cols qall' = n_cols qall /\
    (forall j, (j < n_cols qall)%nat -> get qall' row j = nth (S j) x 0) /\
    nth row (vec_set Q0all row (nth 0 x 0)) 0 = nth 0 x 0 /\
    (forall i j, (i < n_rows qall)%nat -> (j < n_cols qall)%nat -> i <> row ->
       get qall' i j = get qall i j) /\
    (forall i, i <> row -> nth i (vec_set Q0all row (nth 0 x 0)) 0 = nth i Q0all 0).
Proof.
  intros Hrow HQ0 Hm Hinst Hsol Hx.
  unfold qp_row. rewrite vec_elem_ok by exact HQ0.
  cbn [bind]. rewrite Hinst. cbn [bind]. rewrite Hsol.
  rewrite subvec_tail by lia. cbn [bind].
  assert (Htl : length (tl x) = n_cols qall) by (destruct x; cbn in *; lia).
  rewrite set_row_ok; [|exact Hrow|reflexivity|cbn; exact Htl].
  cbn [bind]. change 0%N with (N.of_nat 0). rewrite vec_elem_ok by lia. cbn [bind].
  eexists. split; [reflexivity|].
  split; [reflexivity|]. split; [reflexivity|].
  split; [|split; [|split]].
  - intros j Hj. rewrite get_mk by lia. rewrite Nat.eqb_refl.
    unfold row_of. rewrite get_mk by lia.
    destruct x as [|x0 x]; [cbn in Hx; lia|]. reflexivity.
  - rewrite nth_vec_set by exact HQ0. now rewrite Nat.eqb_refl.
  - intros i j Hi Hj Hne. rewrite get_mk by lia.
    destruct (Nat.eqb_spec i row); [contradiction|reflexivity].
  - intros i Hne. rewrite nth_vec_set by exact HQ0.
    destruct (Nat.eqb_spec i row); [contradiction|reflexivity].
Qed.

Lemma solved_row_is_written_witness :
  let '(D, V1, v1, V2) := scenario_c_qp in
  let '(c, C) := scenario_c_cC in
  let '(qall, Q0all) := scenario_c_ols in
  exists qall',
    qp_row (quadprog_returns [5; 1; 2; 3]) D V1 v1 V2 c C (qall, Q0all, []) 3
    = Ok (qall', vec_set Q0all 3 (nth 0 [5; 1; 2; 3] 0), []) /\
    n_rows qall' = n_rows qall /\ n_cols qall' = n_cols qall /\
    (forall j, (j < n_cols qall)%nat -> get qall' 3 j = nth (S j) [5; 1; 2; 3] 0) /\
    nth 3 (vec_set Q0all 3 (nth 0 [5; 1; 2; 3] 0)) 0 = nth 0 [5; 1; 2; 3] 0 /\
    (forall i j, (i < n_rows qall)%nat -> (j < n_cols qall)%nat -> i <> 3%nat ->
       get qall' i j = get qall i j) /\
    (forall i, i <> 3%nat -> nth i (vec_set Q0all 3 (nth 0 [5; 1; 2; 3] 0)) 0 = nth i Q0all 0).
Proof.
  cbv beta iota delta [scenario_c_qp scenario_c_cC scenario_c_ols].
  eapply (@solved_row_is_written (quadprog_returns [5; 1; 2; 3])).
  - cbn. lia.
  - cbn. lia.
  - cbn. lia.
  - vm_compute. reflexivity.
  - reflexivity.
  - reflexivity.
Defined.

(** *** What a completed run returns *)

Lemma foldM_ok_steps {A B : Type} (f : B -> A -> res B) (l : list A) :
  forall b b', foldM f l b = Ok b' ->
  forall a, In a l -> exists b0 b1, f b0 a = Ok b1.
Proof.
  induction l as [|x l IH]; intros b b' H a Hin; [destruct Hin|].
  cbn [foldM] in H. destruct (f b x) as [b1|] eqn:E; cbn [bind] in H; [|discriminate].
  destruct Hin as [<-|Hin]; [now exists b, b1|]. eapply IH; eauto.
Qed.

(** A run of the loop of lines 280-286 that completes on at least one
    row tells the shape of its operands. *)
Lemma quantile_functions_inv (tgrid : vec) (qall : mat Q) (Q0all : vec) (Qall : mat Q) :
  quantile_functions tgrid qall Q0all = Ok Qall -> (1 <= n_rows qall)%nat ->
  (2 <= length tgrid)%nat /\ n_cols qall = length tgrid /\ (n_rows qall <= length Q0all)%nat.
Proof.
  intros H Hr. unfold quantile_functions in H.
  assert (Hstep : forall j, (j < n_rows qall)%nat ->
            (2 <= length tgrid)%nat /\ n_cols qall = length tgrid /\ (j < length Q0all)%nat).
  { intros j Hj.
    destruct (foldM_ok_steps _ _ _ H j) as (b0 & b1 & E); [apply in_seq; lia|].
    rewrite row_ok in E by exact Hj. cbn [bind] in E.
    set (qrow := mk 1 (n_cols qall) (fun _ c => get qall j c)) in E.
    destruct (cumtrapz (row_of tgrid) qrow) as [ct|] eqn:Ect; cbn [bind] in E; [|discriminate].
    destruct (vec_elem Q0all (N.of_nat j)) as [q0|] eqn:Eq0; cbn [bind] in E; [|discriminate].
    assert (Hc : n_cols qall = length tgrid).
    { unfold cumtrapz in Ect. cbn [row_of qrow n_rows n_cols mk] in Ect.
      destruct (Nat.eqb_spec (length tgrid) (n_cols qall)) as [Ec|Ec];
        [now symmetry|].
      cbn in Ect. discriminate. }
    assert (Hm : (2 <= length tgrid)%nat).
    { destruct (Nat.le_gt_cases 2 (length tgrid)) as [Hge|Hlt]; [exact Hge|exfalso].
      rewrite cumtrapz_unfold in Ect by (cbn [row_of qrow n_rows n_cols mk]; congruence).
      rewrite cumtrapz_columns_short in Ect; [discriminate|].
      cbn [row_of n_rows n_cols mk Nat.eqb t]. exact Hlt. }
    split; [exact Hm|]. split; [exact Hc|].
    unfold vec_elem in Eq0.
    destruct (N.leb_spec (N.of_nat (length Q0all)) (N.of_nat j)); [discriminate|lia]. }
  destruct (Hstep 0%nat ltac:(lia)) as (Hm & Hc & _).
  destruct (Hstep (n_rows qall - 1)%nat ltac:(lia)) as (_ & _ & HQ).
  split; [exact Hm|]. split; [exact Hc|lia].
Qed.

Lemma subvec_inv {A : Type} (v r : list A) (a b : N) :
  subvec v a b = Ok r ->
  (a <= b)%N /\ (b < N.of_nat (length v))%N /\
  r = firstn (N.to_nat b - N.to_nat a + 1) (skipn (N.to_nat a) v).
Proof.
  unfold subvec. intros H.
  destruct (N.ltb_spec b a); [discriminate|].
  destruct (N.leb_spec (N.of_nat (length v)) b); [discriminate|].
  cbn [orb] in H. injection H as <-. auto.
Qed.

Lemma join_vert_rows (A B M : mat Q) :
  join_vert A B = Ok M -> n_rows M = (n_rows A + n_rows B)%nat.
Proof.
  unfold join_vert. destruct (_ && _ && _); [discriminate|].
  intros H. injection H as <-. reflexivity.
Qed.

Lemma ic_unique_rows_length (sort_index : vec -> list nat) (A C : mat Q) (ic : list nat) :
  ic_unique_rows sort_index A = Ok (C, ic) -> length ic = n_rows A.
Proof.
  unfold ic_unique_rows. intros H.
  destruct (rows _ _ _) as [B|]; cbn [bind] in H; [|discriminate].
  destruct (col B 0) as [col0|]; cbn [bind] in H; [|discriminate].
  injection H as _ <-. now rewrite length_map, length_seq.
Qed.

Lemma ols_fit_ic_length
    (sort_index : vec -> list nat) (solve : mat Q -> mat Q -> res (mat Q))
    (xfit q Q0 xpred xall : mat Q) (ic : list nat) (qall : mat Q) (Q0all : vec) :
  ols_fit sort_index solve xfit q Q0 xpred = Ok (xall, ic, qall, Q0all) ->
  (length ic <= n_rows xpred + n_rows xfit + 1)%nat.
Proof.
  unfold ols_fit. intros H.
  destruct (join_vert xpred xfit) as [xs1|] eqn:E1; cbn [bind] in H; [|discriminate].
  destruct (join_vert xs1 (col_means xfit)) as [xs|] eqn:E2; cbn [bind] in H; [|discriminate].
  destruct (ic_unique_rows sort_index xs) as [[xall' ic']|] eqn:E3; cbn [bind] in H;
    [|discriminate].
  apply join_vert_rows in E1, E2. apply ic_unique_rows_length in E3.
  assert (Hic : ic' = ic).
  { repeat match type of H with
           | bind ?c _ = Ok _ => destruct c; cbn [bind] in H; [|discriminate]
           end.
    now injection H as _ -> _ _. }
  subst ic'. rewrite E3, E2, E1. cbn [col_means n_rows mk].
  destruct (n_rows xfit =? 0)%nat; lia.
Qed.

Lemma select_rows_ok_inv (M R : mat Q) (idx : list nat) :
  select_rows M idx = Ok R ->
  (forall i, (i < length idx)%nat -> (nth i idx 0 < n_rows M)%nat) /\
  R = mk (length idx) (n_cols M) (fun i j => get M (nth i idx 0%nat) j).
Proof.
  unfold select_rows. destruct (forallb _ idx) eqn:E; [|discriminate].
  intros H. injection H as <-. split; [|reflexivity].
  intros i Hi. rewrite forallb_forall in E.
  apply Nat.ltb_lt, E, nth_In, Hi.
Qed.

(** The tail of a completed run: the rows selected for the fit and for
    the prediction covariates. *)
Lemma wasserstein_regression_inv
    (sort_index : vec -> list nat) (solve : mat Q -> mat Q -> res (mat Q))
    (quadprog : mat Q -> vec -> mat Q -> mat Q -> res vec)
    (xfit q Q0 xpred : mat Q) (tgrid : vec) (qdmin : Q)
    (result : regression_struct) (log : list string) :
  (N.of_nat (n_rows xpred + n_rows xfit) + 1 < uword_modulus)%N ->
  wasserstein_regression sort_index solve quadprog xfit q Q0 xpred tgrid qdmin
  = Ok (result, log) ->
  exists qall Q0all Qall ifit ipred,
    validate_grid tgrid (n_cols q) = Ok tt /\
    quantile_functions tgrid qall Q0all = Ok Qall /\
    (1 <= n_rows xpred)%nat /\ (1 <= n_rows q)%nat /\
    length ifit = n_rows q /\ length ipred = n_rows xpred /\
    select_rows Qall ifit = Ok (Qfit result) /\
    select_rows Qall ipred = Ok (Qpred result) /\
    select_rows qall ifit = Ok (qfit result) /\
    select_rows qall ipred = Ok (qpred result) /\
    select_rows (mmap Qinv qall) ifit = Ok (ffit result) /\
    select_rows (mmap Qinv qall) ipred = Ok (fpred result) /\
    Wasserstein.xfit result = xfit /\ Wasserstein.xpred result = xpred.
Proof.
  intros Hbound H. unfold wasserstein_regression in H.
  destruct (validate_grid tgrid (n_cols q)) as [[]|] eqn:Ev; cbn [bind] in H; [|discriminate].
  destruct (ols_fit sort_index solve xfit q Q0 xpred) as [[[[xall ic] qall0] Q0all0]|] eqn:Eo;
    cbn [bind] in H; [|discriminate].
  apply ols_fit_ic_length in Eo.
  match type of H with
  | bind ?c _ = _ => destruct c as [[[[qall Q0all] used] log0]|] eqn:Ep; cbn [bind] in H;
                     [|discriminate]
  end.
  destruct (quantile_functions tgrid qall Q0all) as [Qall|] eqn:EQ;
    cbn [bind] in H; [|discriminate].
  destruct (subvec ic (N.of_nat (n_rows xpred)) (usub (n_rows xpred + n_rows q) 1))
    as [ifit|] eqn:Efit; cbn [bind] in H; [|discriminate].
  destruct (select_rows Qall ifit) as [Qf|] eqn:E1; cbn [bind] in H; [|discriminate].
  destruct (subvec ic 0 (usub (n_rows xpred) 1)) as [ipred|] eqn:Epred;
    cbn [bind] in H; [|discriminate].
  destruct (select_rows Qall ipred) as [Qp|] eqn:E2; cbn [bind] in H; [|discriminate].
  destruct (select_rows qall ifit) as [qf|] eqn:E3; cbn [bind] in H; [|discriminate].
  destruct (select_rows qall ipred) as [qp|] eqn:E4; cbn [bind] in H; [|discriminate].
  destruct (select_rows (mmap Qinv qall) ifit) as [ff|] eqn:E5; cbn [bind] in H; [|discriminate].
  destruct (select_rows (mmap Qinv qall) ipred) as [fp|] eqn:E6; cbn [bind] in H; [|discriminate].
  injection H as <- <-. cbn [Qfit Qpred qfit qpred ffit fpred Wasserstein.xfit Wasserstein.xpred].
  exists qall, Q0all, Qall, ifit, ipred.
  apply subvec_inv in Efit, Epred.
  destruct Efit as (F1 & F2 & F3). destruct Epred as (P1 & P2 & P3).
  unfold usub in F1, F2, F3, P1, P2, P3.
  assert (Hk : (1 <= n_rows xpred)%nat).
  { destruct (Nat.leb_spec 1 (n_rows xpred)) as [Hle|Hgt]; [exact Hle|exfalso].
    replace (1 - n_rows xpred)%nat with 1%nat in P2 by lia. lia. }
  assert (Hn : (1 <= n_rows q)%nat).
  { destruct (Nat.leb_spec 1 (n_rows xpred + n_rows q)) as [Hle|Hgt]; lia. }
  replace (1 <=? n_rows xpred)%nat with true in P2, P3 by (symmetry; apply Nat.leb_le; lia).
  replace (1 <=? n_rows xpred + n_rows q)%nat with true in F2, F3
    by (symmetry; apply Nat.leb_le; lia).
  rewrite !Nat2N.id in F3. rewrite Nat2N.id in P3. change (N.to_nat 0) with 0%nat in P3.
  cbn [skipn] in P3.
  assert (Hif : length ifit = n_rows q).
  { rewrite F3, length_firstn, length_skipn. lia. }
  assert (Hip : length ipred = n_rows xpred).
  { rewrite P3, length_firstn. lia. }
  repeat split; assumption.
Qed.

(** X24: a completed run returns the covariates as given and six arrays
    on the grid: [Qfit], [qfit], [ffit] with one row per fitted
    observation and [Qpred], [qpred], [fpred] with one row per prediction
    covariate.  There is no completed run without a prediction covariate,
    without an observation or on a grid of fewer than two points. *)
Theorem wasserstein_regression_output_shapes
    (sort_index : vec -> list nat) (solve : mat Q -> mat Q -> res (mat Q))
    (quadprog : mat Q -> vec -> mat Q -> mat Q -> res vec)
    (xfit q Q0 xpred : mat Q) (tgrid : vec) (qdmin : Q)
    (result : regression_struct) (log : list string) :
  (N.of_nat (n_rows xpred + n_rows xfit) + 1 < uword_modulus)%N ->
  wasserstein_regression sort_index solve quadprog xfit q Q0 xpred tgrid qdmin
  = Ok (result, log) ->
  (1 <= n_rows xpred)%nat /\ (1 <= n_rows q)%nat /\ (2 <= n_cols q)%nat /\
  Wasserstein.xfit result = xfit /\ Wasserstein.xpred result = xpred /\
  (n_rows (Qfit result) = n_rows q /\ n_cols (Qfit result) = n_cols q) /\
  (n_rows (qfit result) = n_rows q /\ n_cols (qfit result) = n_cols q) /\
  (n_rows (ffit result) = n_rows q /\ n_cols (ffit result) = n_cols q) /\
  (n_rows (Qpred result) = n_rows xpred /\ n_cols (Qpred result) = n_cols q) /\
  (n_rows (qpred result) = n_rows xpred /\ n_cols (qpred result) = n_cols q) /\
  (n_rows (fpred result) = n_rows xpred /\ n_cols (fpred result) = n_cols q).
Proof.
  intros Hbound H.
  destruct (wasserstein_regression_inv _ _ _ _ _ _ _ _ _ Hbound H)
    as (qall & Q0all & Qall & ifit & ipred & Ev & EQ & Hk & Hn & Hif & Hip
        & E1 & E2 & E3 & E4 & E5 & E6 & Ex1 & Ex2).
  apply validate_grid_spec in Ev. destruct Ev as (Hlen & _ & _ & _).
  apply select_rows_ok_inv in E1, E2, E3, E4, E5, E6.
  destruct E3 as [R3 E3].
  assert (Hr : (1 <= n_rows qall)%nat) by (specialize (R3 0%nat ltac:(lia)); lia).
  destruct (quantile_functions_inv _ _ _ EQ Hr) as (Hm & Hc & HQ0).
  destruct (@quantile_functions_ok tgrid qall Q0all Hm Hc HQ0) as (Qall' & EQ' & Qr & Qc & _ & _).
  rewrite EQ in EQ'. injection EQ' as <-. specialize (Qc Hr).
  destruct E1 as [_ ->], E2 as [_ ->], E4 as [_ ->], E5 as [_ ->], E6 as [_ ->].
  rewrite E3. cbn [n_rows n_cols mk mmap].
  repeat split; congruence || lia.
Qed.

Lemma wasserstein_regression_output_shapes_witness :
  (1 <= n_rows pred_half)%nat /\ (1 <= n_rows rising_q)%nat /\ (2 <= n_cols rising_q)%nat /\
  Wasserstein.xfit scenario_b_result = fit_x /\ Wasserstein.xpred scenario_b_result = pred_half /\
  (n_rows (Qfit scenario_b_result) = n_rows rising_q
   /\ n_cols (Qfit scenario_b_result) = n_cols rising_q) /\
  (n_rows (qfit scenario_b_result) = n_rows rising_q
   /\ n_cols (qfit scenario_b_result) = n_cols rising_q) /\
  (n_rows (ffit scenario_b_result) = n_rows rising_q
   /\ n_cols (ffit scenario_b_result) = n_cols rising_q) /\
  (n_rows (Qpred scenario_b_result) = n_rows pred_half
   /\ n_cols (Qpred scenario_b_result) = n_cols rising_q) /\
  (n_rows (qpred scenario_b_result) = n_rows pred_half
   /\ n_cols (qpred scenario_b_result) = n_cols rising_q) /\
  (n_rows (fpred scenario_b_result) = n_rows pred_half
   /\ n_cols (fpred scenario_b_result) = n_cols rising_q).
Proof.
  apply (@wasserstein_regression_output_shapes stable_sort_index solve_2x2 quadprog_fails
           fit_x rising_q zero_Q0 pred_half grid3 small_qdmin scenario_b_result []).
  - vm_compute. reflexivity.
  - vm_compute. reflexivity.
Defined.

(** X25: in what a completed run returns, every quantile function is the
    running trapezoid integral over the grid of the quantile density of
    the same row, for the fitted observations and for the prediction
    covariates alike, and every density entry is the inverse of the
    quantile density entry, where this is not 0. *)
Theorem wasserstein_regression_outputs_related
    (sort_index : vec -> list nat) (solve : mat Q -> mat Q -> res (mat Q))
    (quadprog : mat Q -> vec -> mat Q -> mat Q -> res vec)
    (xfit q Q0 xpred : mat Q) (tgrid : vec) (qdmin : Q)
    (result : regression_struct) (log : list string) :
  (N.of_nat (n_rows xpred + n_rows xfit) + 1 < uword_modulus)%N ->
  wasserstein_regression sort_index solve quadprog xfit q Q0 xpred tgrid qdmin
  = Ok (result, log) ->
  (forall i k, (i < n_rows q)%nat -> (S k < length tgrid)%nat ->
     get (Qfit result) i (S k)
     == get (Qfit result) i k
        + (1 # 2) * ((nth (S k) tgrid 0 - nth k tgrid 0)
                     * (get (qfit result) i (S k) + get (qfit result) i k))) /\
  (forall i k, (i < n_rows xpred)%nat -> (S k < length tgrid)%nat ->
     get (Qpred result) i (S k)
     == get (Qpred result) i k
        + (1 # 2) * ((nth (S k) tgrid 0 - nth k tgrid 0)
                     * (get (qpred result) i (S k) + get (qpred result) i k))) /\
  (forall i j, (i < n_rows q)%nat -> (j < length tgrid)%nat ->
     ~ get (qfit result) i j == 0 ->
     get (ffit result) i j = / get (qfit result) i j) /\
  (forall i j, (i < n_rows xpred)%nat -> (j < length tgrid)%nat ->
     ~ get (qpred result) i j == 0 ->
     get (fpred result) i j = / get (qpred result) i j).
Proof.
  intros Hbound H.
  destruct (wasserstein_regression_inv _ _ _ _ _ _ _ _ _ Hbound H)
    as (qall & Q0all & Qall & ifit & ipred & Ev & EQ & Hk & Hn & Hif & Hip
        & E1 & E2 & E3 & E4 & E5 & E6 & _ & _).
  apply select_rows_ok_inv in E1, E2, E3, E4, E5, E6.
  destruct E1 as [R1 E1], E2 as [R2 E2], E3 as [R3 E3], E4 as [R4 E4],
           E5 as [_ E5], E6 as [_ E6].
  assert (Hr : (1 <= n_rows qall)%nat) by (specialize (R3 0%nat ltac:(lia)); lia).
  destruct (quantile_functions_inv _ _ _ EQ Hr) as (Hm & Hc & HQ0).
  destruct (@quantile_functions_ok tgrid qall Q0all Hm Hc HQ0) as (Qall' & EQ' & Qr & Qc & _ & Qrows).
  rewrite EQ in EQ'. injection EQ' as <-. specialize (Qc Hr).
  rewrite E1, E2, E3, E4, E5, E6. unfold mmap. cbn [n_rows n_cols mk].
  split; [|split; [|split]].
  - intros i k Hi Hk'. rewrite !get_mk by lia.
    apply (Qrows (nth i ifit 0%nat)); [apply R3; lia|exact Hk'].
  - intros i k Hi Hk'. rewrite !get_mk by lia.
    apply (Qrows (nth i ipred 0%nat)); [apply R4; lia|exact Hk'].
  - intros i j Hi Hj _.
    rewrite !get_mk by first [lia| apply R3; lia]. reflexivity.
  - intros i j Hi Hj _.
    rewrite !get_mk by first [lia| apply R4; lia]. reflexivity.
Qed.

Lemma wasserstein_regression_outputs_related_witness :
  (forall i k, (i < n_rows rising_q)%nat -> (S k < length grid3)%nat ->
     get (Qfit scenario_b_result) i (S k)
     == get (Qfit scenario_b_result) i k
        + (1 # 2) * ((nth (S k) grid3 0 - nth k grid3 0)
                     * (get (qfit scenario_b_result) i (S k)
                        + get (qfit scenario_b_result) i k))) /\
  (forall i k, (i < n_rows pred_half)%nat -> (S k < length grid3)%nat ->
     get (Qpred scenario_b_result) i (S k)
     == get (Qpred scenario_b_result) i k
        + (1 # 2) * ((nth (S k) grid3 0 - nth k grid3 0)
                     * (get (qpred scenario_b_result) i (S k)
                        + get (qpred scenario_b_result) i k))) /\
  (forall i j, (i < n_rows rising_q)%nat -> (j < length grid3)%nat ->
     ~ get (qfit scenario_b_result) i j == 0 ->
     get (ffit scenario_b_result) i j = / get (qfit scenario_b_result) i j) /\
  (forall i j, (i < n_rows pred_half)%nat -> (j < length grid3)%nat ->
     ~ get (qpred scenario_b_result) i j == 0 ->
     get (fpred scenario_b_result) i j = / get (qpred scenario_b_result) i j).
Proof.
  apply (@wasserstein_regression_outputs_related stable_sort_index solve_2x2 quadprog_fails
           fit_x rising_q zero_Q0 pred_half grid3 small_qdmin scenario_b_result []).
  - vm_compute. reflexivity.
  - vm_compute. reflexivity.
Defined.

(** X26: the checks on the grid come first and do not depend on the
    other inputs or on the solvers: a grid whose length is not the number
    of columns of [q] and a grid that does not start at 0 or does not end
    at 1 are refused with [std::invalid_argument]; with an empty grid and
    an empty [q] the read [t(0)] is out of bounds. *)
Theorem wasserstein_regression_rejects_grid
    (sort_index : vec -> list nat) (solve : mat Q -> mat Q -> res (mat Q))
    (quadprog : mat Q -> vec -> mat Q -> mat Q -> res vec)
    (xfit q Q0 xpred : mat Q) (tgrid : vec) (qdmin : Q) :
  (length tgrid <> n_cols q ->
   wasserstein_regression sort_index solve quadprog xfit q Q0 xpred tgrid qdmin
   = Throw (invalid_argument "Length of t should match number of columns in q")) /\
  (length tgrid = n_cols q -> (1 <= length tgrid)%nat ->
   ~ nth 0 tgrid 0 == 0 \/ ~ nth (length tgrid - 1) tgrid 0 == 1 ->
   wasserstein_regression sort_index solve quadprog xfit q Q0 xpred tgrid qdmin
   = Throw (invalid_argument
              "Input t should be an increasing grid beginning at 0 and ending at 1")) /\
  (length tgrid = n_cols q -> length tgrid = 0%nat ->
   wasserstein_regression sort_index solve quadprog xfit q Q0 xpred tgrid qdmin
   = Throw (logic_error "Mat::operator(): index out of bounds")).
Proof.
  unfold wasserstein_regression, validate_grid.
  split; [|split].
  - intros Hne. destruct (Nat.eqb_spec (length tgrid) (n_cols q)); [contradiction|reflexivity].
  - intros Hlen Hm Hends. rewrite Hlen, Nat.eqb_refl. cbn [negb]. rewrite <- Hlen.
    change 0%N with (N.of_nat 0). rewrite vec_elem_ok by lia. cbn [bind].
    rewrite usub_le by lia. rewrite vec_elem_ok by lia. cbn [bind].
    assert (Hb : negb (Qeq_bool (nth 0 tgrid 0) 0)
                 || negb (Qeq_bool (nth (length tgrid - 1) tgrid 0) 1) = true).
    { destruct (Qeq_bool (nth 0 tgrid 0) 0) eqn:E0; [|reflexivity].
      destruct (Qeq_bool (nth (length tgrid - 1) tgrid 0) 1) eqn:E1; [|reflexivity].
      apply Qeq_bool_iff in E0, E1. destruct Hends as [Hx|Hx]; contradiction. }
    rewrite Hb. reflexivity.
  - intros Hlen H0. rewrite Hlen, Nat.eqb_refl. cbn [negb]. rewrite <- Hlen.
    unfold vec_elem. rewrite H0. reflexivity.
Qed.

Lemma wasserstein_regression_rejects_grid_witness :
  wasserstein_regression stable_sort_index solve_2x2 quadprog_fails
    fit_x rising_q zero_Q0 pred_half unsorted_grid small_qdmin
  = Throw (invalid_argument "Length of t should match number of columns in q") /\
  wasserstein_regression stable_sort_index solve_2x2 quadprog_fails
    fit_x rising_q zero_Q0 pred_half shifted_grid small_qdmin
  = Throw (invalid_argument
             "Input t should be an increasing grid beginning at 0 and ending at 1") /\
  wasserstein_regression stable_sort_index solve_2x2 quadprog_fails
    fit_x no_columns zero_Q0 pred_half [] small_qdmin
  = Throw (logic_error "Mat::operator(): index out of bounds").
Proof.
  split; [|split].
  - apply (proj1 (wasserstein_regression_rejects_grid stable_sort_index solve_2x2
                    quadprog_fails fit_x rising_q zero_Q0 pred_half unsorted_grid small_qdmin)).
    cbn. lia.
  - apply (proj1 (proj2 (wasserstein_regression_rejects_grid stable_sort_index solve_2x2
                    quadprog_fails fit_x rising_q zero_Q0 pred_half shifted_grid small_qdmin))).
    + reflexivity.
    + cbn. lia.
    + left. cbn. intros E. discriminate E.
  - apply (proj2 (proj2 (wasserstein_regression_rejects_grid stable_sort_index solve_2x2
                    quadprog_fails fit_x no_columns zero_Q0 pred_half [] small_qdmin))).
    + reflexivity.
    + reflexivity.
Defined.

(** *** The projection never stops a run *)

Ltac shape :=
  unfold zeros, ones, eye, mneg, scale, mmap, map2, t, col_of, row_of;
  cbn [n_rows n_cols mk]; rewrite ?length_vscale, ?length_row_vec; lia.

Lemma join_vert_ok (A B : mat Q) :
  n_cols A = n_cols B ->
  join_vert A B
  = Ok (mk (n_rows A + n_rows B) (Nat.max (n_cols A) (n_cols B))
           (fun i j => if (i <? n_rows A)%nat then get A i j else get B (i - n_rows A) j)).
Proof. intros H. unfold join_vert. now rewrite H, Nat.eqb_refl. Qed.

Lemma join_horiz_ok (A B : mat Q) :
  n_rows A = n_rows B ->
  join_horiz A B
  = Ok (mk (Nat.max (n_rows A) (n_rows B)) (n_cols A + n_cols B)
           (fun i j => if (j <? n_cols A)%nat then get A i j else get B i (j - n_cols A))).
Proof. intros H. unfold join_horiz. now rewrite H, Nat.eqb_refl. Qed.

Lemma mmul_ok (A B : mat Q) :
  n_cols A = n_rows B ->
  mmul A B
  = Ok (mk (n_rows A) (n_cols B)
           (fun i j => Qsum (List.map (fun k => get A i k * get B k j) (seq 0 (n_cols A))))).
Proof. intros H. unfold mmul. now rewrite H, Nat.eqb_refl. Qed.

Lemma qp_matrices_ok (c : vec) (C : mat Q) (m : nat) (qdmin : Q) :
  (1 <= m)%nat -> length c = m -> n_rows C = m -> n_cols C = m ->
  exists D V1 v1 V2,
    qp_matrices c C m qdmin = Ok (D, V1, v1, V2) /\
    n_cols V1 = n_cols V2 /\ n_rows v1 = 1%nat.
Proof.
  intros Hm Hc HCr HCc. unfold qp_matrices.
  rewrite join_vert_ok by shape. cbn [bind].
  rewrite (join_horiz_ok (col_of c) C) by shape. cbn [bind].
  rewrite join_vert_ok by shape. cbn [bind].
  rewrite join_horiz_ok by shape. cbn [bind].
  rewrite join_horiz_ok by shape. cbn [bind].
  rewrite join_horiz_ok by shape. cbn [bind].
  rewrite join_horiz_ok by shape. cbn [bind].
  do 4 eexists. split; [reflexivity|]. split; shape.
Qed.

Lemma qp_instance_ok (V1 v1 V2 : mat Q) (c : vec) (C : mat Q) (ax : Q) (hx : vec) :
  length hx = length c -> n_rows C = length c -> n_cols C = length c ->
  n_cols V1 = n_cols V2 -> n_rows v1 = 1%nat ->
  exists d V v,
    qp_instance V1 v1 V2 c C ax hx = Ok (d, V, v) /\ length d = S (length c).
Proof.
  intros Hhx HCr HCc HV Hv. unfold qp_instance.
  rewrite mmul_ok by shape. cbn [bind].
  rewrite mmul_ok by shape. cbn [bind].
  unfold madd.
  match goal with
  | |- context [(?a =? ?b)%nat && (?c1 =? ?d)%nat] =>
      replace (a =? b)%nat with true by (symmetry; apply Nat.eqb_eq; shape);
      replace (c1 =? d)%nat with true by (symmetry; apply Nat.eqb_eq; shape)
  end.
  cbn [andb bind].
  rewrite join_vert_ok by shape. cbn [bind].
  unfold as_vec.
  match goal with
  | |- context [(?a =? 1)%nat || _] =>
      replace (a =? 1)%nat with true by (symmetry; apply Nat.eqb_eq; shape)
  end.
  cbn [orb bind].
  rewrite join_vert_ok by shape. cbn [bind].
  rewrite join_vert_ok by shape. cbn [bind].
  rewrite join_horiz_ok by shape. cbn [bind].
  rewrite join_horiz_ok by shape. cbn [bind].
  do 3 eexists. split; [reflexivity|].
  rewrite length_map, length_seq. shape.
Qed.

(** One turn of the loop of lines 258-276 on a row of the right shape,
    with a solver whose solutions have as many entries as the program has
    unknowns. *)
Lemma qp_row_ok
    (quadprog : mat Q -> vec -> mat Q -> mat Q -> res vec)
    (D V1 v1 V2 : mat Q) (c : vec) (C : mat Q)
    (qall : mat Q) (Q0all : vec) (log : list string) (row : nat) :
  (forall D d V v x, quadprog D d V v = Ok x -> length x = length d) ->
  (1 <= length c)%nat -> n_cols qall = length c -> n_rows C = length c -> n_cols C = length c ->
  n_cols V1 = n_cols V2 -> n_rows v1 = 1%nat ->
  (row < n_rows qall)%nat -> (row < length Q0all)%nat ->
  exists qall' Q0all' log',
    qp_row quadprog D V1 v1 V2 c C (qall, Q0all, log) row = Ok (qall', Q0all', log') /\
    n_rows qall' = n_rows qall /\ n_cols qall' = n_cols qall /\
    length Q0all' = length Q0all /\
    (log' = log \/ log' = log ++ [qp_warning]) /\
    (forall i j, (i < n_rows qall)%nat -> (j < n_cols qall)%nat -> i <> row ->
       get qall' i j = get qall i j) /\
    (forall i, i <> row -> nth i Q0all' 0 = nth i Q0all 0).
Proof.
  intros Hsol Hm Hq HCr HCc HV Hv Hrow HQ0.
  destruct (@qp_instance_ok V1 v1 V2 c C (nth row Q0all 0) (row_vec qall row))
    as (d & V & v & Hinst & Hd);
    [rewrite length_row_vec; exact Hq|exact HCr|exact HCc|exact HV|exact Hv|].
  unfold qp_row. rewrite vec_elem_ok by exact HQ0.
  cbn [bind]. rewrite Hinst. cbn [bind].
  assert (Hrun : forall (tmp : vec) (log' : list string),
            length tmp = S (length c) ->
            exists qall',
              (tail <- subvec tmp 1 (usub (length tmp) 1) ;;
               qall' <- set_row qall (N.of_nat row) (row_of tail) ;;
               head <- vec_elem tmp 0 ;;
               Ok (qall', vec_set Q0all row head, log'))
              = Ok (qall', vec_set Q0all row (nth 0 tmp 0), log') /\
              n_rows qall' = n_rows qall /\ n_cols qall' = n_cols qall /\
              forall i j, (i < n_rows qall)%nat -> (j < n_cols qall)%nat -> i <> row ->
                get qall' i j = get qall i j).
  { intros tmp log' Htmp.
    rewrite subvec_tail by lia. cbn [bind].
    assert (Htl : length (tl tmp) = n_cols qall) by (destruct tmp; cbn in *; lia).
    rewrite set_row_ok; [|exact Hrow|reflexivity|cbn; exact Htl].
    cbn [bind]. change 0%N with (N.of_nat 0). rewrite vec_elem_ok by lia. cbn [bind].
    eexists. split; [reflexivity|]. split; [reflexivity|]. split; [reflexivity|].
    intros i j Hi Hj Hne.
    rewrite get_mk by lia. destruct (Nat.eqb_spec i row); [contradiction|reflexivity]. }
  assert (Hset : forall x, length (vec_set Q0all row x) = length Q0all).
  { intros x. clear. revert row. induction Q0all as [|y l IH]; intros [|row]; cbn; congruence. }
  destruct (quadprog D d V (t v)) as [x|e] eqn:Eq.
  - destruct (Hrun x log) as (qall' & E & Hr & Hc & Hother);
      [rewrite (Hsol _ _ _ _ _ Eq); exact Hd|].
    exists qall', (vec_set Q0all row (nth 0 x 0)), log.
    split; [exact E|]. split; [exact Hr|]. split; [exact Hc|]. split; [apply Hset|].
    split; [now left|]. split; [exact Hother|].
    intros i Hne. rewrite nth_vec_set by exact HQ0.
    destruct (Nat.eqb_spec i row); [contradiction|reflexivity].
  - destruct (Hrun (repeat 0 (length d)) (log ++ [qp_warning])) as (qall' & E & Hr & Hc & Hother);
      [rewrite repeat_length; exact Hd|].
    exists qall', (vec_set Q0all row (nth 0 (repeat 0 (length d)) 0)), (log ++ [qp_warning]).
    split; [exact E|]. split; [exact Hr|]. split; [exact Hc|]. split; [apply Hset|].
    split; [now right|]. split; [exact Hother|].
    intros i Hne. rewrite nth_vec_set by exact HQ0.
    destruct (Nat.eqb_spec i row); [contradiction|reflexivity].
Qed.

Lemma foldM_prefix_invariant {A B : Type} (f : B -> A -> res B) (P : list A -> B -> Prop) :
  forall l done b,
    P done b ->
    (forall done' a b0, In a l -> P done' b0 -> exists b1, f b0 a = Ok b1 /\ P (done' ++ [a]) b1) ->
    exists b', foldM f l b = Ok b' /\ P (done ++ l) b'.
Proof.
  induction l as [|a l IH]; intros done b Hb Hstep.
  - exists b. rewrite app_nil_r. now split.
  - cbn [foldM]. destruct (Hstep done a b (or_introl eq_refl) Hb) as (b1 & E1 & H1).
    rewrite E1. cbn [bind].
    destruct (IH (done ++ [a]) b1 H1) as (b' & E' & H').
    { intros done' a' b0 Hin. apply Hstep. now right. }
    exists b'. split; [exact E'|]. now rewrite <- app_assoc in H'.
Qed.

(** X27: on a grid of at least two points the projection of the flagged
    rows runs to its end whatever the solver does, provided the solutions
    it returns have as many entries as the program has unknowns: a solver
    that throws costs one warning and no more.  The shapes of [qall] and
    [Q0all] are kept, at most one warning is written per flagged row, and
    the rows that are not flagged are returned as they were. *)
Theorem projection_completes
    (quadprog : mat Q -> vec -> mat Q -> mat Q -> res vec)
    (tgrid : vec) (qdmin : Q) (dec : list nat) (qall : mat Q) (Q0all : vec) :
  (forall D d V v x, quadprog D d V v = Ok x -> length x = length d) ->
  (2 <= length tgrid)%nat -> n_cols qall = length tgrid -> length Q0all = n_rows qall ->
  (forall r, In r dec -> (r < n_rows qall)%nat) ->
  exists qall' Q0all' log,
    project quadprog tgrid (length tgrid) qdmin dec qall Q0all = Ok (qall', Q0all', log) /\
    n_rows qall' = n_rows qall /\ n_cols qall' = n_cols qall /\
    length Q0all' = length Q0all /\
    (length log <= length dec)%nat /\ (forall w, In w log -> w = qp_warning) /\
    (forall i j, (i < n_rows qall)%nat -> (j < n_cols qall)%nat -> ~ In i dec ->
       get qall' i j = get qall i j) /\
    (forall i, ~ In i dec -> nth i Q0all' 0 = nth i Q0all 0).
Proof.
  intros Hsol Hm Hc HQ0 Hdec. unfold project.
  destruct (getcC_ok tgrid Hm) as (c & C & Eg & Hlc & HCr & HCc & _).
  rewrite Eg. cbn [bind].
  destruct (@qp_matrices_ok c C (length tgrid) qdmin ltac:(lia) Hlc HCr HCc)
    as (D & V1 & v1 & V2 & Em & HV & Hv).
  rewrite Em. cbn [bind].
  destruct (@foldM_prefix_invariant _ _ (qp_row quadprog D V1 v1 V2 c C)
              (fun done (st : mat Q * vec * list string) =>
                 let '(qa, Q0a, lg) := st in
                 n_rows qa = n_rows qall /\ n_cols qa = n_cols qall /\
                 length Q0a = length Q0all /\
                 (length lg <= length done)%nat /\ (forall w, In w lg -> w = qp_warning) /\
                 (forall i j, (i < n_rows qall)%nat -> (j < n_cols qall)%nat -> ~ In i done ->
                    get qa i j = get qall i j) /\
                 (forall i, ~ In i done -> nth i Q0a 0 = nth i Q0all 0))
              dec [] (qall, Q0all, []))
    as ([[qall' Q0all'] log] & E & H).
  - cbn [length]. repeat split; try reflexivity; try lia. intros w [].
  - intros done' a [[qa Q0a] lg] Hin (Ir & Ic & IQ & Il & Iw & Iq & I0).
    destruct (@qp_row_ok quadprog D V1 v1 V2 c C qa Q0a lg a Hsol)
      as (qa' & Q0a' & lg' & E & Hr' & Hc' & HQ' & Hlog & Hq' & H0');
      try congruence; try lia.
    { rewrite Ir. now apply Hdec. }
    { rewrite IQ, HQ0. now apply Hdec. }
    exists (qa', Q0a', lg'). split; [exact E|].
    split; [congruence|]. split; [congruence|]. split; [congruence|].
    rewrite length_app. cbn [length].
    split; [destruct Hlog as [->| ->]; [lia|rewrite length_app; cbn [length]; lia]|].
    split.
    { intros w Hw. destruct Hlog as [->| ->]; [now apply Iw|].
      apply in_app_or in Hw. destruct Hw as [Hw|[<-|[]]]; [now apply Iw|reflexivity]. }
    split.
    + intros i j Hi Hj Hni.
      rewrite Hq' by (try congruence; intros ->; apply Hni, in_or_app; right; now left).
      apply Iq; [exact Hi|exact Hj|]. intros Hd. apply Hni, in_or_app. now left.
    + intros i Hni.
      rewrite H0' by (intros ->; apply Hni, in_or_app; right; now left).
      apply I0. intros Hd. apply Hni, in_or_app. now left.
  - cbn [app] in H. exists qall', Q0all', log. split; [exact E|]. exact H.
Qed.

Lemma projection_completes_witness :
  let '(qall, Q0all) := scenario_c_ols in
  exists qall' Q0all' log,
    project quadprog_fails grid3 (length grid3) small_qdmin [3%nat] qall Q0all
    = Ok (qall', Q0all', log) /\
    n_rows qall' = n_rows qall /\ n_cols qall' = n_cols qall /\
    length Q0all' = length Q0all /\
    (length log <= length [3%nat])%nat /\ (forall w, In w log -> w = qp_warning) /\
    (forall i j, (i < n_rows qall)%nat -> (j < n_cols qall)%nat -> ~ In i [3%nat] ->
       get qall' i j = get qall i j) /\
    (forall i, ~ In i [3%nat] -> nth i Q0all' 0 = nth i Q0all 0).
Proof.
  cbv beta iota delta [scenario_c_ols].
  apply (@projection_completes quadprog_fails grid3 small_qdmin [3%nat]).
  - intros D d V v x E. discriminate E.
  - cbn. lia.
  - reflexivity.
  - reflexivity.
  - intros r [<-|[]]. cbn. lia.
Defined.

End WassersteinExtras.
